(** * SearchWindow: relevance ranking and match highlighting

    A shallow embedding of the file-name search of the SearchWindow
    extension: [FileSearchViewProvider] (the rank classifier
    [_calculateRank], the comparator [_compareFilesByRelevance], the
    highlighter [_boldMatchingText], the filter of the [search] message)
    and the webview's extension post-filter [applyFilter] of
    [media/main.js].

    JavaScript strings are sequences of UTF-16 code units: a string is a
    [list N], an index or a length is a [Z] (as [indexOf] answers [-1]),
    and a number that may be [Infinity] is a [number]. *)

From Stdlib Require Import ZArith NArith List Lia Bool String Ascii Sorted.
From stdpp Require Import base tactics option list sorting.

Local Open Scope Z_scope.

(** ** JavaScript strings *)

Abbreviation codeunit := N (only parsing).
Abbreviation jsstring := (list N) (only parsing).

(** An ASCII literal as a JavaScript string. *)
Definition js (s : string) : jsstring :=
  map N_of_ascii (list_ascii_of_string s).

Module JS.

(** [s.length] *)
Definition length (s : jsstring) : Z := Z.of_nat (List.length s).

(** What [substring], [indexOf] do to a position: below 0 is 0, beyond
    the length is the length. *)
Definition clamp (n x : Z) : Z := Z.min (Z.max x 0) n.

(** [s.substring(a, b)]: both ends are clamped to [0, s.length] and
    swapped when they come in the wrong order. *)
Definition substring (s : jsstring) (a b : Z) : jsstring :=
  let a' := clamp (length s) a in
  let b' := clamp (length s) b in
  let from := Z.min a' b' in
  let to := Z.max a' b' in
  take (Z.to_nat (to - from)) (drop (Z.to_nat from) s).

(** [s.substring(a)] *)
Definition substringFrom (s : jsstring) (a : Z) : jsstring :=
  substring s a (length s).

(** [s.startsWith(q)] *)
Fixpoint startsWith (s q : jsstring) : bool :=
  match q, s with
  | [], _ => true
  | c :: q', d :: s' => (c =? d)%N && startsWith s' q'
  | _ :: _, [] => false
  end.

(** The search of [indexOf]: [s] is what is left of the string from
    index [k] on. *)
Fixpoint indexOfFrom (s q : jsstring) (k : Z) : Z :=
  if startsWith s q then k
  else match s with
       | [] => -1
       | _ :: s' => indexOfFrom s' q (k + 1)
       end.

(** [s.indexOf(q, pos)] *)
Definition indexOf (s q : jsstring) (pos : Z) : Z :=
  let start := clamp (length s) pos in
  indexOfFrom (drop (Z.to_nat start) s) q start.

(** [s.includes(q)]: whether the search of [indexOf] finds [q]. *)
Definition includes (s q : jsstring) : bool :=
  negb (indexOf s q 0 =? -1).

(** The search of [lastIndexOf], keeping the last index found. *)
Fixpoint lastIndexOfFrom (s q : jsstring) (k found : Z) : Z :=
  let found' := if startsWith s q then k else found in
  match s with
  | [] => found'
  | _ :: s' => lastIndexOfFrom s' q (k + 1) found'
  end.

(** [s.lastIndexOf(q)] *)
Definition lastIndexOf (s q : jsstring) : Z :=
  lastIndexOfFrom s q 0 (-1).

(** [s.endsWith(q)] *)
Definition endsWith (s q : jsstring) : bool :=
  if length s <? length q then false
  else startsWith (drop (Z.to_nat (length s - length q)) s) q.

(** JavaScript numbers, as far as this program meets them: integers
    and the infinities ([NaN] is what [Infinity - Infinity] gives). *)
Inductive number : Type :=
  | Num (z : Z)
  | Infinity
  | NegInfinity
  | NaN.

(** [a - b] *)
Definition sub (a b : number) : number :=
  match a, b with
  | Num x, Num y => Num (x - y)
  | NaN, _ | _, NaN => NaN
  | Infinity, Infinity => NaN
  | NegInfinity, NegInfinity => NaN
  | Infinity, _ => Infinity
  | NegInfinity, _ => NegInfinity
  | Num _, Infinity => NegInfinity
  | Num _, NegInfinity => Infinity
  end.

(** [a === b] on numbers: [NaN] equals nothing. *)
Definition strictEq (a b : number) : bool :=
  match a, b with
  | Num x, Num y => x =? y
  | Infinity, Infinity => true
  | NegInfinity, NegInfinity => true
  | _, _ => false
  end.

(** The sign of a number: [Lt] below zero, [Eq] at zero, [Gt] above;
    [NaN] has none. *)
Definition sign (a : number) : option comparison :=
  match a with
  | Num z => Some (z ?= 0)
  | Infinity => Some Gt
  | NegInfinity => Some Lt
  | NaN => None
  end.

End JS.

(** ** The rank classifier and the comparator *)

Module Rank.
(** What [_calculateRank] returns. *)
Record t : Type := mk {
  tier : Z;
  editDist : Z;
  length : Z;
  position : JS.number
}.
End Rank.

(** [Math.min(a, b, c)] *)
Definition min3 (a b c : Z) : Z := Z.min a (Z.min b c).

(** The table [dp] of [_editDistance]: an array of rows, read and
    written by index. The loops keep to the [m + 1] rows of [n + 1]
    cells the table has from its start to its end ([shape_setCell],
    [filled_editTable]), so what JavaScript does outside of it (a row
    that is [undefined]) never happens; outside, a read here gives 0
    and a write does nothing. *)
Definition getCell (dp : list (list Z)) (i j : nat) : Z :=
  (dp !!! i) !!! j.

Definition setCell (dp : list (list Z)) (i j : nat) (v : Z) : list (list Z) :=
  <[i := <[j := v]> (dp !!! i)]> dp.

(** The body of the inner loop of [_editDistance]: the cell [(i, j)]. *)
Definition editCell (s1 s2 : jsstring) (i : nat) (dp : list (list Z)) (j : nat)
  : list (list Z) :=
  if decide (s1 !! (i - 1)%nat = s2 !! (j - 1)%nat) then
    setCell dp i j (getCell dp (i - 1) (j - 1))
  else
    setCell dp i j
      (min3 (getCell dp (i - 1) j + 1)
            (getCell dp i (j - 1) + 1)
            (getCell dp (i - 1) (j - 1) + 1)).

(** The three loops of [_editDistance], in their order. *)
Definition editTable (s1 s2 : jsstring) : list (list Z) :=
  let m := List.length s1 in
  let n := List.length s2 in
  let dp := replicate (S m) (replicate (S n) 0) in
  let dp := foldl (fun dp i => setCell dp i 0 (Z.of_nat i)) dp (seq 0 (S m)) in
  let dp := foldl (fun dp j => setCell dp 0 j (Z.of_nat j)) dp (seq 0 (S n)) in
  foldl (fun dp i => foldl (editCell s1 s2 i) dp (seq 1 n)) dp (seq 1 m).

(** [_editDistance(s1, s2)] *)
Definition _editDistance (s1 s2 : jsstring) : Z :=
  getCell (editTable s1 s2) (List.length s1) (List.length s2).

(** The code unit of the dot. *)
Definition dot : jsstring := [46%N].

(** [_getBasename(filename)] *)
Definition _getBasename (filename : jsstring) : jsstring :=
  let lastDot := JS.lastIndexOf filename dot in
  if lastDot >? 0 then JS.substring filename 0 lastDot
  else filename.

(** The comparison of two ranks in [_compareFilesByRelevance];
    [alphabetical] is [filenameA.localeCompare(filenameB)]. *)
Definition compareRanks (rankA rankB : Rank.t) (alphabetical : Z) : JS.number :=
  if negb (Rank.tier rankA =? Rank.tier rankB) then
    JS.Num (Rank.tier rankA - Rank.tier rankB)
  else if negb (Rank.editDist rankA =? Rank.editDist rankB) then
    JS.Num (Rank.editDist rankA - Rank.editDist rankB)
  else if negb (Rank.length rankA =? Rank.length rankB) then
    JS.Num (Rank.length rankA - Rank.length rankB)
  else if negb (JS.strictEq (Rank.position rankA) (Rank.position rankB)) then
    JS.sub (Rank.position rankA) (Rank.position rankB)
  else
    JS.Num alphabetical.

Section Classifier.

(** [String.prototype.toLowerCase] and [String.prototype.localeCompare]
    are the host's: whatever they are, the program is this. *)
Variable toLowerCase : jsstring -> jsstring.
Variable localeCompare : jsstring -> jsstring -> Z.

(** [caseSensitive ? s : s.toLowerCase()] *)
Definition normalize (caseSensitive : bool) (s : jsstring) : jsstring :=
  if caseSensitive then s else toLowerCase s.

(** [_calculateRank(filename, query, caseSensitive)] *)
Definition _calculateRank (filename query : jsstring) (caseSensitive : bool)
  : Rank.t :=
  let fn := normalize caseSensitive filename in
  let q := normalize caseSensitive query in
  let basename := _getBasename fn in
  let queryBasename := _getBasename q in
  let tier := 5 in
  let position := JS.indexOf fn q 0 in
  let '(tier, position) :=
    if bool_decide (fn = q) then (0, 0)
    else if bool_decide (basename = queryBasename) || bool_decide (basename = q)
    then (1, 0)
    else if JS.startsWith basename q then (2, 0)
    else if JS.includes basename q then (3, JS.indexOf basename q 0)
    else if JS.includes fn q then (4, JS.indexOf fn q 0)
    else (tier, position) in
  let editDist := _editDistance basename q in
  {| Rank.tier := tier;
     Rank.editDist := editDist;
     Rank.length := JS.length filename;
     Rank.position := if position >=? 0 then JS.Num position else JS.Infinity |}.

(** [_compareFilesByRelevance(filenameA, filenameB, query, caseSensitive)] *)
Definition _compareFilesByRelevance
  (filenameA filenameB query : jsstring) (caseSensitive : bool) : JS.number :=
  let rankA := _calculateRank filenameA query caseSensitive in
  let rankB := _calculateRank filenameB query caseSensitive in
  compareRanks rankA rankB (localeCompare filenameA filenameB).

End Classifier.

(** [toLowerCase] as far as the examples below need it: what it does
    to the code units below U+0100 (Basic Latin and Latin-1) and to
    U+0130 (capital I with dot above), whose lowercase is the two code
    units U+0069 U+0307. *)
Definition lowerUnit (c : N) : list N :=
  if ((65 <=? c) && (c <=? 90))%N then [(c + 32)%N]
  else if ((192 <=? c) && (c <=? 222) && negb (c =? 215))%N then [(c + 32)%N]
  else if (c =? 304)%N then [105%N; 775%N]
  else [c].

Definition toLowerCaseLatin (s : jsstring) : jsstring :=
  flat_map lowerUnit s.

(** An ordering of strings by their code units, as one collation. *)
Fixpoint compareCodeUnits (a b : jsstring) : Z :=
  match a, b with
  | [], [] => 0
  | [], _ :: _ => -1
  | _ :: _, [] => 1
  | x :: a', y :: b' =>
      match (x ?= y)%N with
      | Lt => -1
      | Gt => 1
      | Eq => compareCodeUnits a' b'
      end
  end.

(** ** The highlighter *)

Module Span.
(** An occurrence [{ start, end }]; its [end] is [stop] here. *)
Record t : Type := mk { start : Z; stop : Z }.
End Span.

(** The marker of bold text. *)
Definition bold : jsstring := js "**".

(** The [while] loop of [_boldMatchingText]: the occurrences of [q] in
    [fn] from [searchPos] on. Each round moves [searchPos] forward, so
    [fuel] rounds are enough when [fuel] is at least
    [fn.length - searchPos] (lemma [findPositions_fuel]). *)
Fixpoint findPositions (fn q : jsstring) (queryLength searchPos : Z) (fuel : nat)
  : list Span.t :=
  match fuel with
  | O => []
  | S fuel' =>
      if searchPos <? JS.length fn then
        let index := JS.indexOf fn q searchPos in
        if index =? -1 then []
        else Span.mk index (index + queryLength)
               :: findPositions fn q queryLength (index + 1) fuel'
      else []
  end.

(** One round of the merging loop. The span pushed on [merged] is the
    object of [positions]; the loop later writes its [end], and
    [positions] is not read again after the loop reached it. *)
Definition mergeStep (merged : list Span.t) (pos : Span.t) : list Span.t :=
  match last merged with
  | None => merged ++ [pos]
  | Some top =>
      if Span.start pos >? Span.stop top then merged ++ [pos]
      else <[(List.length merged - 1)%nat :=
               Span.mk (Span.start top) (Z.max (Span.stop top) (Span.stop pos))]>
             merged
  end.

Definition mergePositions (positions : list Span.t) : list Span.t :=
  foldl mergeStep [] positions.

(** One round of the loop that builds the result: [(result, lastEnd)]. *)
Definition buildStep (filename : jsstring) (acc : jsstring * Z) (pos : Span.t)
  : jsstring * Z :=
  let '(result, lastEnd) := acc in
  let result := result ++ JS.substring filename lastEnd (Span.start pos) in
  let result :=
    result ++ (bold ++ JS.substring filename (Span.start pos) (Span.stop pos) ++ bold) in
  (result, Span.stop pos).

(** The pieces of the result, before they are joined: plain text and
    text that matched. *)
Inductive segment : Type :=
  | Literal (text : jsstring)
  | Matched (text : jsstring).

Definition segmentText (g : segment) : jsstring :=
  match g with Literal t => t | Matched t => t end.

(** What a piece contributes to the result string. *)
Definition render (g : segment) : jsstring :=
  match g with
  | Literal t => t
  | Matched t => bold ++ t ++ bold
  end.

Definition isMatched (g : segment) : bool :=
  match g with Literal _ => false | Matched _ => true end.

(** The pieces the building loop appends, round by round. *)
Definition segmentStep (filename : jsstring) (acc : list segment * Z) (pos : Span.t)
  : list segment * Z :=
  let '(segments, lastEnd) := acc in
  (segments ++ [Literal (JS.substring filename lastEnd (Span.start pos));
                Matched (JS.substring filename (Span.start pos) (Span.stop pos))],
   Span.stop pos).

Section Highlighter.

Variable toLowerCase : jsstring -> jsstring.

(** The occurrences [positions] that [_boldMatchingText] finds; with
    an empty query it returns before it looks for any. *)
Definition rawSpans (filename query : jsstring) (caseSensitive : bool)
  : list Span.t :=
  match query with
  | [] => []
  | _ :: _ =>
      let fn := normalize toLowerCase caseSensitive filename in
      let q := normalize toLowerCase caseSensitive query in
      findPositions fn q (JS.length query) 0 (List.length fn)
  end.

(** The spans [merged] that it marks. *)
Definition mergedSpans (filename query : jsstring) (caseSensitive : bool)
  : list Span.t :=
  mergePositions (rawSpans filename query caseSensitive).

(** [_boldMatchingText(filename, query, caseSensitive)] *)
Definition _boldMatchingText (filename query : jsstring) (caseSensitive : bool)
  : jsstring :=
  match query with
  | [] => filename
  | _ :: _ =>
      let fn := normalize toLowerCase caseSensitive filename in
      let q := normalize toLowerCase caseSensitive query in
      let positions := findPositions fn q (JS.length query) 0 (List.length fn) in
      match positions with
      | [] => filename
      | _ :: _ =>
          let merged := mergePositions positions in
          let '(result, lastEnd) := foldl (buildStep filename) ([], 0) merged in
          result ++ JS.substringFrom filename lastEnd
      end
  end.

(** The same run, keeping the pieces apart (lemma
    [boldMatchingText_segments]: joined, they are the result). *)
Definition highlight (filename query : jsstring) (caseSensitive : bool)
  : list segment :=
  match query with
  | [] => [Literal filename]
  | _ :: _ =>
      let fn := normalize toLowerCase caseSensitive filename in
      let q := normalize toLowerCase caseSensitive query in
      let positions := findPositions fn q (JS.length query) 0 (List.length fn) in
      match positions with
      | [] => [Literal filename]
      | _ :: _ =>
          let merged := mergePositions positions in
          let '(segments, lastEnd) := foldl (segmentStep filename) ([], 0) merged in
          segments ++ [Literal (JS.substringFrom filename lastEnd)]
      end
  end.

End Highlighter.

(** ** The [search] message: filter, decorate, sort *)

(** How a piece of code ends: with a value, or by throwing. *)
Inductive completion (E A : Type) : Type :=
  | Normal (a : A)
  | Throw (e : E).
Arguments Normal {E A} a.
Arguments Throw {E A} e.

(** [array.filter(f)] for a callback that may throw: the first throw
    ends the call. *)
Fixpoint filterC {E A : Type} (f : A -> completion E bool) (l : list A)
  : completion E (list A) :=
  match l with
  | [] => Normal []
  | x :: l' =>
      match f x with
      | Throw e => Throw e
      | Normal b =>
          match filterC f l' with
          | Throw e => Throw e
          | Normal r => Normal (if b then x :: r else r)
          end
      end
  end.

(** Whether the comparator puts its first argument first: a negative
    answer. *)
Definition isNegative (v : JS.number) : bool :=
  match JS.sign v with Some Lt => true | _ => false end.

(** [array.sort(cmp)]: the sort is stable; with a comparator that is
    not a consistent order the host is free, with one that is, the
    result is the one of this insertion sort. *)
Fixpoint insertSorted {A : Type} (cmp : A -> A -> JS.number) (x : A) (l : list A)
  : list A :=
  match l with
  | [] => [x]
  | y :: l' => if isNegative (cmp y x) then y :: insertSorted cmp x l' else x :: l
  end.

Definition sort {A : Type} (cmp : A -> A -> JS.number) (l : list A) : list A :=
  foldr (insertSorted cmp) [] l.

Module Message.
(** The [search] message of the webview. *)
Record t : Type := mk {
  value : jsstring;
  caseSensitive : bool;
  useRegex : bool
}.
End Message.

Section Search.

Variable toLowerCase : jsstring -> jsstring.
Variable localeCompare : jsstring -> jsstring -> Z.

(** The host's regular expressions: [new RegExp(pattern, flags)] throws
    on a pattern that is not one, [regex.test(s)] answers. *)
Variable RegExp : Type.
Variable Error : Type.
Variable newRegExp : jsstring -> jsstring -> completion Error RegExp.
Variable test : RegExp -> jsstring -> bool.

(** The files of the workspace, and [path.basename(file.fsPath)]. *)
Variable File : Type.
Variable basename : File -> jsstring.

(** An entry of the results (its [description], the file's relative
    path, plays no part here). *)
Record SearchResult : Type := mkResult {
  uri : File;
  label : jsstring;
  boldedLabel : jsstring
}.

(** The callback of [allFiles.filter]. *)
Definition accepts (data : Message.t) (file : File) : completion Error bool :=
  let fileName := basename file in
  if Message.useRegex data then
    match newRegExp (Message.value data)
            (if Message.caseSensitive data then js "" else js "i") with
    | Normal regex => Normal (test regex fileName)
    | Throw e => Normal false
    end
  else if Message.caseSensitive data then
    Normal (JS.includes fileName (Message.value data))
  else
    Normal (JS.includes (toLowerCase fileName) (toLowerCase (Message.value data))).

(** The callback of [.map]. *)
Definition decorate (data : Message.t) (file : File) : SearchResult :=
  let fileName := basename file in
  {| uri := file;
     label := fileName;
     boldedLabel :=
       _boldMatchingText toLowerCase fileName (Message.value data)
         (Message.caseSensitive data) |}.

(** The [search] case of the message handler: the results it posts. *)
Definition search (data : Message.t) (allFiles : list File)
  : completion Error (list SearchResult) :=
  match Message.value data with
  | [] => Normal []
  | _ :: _ =>
      match filterC (accepts data) allFiles with
      | Throw e => Throw e
      | Normal files =>
          Normal
            (sort
               (fun a b =>
                  _compareFilesByRelevance toLowerCase localeCompare
                    (label a) (label b) (Message.value data)
                    (Message.caseSensitive data))
               (map (decorate data) files))
      end
  end.

End Search.

Arguments uri {File} _.
Arguments label {File} _.
Arguments boldedLabel {File} _.

(** ** The webview's extension filter *)

(** The white space and line terminators that [trim] strips. *)
Definition isWhiteSpace (c : N) : bool :=
  ((9 <=? c) && (c <=? 13) || (c =? 32) || (c =? 160) || (c =? 5760)
   || (8192 <=? c) && (c <=? 8202) || (c =? 8232) || (c =? 8233)
   || (c =? 8239) || (c =? 8287) || (c =? 12288) || (c =? 65279))%N.

Fixpoint trimStart (s : jsstring) : jsstring :=
  match s with
  | [] => []
  | c :: s' => if isWhiteSpace c then trimStart s' else s
  end.

(** [s.trim()] *)
Definition trim (s : jsstring) : jsstring :=
  rev (trimStart (rev (trimStart s))).

(** The code unit of the comma. *)
Definition comma : N := 44%N.

(** [s.split(',')] *)
Fixpoint split (s : jsstring) : list jsstring :=
  match s with
  | [] => [[]]
  | c :: s' =>
      if (c =? comma)%N then [] :: split s'
      else match split s' with
           | piece :: pieces => (c :: piece) :: pieces
           | [] => [[c]]
           end
  end.

(** A string is truthy when it is not empty. *)
Definition truthy (s : jsstring) : bool :=
  match s with [] => false | _ :: _ => true end.

Section ApplyFilter.

Variable toLowerCase : jsstring -> jsstring.
Variable Result : Type.
Variable label : Result -> jsstring.

(** The suffixes of the filter text:
    [filterValue.split(',').map(s => s.trim().toLowerCase()).filter(s => s)] *)
Definition parseSuffixes (filterValue : jsstring) : list jsstring :=
  List.filter truthy (map (fun s => toLowerCase (trim s)) (split filterValue)).

(** [suffix.startsWith('.') ? suffix : '.' + suffix] *)
Definition normalizeSuffix (suffix : jsstring) : jsstring :=
  if JS.startsWith suffix dot then suffix else dot ++ suffix.

(** The callback of [allResults.filter]. *)
Definition hasSuffix (suffixes : list jsstring) (file : Result) : bool :=
  let fileName := toLowerCase (label file) in
  existsb (fun suffix => JS.endsWith fileName (normalizeSuffix suffix)) suffixes.

(** [applyFilter()]: from the text of the filter input and
    [allResults], the [results] it displays. *)
Definition applyFilter (filterInput : jsstring) (allResults : list Result)
  : list Result :=
  let filterValue := trim filterInput in
  match filterValue with
  | [] => allResults
  | _ :: _ =>
      let suffixes := parseSuffixes filterValue in
      match suffixes with
      | [] => allResults
      | _ :: _ => List.filter (hasSuffix suffixes) allResults
      end
  end.

End ApplyFilter.


(** ** The Levenshtein distance *)

(** One edit of a string: a code unit inserted, deleted, or replaced
    by another. *)
Inductive edit1 : jsstring -> jsstring -> Prop :=
  | edit_insert l c r : edit1 (l ++ r) (l ++ c :: r)
  | edit_delete l c r : edit1 (l ++ c :: r) (l ++ r)
  | edit_substitute l c d r : edit1 (l ++ c :: r) (l ++ d :: r).

(** [edits n s t]: [n] edits, one after the other, turn [s] into [t]. *)
Inductive edits : nat -> jsstring -> jsstring -> Prop :=
  | edits_done s : edits 0 s s
  | edits_step n s t u : edit1 s t -> edits n t u -> edits (S n) s u.

(** [d] is the Levenshtein distance of [s] and [t]: [d] edits turn [s]
    into [t], and no fewer do. *)
Definition LevenshteinDistance (s t : jsstring) (d : Z) : Prop :=
  exists n : nat,
    d = Z.of_nat n /\ edits n s t /\ forall n', edits n' s t -> (n <= n')%nat.

(** The distance by recursion on the two strings. *)
Fixpoint lev (s t : jsstring) : nat :=
  match s with
  | [] => List.length t
  | a :: s' =>
      (fix lev_s (t : jsstring) : nat :=
         match t with
         | [] => List.length s
         | b :: t' =>
             if decide (a = b) then lev s' t'
             else S (Nat.min (lev s' t) (Nat.min (lev_s t') (lev s' t')))
         end) t
  end.

(** An alignment of [s] with [t] and what it costs: code units kept,
    replaced, deleted from [s], inserted from [t]. *)
Inductive align : jsstring -> jsstring -> nat -> Prop :=
  | align_nil : align [] [] 0
  | align_keep c s t n : align s t n -> align (c :: s) (c :: t) n
  | align_subst a b s t n : align s t n -> align (a :: s) (b :: t) (S n)
  | align_delete a s t n : align s t n -> align (a :: s) t (S n)
  | align_insert b s t n : align s t n -> align s (b :: t) (S n).

(** The table of [_editDistance] has [m + 1] rows of [n + 1] cells. *)
Definition shape (m n : nat) (dp : list (list Z)) : Prop :=
  List.length dp = S m /\ Forall (fun row => List.length row = S n) dp.

(** What the cell [(i, j)] has to hold: the distance of the first [i]
    code units of [s1] to the first [j] of [s2]. *)
Definition target (s1 s2 : jsstring) (i j : nat) : Z :=
  Z.of_nat (lev (take i s1) (take j s2)).

(** The cells of [R] hold what they have to. *)
Definition filled (s1 s2 : jsstring) (R : nat -> nat -> Prop) (dp : list (list Z))
  : Prop :=
  shape (List.length s1) (List.length s2) dp /\
  forall i j, (i <= List.length s1)%nat -> (j <= List.length s2)%nat -> R i j ->
    getCell dp i j = target s1 s2 i j.

(** ** Occurrences of one string in another *)

(** [q] occurs in [s] at index [k]. *)
Definition occursAt (s q : jsstring) (k : Z) : Prop :=
  exists l r, s = l ++ q ++ r /\ JS.length l = k.

(** [q] is a substring of [s]. *)
Definition contains (s q : jsstring) : Prop :=
  exists k, occursAt s q k.

(** [k] is the index of the first occurrence of [q] in [s]. *)
Definition firstOccurrence (s q : jsstring) (k : Z) : Prop :=
  occursAt s q k /\ forall j, j < k -> ~ occursAt s q j.

(** ** The rule of the tiers and the order of the ranks *)

(** The tier and the match position of a name, rule by rule, the first
    rule that applies deciding: [fn] and [q] are the normalized name
    and query, [basename] and [queryBasename] their basenames. *)
Inductive tierRule (fn q basename queryBasename : jsstring)
  : Z -> JS.number -> Prop :=
  | tier_exact :
      fn = q ->
      tierRule fn q basename queryBasename 0 (JS.Num 0)
  | tier_basename :
      fn <> q ->
      basename = queryBasename \/ basename = q ->
      tierRule fn q basename queryBasename 1 (JS.Num 0)
  | tier_prefix :
      fn <> q ->
      ~ (basename = queryBasename \/ basename = q) ->
      q `prefix_of` basename ->
      tierRule fn q basename queryBasename 2 (JS.Num 0)
  | tier_in_basename k :
      fn <> q ->
      ~ (basename = queryBasename \/ basename = q) ->
      ~ q `prefix_of` basename ->
      firstOccurrence basename q k ->
      tierRule fn q basename queryBasename 3 (JS.Num k)
  | tier_in_name k :
      fn <> q ->
      ~ (basename = queryBasename \/ basename = q) ->
      ~ q `prefix_of` basename ->
      ~ contains basename q ->
      firstOccurrence fn q k ->
      tierRule fn q basename queryBasename 4 (JS.Num k)
  | tier_none p :
      fn <> q ->
      ~ (basename = queryBasename \/ basename = q) ->
      ~ q `prefix_of` basename ->
      ~ contains basename q ->
      ~ contains fn q ->
      tierRule fn q basename queryBasename 5 p.

(** A match position is an index or absent ([Infinity]); an absent one
    comes after every index. *)
Definition positionBefore (a b : JS.number) : Prop :=
  match a, b with
  | JS.Num x, JS.Num y => x < y
  | JS.Num _, JS.Infinity => True
  | _, _ => False
  end.

(** The order of the sort key (tier, edit distance, length of the name,
    match position, alphabetical order), key after key: a later key
    counts only when all the earlier ones are equal. *)
Definition sortsBefore (rankA rankB : Rank.t) (alphabetical : Z) : Prop :=
  Rank.tier rankA < Rank.tier rankB \/
  (Rank.tier rankA = Rank.tier rankB /\
   (Rank.editDist rankA < Rank.editDist rankB \/
    (Rank.editDist rankA = Rank.editDist rankB /\
     (Rank.length rankA < Rank.length rankB \/
      (Rank.length rankA = Rank.length rankB /\
       (positionBefore (Rank.position rankA) (Rank.position rankB) \/
        (Rank.position rankA = Rank.position rankB /\ alphabetical < 0))))))).

(** The positions [_calculateRank] gives: an index, or [Infinity]. *)
Definition isPosition (p : JS.number) : Prop :=
  match p with
  | JS.Num k => 0 <= k
  | JS.Infinity => True
  | _ => False
  end.

(** ** Spans *)

(** [a] ends before [b] starts, with text between them. *)
Definition before (a b : Span.t) : Prop := Span.stop a < Span.start b.

(** [r] lies within [m]. *)
Definition within (r m : Span.t) : Prop :=
  Span.start m <= Span.start r /\ Span.stop r <= Span.stop m.

(** The index [p] lies in [r]. *)
Definition covers (r : Span.t) (p : Z) : Prop :=
  Span.start r <= p < Span.stop r.

(** What the merging loop keeps, [processed] being the occurrences it
    has seen: the merged spans are apart and in order, every occurrence
    seen lies within one of them, and each of them starts with an
    occurrence and is covered by the occurrences within it. *)
Record merges (processed merged : list Span.t) : Prop := {
  merges_apart : StronglySorted before merged;
  merges_proper : Forall (fun m => Span.start m <= Span.stop m) merged;
  merges_all : forall r, r ∈ processed -> exists m, m ∈ merged /\ within r m;
  merges_start : forall m, m ∈ merged ->
    exists r, r ∈ processed /\ Span.start r = Span.start m;
  merges_covered : forall m p, m ∈ merged -> covers m p ->
    exists r, r ∈ processed /\ within r m /\ covers r p
}.

(** ** A host of regular expressions, for the examples *)

(** Whether the parentheses of a pattern balance, [depth] of them
    being open. *)
Fixpoint balanced (depth : nat) (pattern : jsstring) : bool :=
  match pattern with
  | [] => Nat.eqb depth 0
  | c :: pattern' =>
      if (c =? 40)%N then balanced (S depth) pattern'
      else if (c =? 41)%N then
        match depth with
        | O => false
        | S depth' => balanced depth' pattern'
        end
      else balanced depth pattern'
  end.

(** A host that refuses a pattern whose parentheses do not balance, as
    [new RegExp("(")] is refused, and searches any other pattern as
    plain text. *)
Definition plainRegExp (pattern flags : jsstring) : completion unit jsstring :=
  if balanced 0 pattern then Normal pattern else Throw tt.

Definition plainTest (regex s : jsstring) : bool := JS.includes s regex.

(** ** Comma-separated text *)

(** The pieces, with a comma between each two. *)
Fixpoint joinCommas (pieces : list jsstring) : jsstring :=
  match pieces with
  | [] => []
  | [piece] => piece
  | piece :: pieces' => piece ++ comma :: joinCommas pieces'
  end.

(** Every index of [text] lies in an occurrence of [q] in [text]. *)
Definition madeOfOccurrences (text q : jsstring) : Prop :=
  forall p, 0 <= p < JS.length text ->
    exists k, occursAt text q k /\ k <= p < k + JS.length q.

(** Lowercasing of one code unit that stays one code unit: all but
    U+0130. *)
Definition lowerLatin (c : N) : N :=
  match lowerUnit c with
  | [d] => d
  | _ => c
  end.

(** The pieces of the result for the spans [merged], from the offset
    [lastEnd] of the name on: what the building loop and the last
    [substring] put together ([highlight_pieces]). *)
Fixpoint piecesFrom (filename : jsstring) (lastEnd : Z) (merged : list Span.t)
  : list segment :=
  match merged with
  | [] => [Literal (JS.substringFrom filename lastEnd)]
  | m :: merged' =>
      Literal (JS.substring filename lastEnd (Span.start m))
        :: Matched (JS.substring filename (Span.start m) (Span.stop m))
        :: piecesFrom filename (Span.stop m) merged'
  end.

(** ** The nonce of the webview's script *)

(** The characters a nonce is made of. *)
Definition possible : jsstring :=
  js "ABCDEFGHIJKLMNOPQRSTUVWXYZabcdefghijklmnopqrstuvwxyz0123456789".

(** [s.charAt(i)]: the empty string outside of [s]. *)
Definition charAt (s : jsstring) (i : Z) : jsstring :=
  if i <? 0 then []
  else match s !! Z.to_nat i with
       | Some c => [c]
       | None => []
       end.

(** [getNonce()]. [draw i] is what
    [Math.floor(Math.random() * possible.length)] gives in round [i]:
    [Math.random()] is the host's, a number from 0 up to but not
    including 1, so that the draw is an index from 0 to 61. *)
Definition getNonce (draw : nat -> Z) : jsstring :=
  foldl (fun text i => text ++ charAt possible (draw i)) [] (seq 0 32).

(** ** The webview: its state, and what the events do to it *)

Module Saved.
(** What [saveState] hands to [vscode.setState], and [vscode.getState]
    gives back when the view is loaded again. *)
Record t (R : Type) : Type := mk {
  searchQuery : jsstring;
  filterQuery : jsstring;
  isCaseSensitive : bool;
  useRegex : bool;
  allResults : list R;
  selectedIndex : Z
}.
Arguments mk {R} _ _ _ _ _ _.
Arguments searchQuery {R} _.
Arguments filterQuery {R} _.
Arguments isCaseSensitive {R} _.
Arguments useRegex {R} _.
Arguments allResults {R} _.
Arguments selectedIndex {R} _.
End Saved.

(** The messages the webview posts to the extension. *)
Inductive posted (U : Type) : Type :=
  | PostSearch (value : jsstring) (caseSensitive useRegex : bool)
  | PostOpenFile (uri : U).
Arguments PostSearch {U} _ _ _.
Arguments PostOpenFile {U} _.

Module View.
(** The variables of [main.js], the values of its two inputs
    ([searchInput.value], [filterInput.value]), whether a timer of
    [triggerSearch] is waiting, what [vscode.setState] holds, and the
    messages posted so far, the oldest first. *)
Record t (File : Type) : Type := mk {
  searchInput : jsstring;
  filterInput : jsstring;
  isCaseSensitive : bool;
  useRegex : bool;
  results : list (SearchResult File);
  allResults : list (SearchResult File);
  selectedIndex : Z;
  searchTimeout : bool;
  state : option (Saved.t (SearchResult File));
  messages : list (posted File)
}.
Arguments mk {File} _ _ _ _ _ _ _ _ _ _.
Arguments searchInput {File} _.
Arguments filterInput {File} _.
Arguments isCaseSensitive {File} _.
Arguments useRegex {File} _.
Arguments results {File} _.
Arguments allResults {File} _.
Arguments selectedIndex {File} _.
Arguments searchTimeout {File} _.
Arguments state {File} _.
Arguments messages {File} _.
End View.

(** The keys the [keydown] listener tells apart. *)
Inductive key : Type := ArrowDown | ArrowUp | Enter | OtherKey.

(** What can happen to the webview. [SearchInput] and [FilterInput]
    carry the new text of the input; [ClickItem] the index of the
    result clicked; [TimerFires] is the timer of [triggerSearch]
    running out; [ResultsMessage] carries [message.results] ([None]
    when there is none). *)
Inductive event (File : Type) : Type :=
  | SearchInput (text : jsstring)
  | FilterInput (text : jsstring)
  | KeyDown (k : key)
  | ClickCase
  | ClickRegex
  | ClickItem (index : nat)
  | TimerFires
  | ResultsMessage (results : option (list (SearchResult File)))
  | FocusMessage.
Arguments SearchInput {File} _.
Arguments FilterInput {File} _.
Arguments KeyDown {File} _.
Arguments ClickCase {File}.
Arguments ClickRegex {File}.
Arguments ClickItem {File} _.
Arguments TimerFires {File}.
Arguments ResultsMessage {File} _.
Arguments FocusMessage {File}.

(** What reading a property of [undefined] throws. *)
Inductive jsError : Type := TypeError.

(** [x || d] on numbers: [d] stands in for 0. *)
Definition numberOr (x d : Z) : Z := if x =? 0 then d else x.

Section Webview.

Variable toLowerCase : jsstring -> jsstring.
Variable File : Type.

(** The state that [saveState] would save. *)
Definition snapshot (v : View.t File) : Saved.t (SearchResult File) :=
  Saved.mk (View.searchInput v) (View.filterInput v) (View.isCaseSensitive v)
    (View.useRegex v) (View.allResults v) (View.selectedIndex v).

(** [saveState()] *)
Definition saveState (v : View.t File) : View.t File :=
  View.mk (View.searchInput v) (View.filterInput v) (View.isCaseSensitive v)
    (View.useRegex v) (View.results v) (View.allResults v) (View.selectedIndex v)
    (View.searchTimeout v) (Some (snapshot v)) (View.messages v).

(** [displayResults(resultsList)]: what it does to the variables (the
    elements it builds hold the results in their order, one for each). *)
Definition displayResults (resultsList : list (SearchResult File)) (v : View.t File)
  : View.t File :=
  match resultsList with
  | [] =>
      saveState
        (View.mk (View.searchInput v) (View.filterInput v) (View.isCaseSensitive v)
           (View.useRegex v) [] (View.allResults v) (-1)
           (View.searchTimeout v) (View.state v) (View.messages v))
  | _ :: _ =>
      saveState
        (View.mk (View.searchInput v) (View.filterInput v) (View.isCaseSensitive v)
           (View.useRegex v) resultsList (View.allResults v) (View.selectedIndex v)
           (View.searchTimeout v) (View.state v) (View.messages v))
  end.

(** [applyFilter()], on the state. *)
Definition applyFilterView (v : View.t File) : View.t File :=
  displayResults
    (applyFilter toLowerCase (SearchResult File) label
       (View.filterInput v) (View.allResults v))
    v.

(** [triggerSearch()]: the timer that was waiting is cleared and a
    new one set. *)
Definition triggerSearch (v : View.t File) : View.t File :=
  View.mk (View.searchInput v) (View.filterInput v) (View.isCaseSensitive v)
    (View.useRegex v) (View.results v) (View.allResults v) (View.selectedIndex v)
    true (View.state v) (View.messages v).

(** [selectedIndex = i; updateSelectedResult()] *)
Definition select (i : Z) (v : View.t File) : View.t File :=
  saveState
    (View.mk (View.searchInput v) (View.filterInput v) (View.isCaseSensitive v)
       (View.useRegex v) (View.results v) (View.allResults v) i
       (View.searchTimeout v) (View.state v) (View.messages v)).

(** [openFile(uri)] *)
Definition openFile (uri : File) (v : View.t File) : View.t File :=
  View.mk (View.searchInput v) (View.filterInput v) (View.isCaseSensitive v)
    (View.useRegex v) (View.results v) (View.allResults v) (View.selectedIndex v)
    (View.searchTimeout v) (View.state v) (View.messages v ++ [PostOpenFile uri]).

(** The [keydown] listener of the search input. *)
Definition keydown (k : key) (v : View.t File) : completion jsError (View.t File) :=
  match View.results v with
  | [] => Normal v
  | _ :: _ =>
      match k with
      | ArrowDown =>
          if View.selectedIndex v <? Z.of_nat (List.length (View.results v)) - 1
          then Normal (select (View.selectedIndex v + 1) v)
          else Normal v
      | ArrowUp =>
          if View.selectedIndex v >? 0
          then Normal (select (View.selectedIndex v - 1) v)
          else Normal v
      | Enter =>
          if View.selectedIndex v >=? 0 then
            match View.results v !! Z.to_nat (View.selectedIndex v) with
            | Some file => Normal (openFile (uri file) v)
            | None => Throw TypeError
            end
          else Normal v
      | OtherKey => Normal v
      end
  end.

(** The timer of [triggerSearch] runs out. *)
Definition timerFires (v : View.t File) : View.t File :=
  if View.searchTimeout v then
    saveState
      (View.mk (View.searchInput v) (View.filterInput v) (View.isCaseSensitive v)
         (View.useRegex v) (View.results v) (View.allResults v) (View.selectedIndex v)
         false (View.state v)
         (View.messages v
          ++ [PostSearch (View.searchInput v) (View.isCaseSensitive v) (View.useRegex v)]))
  else v.

(** The [click] listener of the result at [index]. *)
Definition clickItem (index : nat) (v : View.t File) : View.t File :=
  match View.results v !! index with
  | Some file =>
      openFile (uri file)
        (View.mk (View.searchInput v) (View.filterInput v) (View.isCaseSensitive v)
           (View.useRegex v) (View.results v) (View.allResults v) (Z.of_nat index)
           (View.searchTimeout v) (View.state v) (View.messages v))
  | None => v
  end.

(** The listener of the messages of the extension, case ['results']. *)
Definition onResults (received : option (list (SearchResult File))) (v : View.t File)
  : View.t File :=
  applyFilterView
    (View.mk (View.searchInput v) (View.filterInput v) (View.isCaseSensitive v)
       (View.useRegex v) (View.results v)
       (match received with Some l => l | None => [] end) (-1)
       (View.searchTimeout v) (View.state v) (View.messages v)).

(** One event. *)
Definition step (e : event File) (v : View.t File) : completion jsError (View.t File) :=
  match e with
  | SearchInput text =>
      Normal
        (triggerSearch
           (View.mk text (View.filterInput v) (View.isCaseSensitive v)
              (View.useRegex v) (View.results v) (View.allResults v)
              (View.selectedIndex v) (View.searchTimeout v) (View.state v)
              (View.messages v)))
  | FilterInput text =>
      Normal
        (applyFilterView
           (View.mk (View.searchInput v) text (View.isCaseSensitive v)
              (View.useRegex v) (View.results v) (View.allResults v)
              (View.selectedIndex v) (View.searchTimeout v) (View.state v)
              (View.messages v)))
  | KeyDown k => keydown k v
  | ClickCase =>
      Normal
        (triggerSearch
           (View.mk (View.searchInput v) (View.filterInput v)
              (negb (View.isCaseSensitive v)) (View.useRegex v) (View.results v)
              (View.allResults v) (View.selectedIndex v) (View.searchTimeout v)
              (View.state v) (View.messages v)))
  | ClickRegex =>
      Normal
        (triggerSearch
           (View.mk (View.searchInput v) (View.filterInput v)
              (View.isCaseSensitive v) (negb (View.useRegex v)) (View.results v)
              (View.allResults v) (View.selectedIndex v) (View.searchTimeout v)
              (View.state v) (View.messages v)))
  | ClickItem index => Normal (clickItem index v)
  | TimerFires => Normal (timerFires v)
  | ResultsMessage received => Normal (onResults received v)
  | FocusMessage => Normal v
  end.

(** The events one after the other, as long as none throws. *)
Fixpoint run (events : list (event File)) (v : View.t File)
  : completion jsError (View.t File) :=
  match events with
  | [] => Normal v
  | e :: events' =>
      match step e v with
      | Normal v' => run events' v'
      | Throw err => Throw err
      end
  end.

(** The script as it starts: its variables as declared, then the
    state of before, when [vscode.getState()] has one. *)
Definition init (previousState : option (Saved.t (SearchResult File)))
  : View.t File :=
  match previousState with
  | None => View.mk [] [] false false [] [] (-1) false None []
  | Some p =>
      let v :=
        View.mk (Saved.searchQuery p) (Saved.filterQuery p)
          (Saved.isCaseSensitive p) (Saved.useRegex p) []
          (Saved.allResults p) (numberOr (Saved.selectedIndex p) (-1))
          false previousState [] in
      match Saved.allResults p with
      | [] => v
      | _ :: _ => applyFilterView v
      end
  end.

End Webview.

(** What holds of the state of the webview all along: the results
    shown are the filtered results, and the selection is a result or
    none ([-1]), never below. *)
Definition consistentView (toLowerCase : jsstring -> jsstring) (File : Type)
  (v : View.t File) : Prop :=
  View.results v
  = applyFilter toLowerCase (SearchResult File) label
      (View.filterInput v) (View.allResults v) /\
  -1 <= View.selectedIndex v.

(** The events that call [triggerSearch]: typing in the search input
    and the two toggles. *)
Definition searchEvent {File : Type} (e : event File) : bool :=
  match e with
  | SearchInput _ | ClickCase | ClickRegex => true
  | _ => false
  end.

(** The text of the search input after the events, [text] before. *)
Definition typed {File : Type} (events : list (event File)) (text : jsstring)
  : jsstring :=
  foldl (fun text e => match e with SearchInput text' => text' | _ => text end)
    text events.

(** A toggle after the events, [b] before; [click] tells its clicks. *)
Definition toggled {File : Type} (click : event File -> bool)
  (events : list (event File)) (b : bool) : bool :=
  foldl (fun b e => if click e then negb b else b) b events.

Definition isClickCase {File : Type} (e : event File) : bool :=
  match e with ClickCase => true | _ => false end.

Definition isClickRegex {File : Type} (e : event File) : bool :=
  match e with ClickRegex => true | _ => false end.

(* ================================================================= *)
(** * Properties *)

(** ** The definitions at work *)

Example indexOf_ex1 : JS.indexOf (js "file.txt") (js "le") 0 = 2.
Proof. reflexivity. Qed.
Example indexOf_ex2 : JS.indexOf (js "aaa") (js "aa") 1 = 1.
Proof. reflexivity. Qed.
Example indexOf_ex3 : JS.indexOf (js "aaa") (js "") 7 = 3.
Proof. reflexivity. Qed.
Example lastIndexOf_ex : JS.lastIndexOf (js "a.b.c") (js ".") = 3.
Proof. reflexivity. Qed.
Example substring_ex : JS.substring (js "file.txt") 6 2 = js "le.t".
Proof. reflexivity. Qed.
Example endsWith_ex : JS.endsWith (js "main.ts") (js ".ts") = true.
Proof. reflexivity. Qed.
Example editDistance_ex1 : _editDistance (js "kitten") (js "sitting") = 3.
Proof. reflexivity. Qed.
Example editDistance_ex2 : _editDistance (js "file") (js "file.txt") = 4.
Proof. reflexivity. Qed.
Example getBasename_ex1 : _getBasename (js "file.txt") = js "file".
Proof. reflexivity. Qed.
Example getBasename_ex2 : _getBasename (js ".gitignore") = js ".gitignore".
Proof. reflexivity. Qed.
Example getBasename_ex3 : _getBasename (js "a.tar.gz") = js "a.tar".
Proof. reflexivity. Qed.
Example calculateRank_ex1 :
  _calculateRank toLowerCaseLatin (js "file.txt") (js "File") false
  = Rank.mk 1 0 8 (JS.Num 0).
Proof. reflexivity. Qed.
Example calculateRank_ex2 :
  _calculateRank toLowerCaseLatin (js "myfile.txt") (js "le.t") true
  = Rank.mk 4 6 10 (JS.Num 4).
Proof. reflexivity. Qed.
Example boldMatchingText_ex1 :
  _boldMatchingText toLowerCaseLatin (js "MyFile.txt") (js "file") false
  = js "My**File**.txt".
Proof. reflexivity. Qed.
Example boldMatchingText_ex2 :
  _boldMatchingText toLowerCaseLatin (js "aaa") (js "aa") false = js "**aaa**".
Proof. reflexivity. Qed.
Example boldMatchingText_ex3 :
  _boldMatchingText toLowerCaseLatin (js "abcab") (js "ab") true = js "**ab**c**ab**".
Proof. reflexivity. Qed.
Example highlight_ex :
  highlight toLowerCaseLatin (js "abcab") (js "ab") true
  = [Literal []; Matched (js "ab"); Literal (js "c"); Matched (js "ab"); Literal []].
Proof. reflexivity. Qed.
Example trim_ex : trim (js "  .ts , js ") = js ".ts , js".
Proof. reflexivity. Qed.
Example split_ex : split (js ".ts,,js") = [js ".ts"; js ""; js "js"].
Proof. reflexivity. Qed.
Example applyFilter_ex :
  applyFilter toLowerCaseLatin jsstring (fun s => s) (js " TS, .md ,")
    [js "a.ts"; js "b.js"; js "README.MD"; js "ts"]
  = [js "a.ts"; js "README.MD"].
Proof. reflexivity. Qed.
Example sort_ex :
  sort (fun a b => _compareFilesByRelevance toLowerCaseLatin compareCodeUnits a b (js "file") false)
    [js "myfile.c"; js "file.txt"; js "files.c"; js "file"; js "file.c"]
  = [js "file"; js "file.c"; js "file.txt"; js "files.c"; js "myfile.c"].
Proof. reflexivity. Qed.

(** ** The Levenshtein distance: recursion, alignments, edits *)

Lemma lev_nil_r s : lev s [] = length s.
Proof. by destruct s. Qed.

Lemma lev_cons_cons a b s t :
  lev (a :: s) (b :: t) =
    if decide (a = b) then lev s t
    else S (Nat.min (lev s (b :: t)) (Nat.min (lev (a :: s) t) (lev s t))).
Proof. reflexivity. Qed.

Lemma lev_lipschitz k : forall s t, (length s + length t <= k)%nat ->
  (forall a, lev (a :: s) t <= S (lev s t))%nat /\
  (forall b, lev s (b :: t) <= S (lev s t))%nat /\
  (forall a, lev s t <= S (lev (a :: s) t))%nat /\
  (forall b, lev s t <= S (lev s (b :: t)))%nat.
Proof.
  induction k as [k IH] using lt_wf_ind. intros s t Hk.
  assert (IHs : forall s' t', (length s' + length t' < length s + length t)%nat ->
     (forall a, lev (a :: s') t' <= S (lev s' t'))%nat /\
     (forall b, lev s' (b :: t') <= S (lev s' t'))%nat /\
     (forall a, lev s' t' <= S (lev (a :: s') t'))%nat /\
     (forall b, lev s' t' <= S (lev s' (b :: t')))%nat).
  { intros s' t' Hlt. apply (IH (length s' + length t')%nat); lia. }
  clear IH Hk.
  assert (U1 : forall a, (lev (a :: s) t <= S (lev s t))%nat).
  { intros a. destruct t as [|b t'].
    - rewrite !lev_nil_r. simpl. lia.
    - rewrite lev_cons_cons. case_decide.
      + destruct (IHs s t') as (_ & _ & _ & L2); [simpl; lia|]. apply L2.
      + lia. }
  assert (U2 : forall b, (lev s (b :: t) <= S (lev s t))%nat).
  { intros b. destruct s as [|a s'].
    - simpl. lia.
    - rewrite lev_cons_cons. case_decide.
      + destruct (IHs s' t) as (_ & _ & L1 & _); [simpl; lia|]. apply L1.
      + lia. }
  split; [exact U1|]. split; [exact U2|]. split.
  - intros a. destruct t as [|b t'].
    + rewrite !lev_nil_r. simpl. lia.
    + rewrite (lev_cons_cons a b). 
      destruct (IHs s t') as (_ & U2' & L1' & _); [simpl; lia|].
      specialize (U2' b). specialize (L1' a).
      case_decide; lia.
  - intros b. destruct s as [|a s'].
    + simpl. lia.
    + rewrite (lev_cons_cons a b).
      destruct (IHs s' t) as (U1' & _ & _ & L2'); [simpl; lia|].
      specialize (U1' a). specialize (L2' b).
      case_decide; lia.
Qed.

Lemma lev_delete_le a s t : (lev (a :: s) t <= S (lev s t))%nat.
Proof. by apply (lev_lipschitz _ s t (Nat.le_refl _)). Qed.

Lemma lev_insert_le b s t : (lev s (b :: t) <= S (lev s t))%nat.
Proof. by apply (lev_lipschitz _ s t (Nat.le_refl _)). Qed.

Lemma lev_le_align s t n : align s t n -> (lev s t <= n)%nat.
Proof.
  induction 1 as [|c s t n _ IH|a b s t n _ IH|a s t n _ IH|b s t n _ IH].
  - simpl. lia.
  - rewrite lev_cons_cons. by rewrite decide_True.
  - rewrite lev_cons_cons. case_decide; lia.
  - pose proof (lev_delete_le a s t). lia.
  - pose proof (lev_insert_le b s t). lia.
Qed.

Lemma align_nil_l t : align [] t (length t).
Proof. induction t; simpl; by constructor. Qed.

Lemma align_nil_r s : align s [] (length s).
Proof. induction s; simpl; by constructor. Qed.

Lemma align_lev s : forall t, align s t (lev s t).
Proof.
  induction s as [|a s IHs]; intros t.
  - apply align_nil_l.
  - induction t as [|b t IHt].
    + rewrite lev_nil_r. apply align_nil_r.
    + rewrite lev_cons_cons. case_decide as Hab.
      * subst b. apply align_keep, IHs.
      * destruct (Nat.min_spec (lev s (b :: t)) (Nat.min (lev (a :: s) t) (lev s t)))
          as [[_ ->]|[_ ->]].
        { apply align_delete, IHs. }
        destruct (Nat.min_spec (lev (a :: s) t) (lev s t)) as [[_ ->]|[_ ->]].
        { apply align_insert, IHt. }
        apply align_subst, IHs.
Qed.

(** Alignments and chains of single edits. *)
Lemma edit1_cons c s t : edit1 s t -> edit1 (c :: s) (c :: t).
Proof.
  destruct 1 as [l x r|l x r|l x y r].
  - apply (edit_insert (c :: l)).
  - apply (edit_delete (c :: l)).
  - apply (edit_substitute (c :: l)).
Qed.

Lemma edits_cons c n s t : edits n s t -> edits n (c :: s) (c :: t).
Proof.
  induction 1 as [|n s t u H1 _ IH]; [constructor|].
  eapply edits_step; [by apply edit1_cons|done].
Qed.

Lemma edits_of_align s t n : align s t n -> edits n s t.
Proof.
  induction 1 as [|c s t n _ IH|a b s t n _ IH|a s t n _ IH|b s t n _ IH].
  - constructor.
  - by apply edits_cons.
  - eapply edits_step; [apply (edit_substitute [] a b s)|]. by apply edits_cons.
  - eapply edits_step; [apply (edit_delete [] a s)|]. done.
  - eapply edits_step; [apply (edit_insert [] b s)|]. by apply edits_cons.
Qed.

Lemma align_refl s : align s s 0.
Proof. induction s; by constructor. Qed.

(** An alignment weakened in its cost is still a bound; keep the cost exact
    and bound it instead. *)
Lemma align_insert_inside s t n : align s t n ->
  forall l c r, t = l ++ r -> exists n', (n' <= S n)%nat /\ align s (l ++ c :: r) n'.
Proof.
  induction 1 as [|x s t n H IH|a b s t n H IH|a s t n H IH|b s t n H IH]; intros l c r E.
  - destruct l; [|done]. simpl in E. subst r. exists 1%nat. split; [lia|].
    simpl. apply align_insert, align_nil.
  - destruct l as [|y l].
    + simpl in *. subst r. exists (S n). split; [lia|]. by apply align_insert, align_keep.
    + simpl in E. injection E as -> ->. destruct (IH l c r eq_refl) as (n' & Hn & Ha).
      exists n'. split; [lia|]. simpl. by apply align_keep.
  - destruct l as [|y l].
    + simpl in *. subst r. exists (S (S n)). split; [lia|]. by apply align_insert, align_subst.
    + simpl in E. injection E as -> ->. destruct (IH l c r eq_refl) as (n' & Hn & Ha).
      exists (S n'). split; [lia|]. simpl. by apply align_subst.
  - destruct (IH l c r E) as (n' & Hn & Ha).
    exists (S n'). split; [lia|]. by apply align_delete.
  - destruct l as [|y l].
    + simpl in *. subst r. exists (S (S n)). split; [lia|]. by apply align_insert, align_insert.
    + simpl in E. injection E as -> ->. destruct (IH l c r eq_refl) as (n' & Hn & Ha).
      exists (S n'). split; [lia|]. simpl. by apply align_insert.
Qed.

Lemma align_delete_inside s t n : align s t n ->
  forall l c r, t = l ++ c :: r -> exists n', (n' <= S n)%nat /\ align s (l ++ r) n'.
Proof.
  induction 1 as [|x s t n H IH|a b s t n H IH|a s t n H IH|b s t n H IH]; intros l c r E.
  - by destruct l.
  - destruct l as [|y l].
    + simpl in *. injection E as -> ->. exists (S n). split; [lia|]. by apply align_delete.
    + simpl in E. injection E as -> ->. destruct (IH l c r eq_refl) as (n' & Hn & Ha).
      exists n'. split; [lia|]. simpl. by apply align_keep.
  - destruct l as [|y l].
    + simpl in *. injection E as -> ->. exists (S n). split; [lia|]. by apply align_delete.
    + simpl in E. injection E as -> ->. destruct (IH l c r eq_refl) as (n' & Hn & Ha).
      exists (S n'). split; [lia|]. simpl. by apply align_subst.
  - destruct (IH l c r E) as (n' & Hn & Ha).
    exists (S n'). split; [lia|]. by apply align_delete.
  - destruct l as [|y l].
    + simpl in *. injection E as -> ->. exists n. split; [lia|]. done.
    + simpl in E. injection E as -> ->. destruct (IH l c r eq_refl) as (n' & Hn & Ha).
      exists (S n'). split; [lia|]. simpl. by apply align_insert.
Qed.

Lemma align_substitute_inside s t n : align s t n ->
  forall l c d r, t = l ++ c :: r -> exists n', (n' <= S n)%nat /\ align s (l ++ d :: r) n'.
Proof.
  induction 1 as [|x s t n H IH|a b s t n H IH|a s t n H IH|b s t n H IH]; intros l c d r E.
  - by destruct l.
  - destruct l as [|y l].
    + simpl in *. injection E as -> ->. exists (S n). split; [lia|]. by apply align_subst.
    + simpl in E. injection E as -> ->. destruct (IH l c d r eq_refl) as (n' & Hn & Ha).
      exists n'. split; [lia|]. simpl. by apply align_keep.
  - destruct l as [|y l].
    + simpl in *. injection E as -> ->. exists (S n). split; [lia|]. by apply align_subst.
    + simpl in E. injection E as -> ->. destruct (IH l c d r eq_refl) as (n' & Hn & Ha).
      exists (S n'). split; [lia|]. simpl. by apply align_subst.
  - destruct (IH l c d r E) as (n' & Hn & Ha).
    exists (S n'). split; [lia|]. by apply align_delete.
  - destruct l as [|y l].
    + simpl in *. injection E as -> ->. exists (S n). split; [lia|]. by apply align_insert.
    + simpl in E. injection E as -> ->. destruct (IH l c d r eq_refl) as (n' & Hn & Ha).
      exists (S n'). split; [lia|]. simpl. by apply align_insert.
Qed.

Lemma align_edit1 s t u n : align s t n -> edit1 t u ->
  exists n', (n' <= S n)%nat /\ align s u n'.
Proof.
  intros Ha He. destruct He as [l c r|l c r|l c d r].
  - by eapply align_insert_inside.
  - by eapply align_delete_inside.
  - by eapply align_substitute_inside.
Qed.

Lemma align_of_edits_from n : forall s t u m,
  align s t m -> edits n t u -> exists n', (n' <= m + n)%nat /\ align s u n'.
Proof.
  induction n as [|n IH]; intros s t u m Ha He; inversion He; subst.
  - exists m. split; [lia|done].
  - destruct (align_edit1 _ _ _ _ Ha H0) as (m' & Hm & Ha').
    destruct (IH _ _ _ _ Ha' H1) as (n' & Hn & Ha'').
    exists n'. split; [lia|done].
Qed.

Lemma lev_le_edits n s t : edits n s t -> (lev s t <= n)%nat.
Proof.
  intros He. destruct (align_of_edits_from n s s t 0%nat (align_refl s) He) as (n' & Hn & Ha).
  apply lev_le_align in Ha. lia.
Qed.

Lemma edits_lev s t : edits (lev s t) s t.
Proof. apply edits_of_align, align_lev. Qed.

(** Reversal. *)
Lemma align_snoc_keep s t n c : align s t n -> align (s ++ [c]) (t ++ [c]) n.
Proof. induction 1; simpl; try by constructor. apply align_keep, align_nil. Qed.

Lemma align_snoc_subst s t n a b : align s t n -> align (s ++ [a]) (t ++ [b]) (S n).
Proof. induction 1; simpl; try by constructor. apply align_subst, align_nil. Qed.

Lemma align_snoc_delete s t n a : align s t n -> align (s ++ [a]) t (S n).
Proof. induction 1; simpl; try by constructor. apply align_delete, align_nil. Qed.

Lemma align_snoc_insert s t n b : align s t n -> align s (t ++ [b]) (S n).
Proof. induction 1; simpl; try by constructor. apply align_insert, align_nil. Qed.

Lemma align_rev s t n : align s t n -> align (rev s) (rev t) n.
Proof.
  induction 1; simpl.
  - constructor.
  - by apply align_snoc_keep.
  - by apply align_snoc_subst.
  - by apply align_snoc_delete.
  - by apply align_snoc_insert.
Qed.

Lemma lev_rev s t : lev (rev s) (rev t) = lev s t.
Proof.
  apply Nat.le_antisymm.
  - apply lev_le_align, align_rev, align_lev.
  - rewrite <- (rev_involutive s), <- (rev_involutive t) at 1.
    apply lev_le_align, align_rev, align_lev.
Qed.

Lemma lev_snoc_snoc a b s t :
  lev (s ++ [a]) (t ++ [b]) =
    if decide (a = b) then lev s t
    else S (Nat.min (lev s (t ++ [b])) (Nat.min (lev (s ++ [a]) t) (lev s t))).
Proof.
  rewrite <- (lev_rev (s ++ [a]) (t ++ [b])), !rev_unit, lev_cons_cons.
  rewrite <- (lev_rev s (t ++ [b])), <- (lev_rev (s ++ [a]) t), <- (lev_rev s t).
  by rewrite !rev_unit.
Qed.

(** ** [_editDistance] computes it *)

(** A loop over [seq start len] keeps an invariant indexed by the
    counter. *)
Lemma foldl_seq_invariant {St : Type} (f : St -> nat -> St) (P : nat -> St -> Prop) :
  forall len start init,
    P start init ->
    (forall k st, (start <= k < start + len)%nat -> P k st -> P (S k) (f st k)) ->
    P (start + len)%nat (foldl f init (seq start len)).
Proof.
  induction len as [|len IH]; intros start init H0 Hstep; simpl.
  - by rewrite Nat.add_0_r.
  - replace (start + S len)%nat with (S start + len)%nat by lia.
    apply IH.
    + apply Hstep; [lia|done].
    + intros k st Hk. apply Hstep. lia.
Qed.

Lemma shape_replicate m n : shape m n (replicate (S m) (replicate (S n) 0)).
Proof.
  split; [by rewrite length_replicate|].
  apply Forall_replicate. by rewrite length_replicate.
Qed.

Lemma shape_row m n dp i :
  shape m n dp -> (i <= m)%nat -> List.length (dp !!! i) = S n.
Proof.
  intros [Hlen Hrows] Hi.
  destruct (lookup_lt_is_Some_2 dp i) as [row Hrow]; [lia|].
  rewrite (list_lookup_total_correct _ _ _ Hrow).
  by apply (Forall_lookup_1 _ _ _ _ Hrows Hrow).
Qed.

Lemma shape_setCell m n dp i j v :
  shape m n dp -> (i <= m)%nat -> shape m n (setCell dp i j v).
Proof.
  intros Hs Hi. pose proof (shape_row m n dp i Hs Hi) as Hrow.
  destruct Hs as [Hlen Hrows]. split.
  - unfold setCell. by rewrite length_insert.
  - unfold setCell. apply Forall_insert; [done|]. by rewrite length_insert.
Qed.

Lemma getCell_setCell m n dp i j v i' j' :
  shape m n dp -> (i <= m)%nat -> (j <= n)%nat ->
  getCell (setCell dp i j v) i' j' =
    if decide (i' = i /\ j' = j) then v else getCell dp i' j'.
Proof.
  intros Hs Hi Hj. pose proof (shape_row m n dp i Hs Hi) as Hrow.
  destruct Hs as [Hlen Hrows]. unfold getCell, setCell.
  destruct (decide (i' = i)) as [->|Hne].
  - rewrite list_lookup_total_insert_eq by lia.
    destruct (decide (j' = j)) as [->|Hne'].
    + rewrite list_lookup_total_insert_eq by lia. by rewrite decide_True.
    + rewrite list_lookup_total_insert_ne by done. rewrite decide_False; [done|tauto].
  - rewrite list_lookup_total_insert_ne by done. rewrite decide_False; [done|tauto].
Qed.

Section Table.

Variables s1 s2 : jsstring.
Let m := List.length s1.
Let n := List.length s2.

Lemma target_0_r i : (i <= m)%nat -> target s1 s2 i 0 = Z.of_nat i.
Proof.
  intros Hi. unfold target. rewrite take_0, lev_nil_r, length_take. subst m. lia.
Qed.

Lemma target_0_l j : (j <= n)%nat -> target s1 s2 0 j = Z.of_nat j.
Proof.
  intros Hj. unfold target. rewrite take_0. simpl. rewrite length_take. subst n. lia.
Qed.

Lemma target_step i j :
  (1 <= i <= m)%nat -> (1 <= j <= n)%nat ->
  target s1 s2 i j =
    if decide (s1 !! (i - 1)%nat = s2 !! (j - 1)%nat) then target s1 s2 (i - 1) (j - 1)
    else min3 (target s1 s2 (i - 1) j + 1) (target s1 s2 i (j - 1) + 1)
              (target s1 s2 (i - 1) (j - 1) + 1).
Proof.
  intros Hi Hj.
  destruct (lookup_lt_is_Some_2 s1 (i - 1)) as [a Ha]; [subst m; lia|].
  destruct (lookup_lt_is_Some_2 s2 (j - 1)) as [b Hb]; [subst n; lia|].
  rewrite Ha, Hb. unfold target.
  replace i with (S (i - 1)) at 1 by lia. replace j with (S (j - 1)) at 1 by lia.
  rewrite (take_S_r _ _ _ Ha), (take_S_r _ _ _ Hb), lev_snoc_snoc.
  rewrite <- (take_S_r _ _ _ Ha), <- (take_S_r _ _ _ Hb).
  replace (S (i - 1)) with i by lia. replace (S (j - 1)) with j by lia.
  destruct (decide (a = b)) as [->|Hab].
  - by rewrite decide_True.
  - rewrite decide_False by congruence. unfold min3. lia.
Qed.

Lemma filled_column :
  filled s1 s2 (fun _ j => j = 0%nat)
    (foldl (fun dp i => setCell dp i 0 (Z.of_nat i))
       (replicate (S m) (replicate (S n) 0)) (seq 0 (S m))).
Proof.
  pose proof (foldl_seq_invariant (fun dp i => setCell dp i 0 (Z.of_nat i))
    (fun k dp => shape m n dp /\
       forall i, (i < k)%nat -> getCell dp i 0 = Z.of_nat i)
    (S m) 0%nat (replicate (S m) (replicate (S n) 0))) as H.
  destruct H as [Hs Hc].
  - split; [apply shape_replicate|]. intros i Hi. lia.
  - intros k dp Hk [Hs Hc]. split; [apply shape_setCell; [done|lia]|].
    intros i Hi. rewrite (getCell_setCell m n) by (done || lia).
    case_decide as Hd; [by destruct Hd as [-> _]|]. apply Hc. lia.
  - split; [done|]. intros i j Hi Hj ->. rewrite target_0_r by done. apply Hc. simpl. lia.
Qed.

Lemma filled_row dp :
  filled s1 s2 (fun _ j => j = 0%nat) dp ->
  filled s1 s2 (fun i j => i = 0%nat \/ j = 0%nat)
    (foldl (fun dp j => setCell dp 0 j (Z.of_nat j)) dp (seq 0 (S n))).
Proof.
  intros [Hs0 Hc0].
  pose proof (foldl_seq_invariant (fun dp j => setCell dp 0 j (Z.of_nat j))
    (fun k dp => shape m n dp /\
       (forall i, (i <= m)%nat -> getCell dp i 0 = target s1 s2 i 0) /\
       forall j, (j < k)%nat -> getCell dp 0 j = Z.of_nat j)
    (S n) 0%nat dp) as H.
  destruct H as (Hs & Hc & Hr).
  - split; [done|]. split; [|intros j Hj; lia].
    intros i Hi. apply Hc0; [done|lia|done].
  - intros k st Hk (Hs & Hc & Hr). split; [apply shape_setCell; [done|lia]|]. split.
    + intros i Hi. rewrite (getCell_setCell m n) by (done || lia).
      case_decide as Hd; [|by apply Hc].
      destruct Hd as [-> <-]. by rewrite target_0_r.
    + intros j Hj. rewrite (getCell_setCell m n) by (done || lia).
      case_decide as Hd; [by destruct Hd as [_ ->]|]. apply Hr. lia.
  - split; [done|]. intros i j Hi Hj [->| ->].
    + rewrite target_0_l by done. apply Hr. simpl. lia.
    + by apply Hc.
Qed.

Lemma filled_editCell i j dp :
  (1 <= i <= m)%nat -> (1 <= j <= n)%nat ->
  filled s1 s2 (fun i' j' => (i' < i)%nat \/ j' = 0%nat \/ (i' = i /\ (j' < j)%nat)) dp ->
  filled s1 s2 (fun i' j' => (i' < i)%nat \/ j' = 0%nat \/ (i' = i /\ (j' < S j)%nat))
    (editCell s1 s2 i dp j).
Proof.
  intros Hi Hj [Hs Hc].
  assert (Hnew : getCell (editCell s1 s2 i dp j) i j = target s1 s2 i j
                 /\ shape m n (editCell s1 s2 i dp j)
                 /\ forall i' j', ~ (i' = i /\ j' = j) ->
                      getCell (editCell s1 s2 i dp j) i' j' = getCell dp i' j').
  { rewrite (target_step i j Hi Hj). unfold editCell.
    rewrite (Hc (i - 1) (j - 1))%nat by lia.
    rewrite (Hc (i - 1) j)%nat by lia.
    rewrite (Hc i (j - 1))%nat by lia.
    case_decide.
    - split; [|split].
      + rewrite (getCell_setCell m n) by (done || lia). by rewrite decide_True.
      + apply shape_setCell; [done|lia].
      + intros i' j' Hne. rewrite (getCell_setCell m n) by (done || lia).
        by rewrite decide_False.
    - split; [|split].
      + rewrite (getCell_setCell m n) by (done || lia). by rewrite decide_True.
      + apply shape_setCell; [done|lia].
      + intros i' j' Hne. rewrite (getCell_setCell m n) by (done || lia).
        by rewrite decide_False. }
  destruct Hnew as (Hij & Hs' & Hother). split; [done|].
  intros i' j' Hi' Hj' HR.
  destruct (decide (i' = i /\ j' = j)) as [[-> ->]|Hne]; [done|].
  rewrite Hother by done. apply Hc; [done|done|]. lia.
Qed.

Lemma filled_inner i dp :
  (1 <= i <= m)%nat ->
  filled s1 s2 (fun i' j' => (i' < i)%nat \/ j' = 0%nat) dp ->
  filled s1 s2 (fun i' j' => (i' < S i)%nat \/ j' = 0%nat)
    (foldl (editCell s1 s2 i) dp (seq 1 n)).
Proof.
  intros Hi [Hs Hc].
  pose proof (foldl_seq_invariant (editCell s1 s2 i)
    (fun j dp =>
       filled s1 s2 (fun i' j' => (i' < i)%nat \/ j' = 0%nat \/ (i' = i /\ (j' < j)%nat)) dp)
    n 1%nat dp) as H.
  destruct H as [Hs' Hc'].
  - split; [done|]. intros i' j' Hi' Hj' HR. apply Hc; [done|done|lia].
  - intros j st Hj Hst. apply filled_editCell; [done|lia|done].
  - split; [done|]. intros i' j' Hi' Hj' HR. apply Hc'; [done|done|lia].
Qed.

Lemma filled_editTable : filled s1 s2 (fun _ _ => True) (editTable s1 s2).
Proof.
  unfold editTable. fold m n.
  pose proof (foldl_seq_invariant
    (fun dp i => foldl (editCell s1 s2 i) dp (seq 1 n))
    (fun i dp => filled s1 s2 (fun i' j' => (i' < i)%nat \/ j' = 0%nat) dp)
    m 1%nat
    (foldl (fun dp j => setCell dp 0 j (Z.of_nat j))
       (foldl (fun dp i => setCell dp i 0 (Z.of_nat i))
          (replicate (S m) (replicate (S n) 0)) (seq 0 (S m))) (seq 0 (S n)))) as H.
  destruct H as [Hs Hc].
  - destruct (filled_row _ filled_column) as [Hs Hc]. split; [done|].
    intros i j Hi Hj HR. apply Hc; [done|done|lia].
  - intros i dp Hi Hdp. apply filled_inner; [lia|done].
  - split; [done|]. intros i j Hi Hj _. apply Hc; [done|done|lia].
Qed.

End Table.

Theorem editDistance_lev s1 s2 : _editDistance s1 s2 = Z.of_nat (lev s1 s2).
Proof.
  unfold _editDistance. destruct (filled_editTable s1 s2) as [_ Hc].
  rewrite Hc by done. unfold target. by rewrite !firstn_all.
Qed.

(** ** The string operations *)

Lemma length_nonneg (s : jsstring) : 0 <= JS.length s.
Proof. unfold JS.length. lia. Qed.

Lemma length_app (s t : jsstring) : JS.length (s ++ t) = JS.length s + JS.length t.
Proof. unfold JS.length. rewrite List.length_app. lia. Qed.

Lemma startsWith_prefix (s q : jsstring) :
  JS.startsWith s q = true <-> q `prefix_of` s.
Proof.
  revert s. induction q as [|c q IH]; intros s.
  - split; [intros _; apply prefix_nil|by destruct s].
  - destruct s as [|d s]; simpl.
    + split; [done|]. intros [r Hr]. done.
    + rewrite andb_true_iff, IH, N.eqb_eq. split.
      * intros [-> Hp]. by apply prefix_cons.
      * intros [r Hr]. injection Hr as -> ->. split; [done|]. by exists r.
Qed.

Lemma startsWith_false (s q : jsstring) :
  JS.startsWith s q = false <-> ~ q `prefix_of` s.
Proof.
  rewrite <- startsWith_prefix. destruct (JS.startsWith s q); split; congruence.
Qed.

Lemma occursAt_drop (s q : jsstring) (i : nat) :
  occursAt s q (Z.of_nat i) <-> (i <= List.length s)%nat /\ q `prefix_of` drop i s.
Proof.
  split.
  - intros (l & r & -> & Hl). unfold JS.length in Hl. apply Nat2Z.inj in Hl. subst i.
    split; [rewrite List.length_app; lia|].
    rewrite drop_app_length. by exists r.
  - intros [Hi [r Hr]]. exists (take i s), r. split.
    + by rewrite <- Hr, take_drop.
    + unfold JS.length. rewrite length_take. lia.
Qed.

Lemma occursAt_range (s q : jsstring) (k : Z) :
  occursAt s q k -> 0 <= k /\ k + JS.length q <= JS.length s.
Proof.
  intros (l & r & -> & <-). rewrite !length_app.
  pose proof (length_nonneg l). pose proof (length_nonneg r). lia.
Qed.

Lemma indexOfFrom_spec (q : jsstring) : forall (s : jsstring) (k0 : Z),
  (JS.indexOfFrom s q k0 = -1 /\
   forall i, (i <= List.length s)%nat -> ~ q `prefix_of` drop i s) \/
  (exists i, (i <= List.length s)%nat /\
             JS.indexOfFrom s q k0 = k0 + Z.of_nat i /\
             q `prefix_of` drop i s /\
             forall j, (j < i)%nat -> ~ q `prefix_of` drop j s).
Proof.
  induction s as [|c s IH]; intros k0; cbn [JS.indexOfFrom].
  - destruct (JS.startsWith [] q) eqn:E.
    + right. exists 0%nat. apply startsWith_prefix in E.
      split; [simpl; lia|]. split; [lia|]. split; [done|]. intros j Hj. lia.
    + left. split; [done|]. intros i Hi. apply startsWith_false in E.
      by rewrite drop_nil.
  - destruct (JS.startsWith (c :: s) q) eqn:E.
    + right. exists 0%nat. apply startsWith_prefix in E.
      split; [lia|]. split; [lia|]. split; [done|]. intros j Hj. lia.
    + apply startsWith_false in E. destruct (IH (k0 + 1)) as [[Hr Hn]|(i & Hi & Hr & Hp & Hn)].
      * left. split; [done|]. intros [|i] Hi; [done|]. simpl in *. apply Hn. lia.
      * right. exists (S i). split; [simpl; lia|]. split; [lia|]. split; [done|].
        intros [|j] Hj; [done|]. simpl. apply Hn. lia.
Qed.

Lemma clamp_range (n x : Z) : 0 <= n -> 0 <= JS.clamp n x <= n.
Proof. unfold JS.clamp. lia. Qed.

(** [indexOf]: either nothing at or after the start, or the first
    occurrence at or after it. *)
Lemma indexOf_spec (s q : jsstring) (pos : Z) :
  let start := JS.clamp (JS.length s) pos in
  (JS.indexOf s q pos = -1 /\ forall k, start <= k -> ~ occursAt s q k) \/
  (start <= JS.indexOf s q pos /\ occursAt s q (JS.indexOf s q pos) /\
   forall k, start <= k < JS.indexOf s q pos -> ~ occursAt s q k).
Proof.
  intros start. unfold JS.indexOf. fold start.
  pose proof (clamp_range (JS.length s) pos (length_nonneg s)) as Hstart. fold start in Hstart.
  unfold JS.length in Hstart.
  destruct (indexOfFrom_spec q (drop (Z.to_nat start) s) start)
    as [[Hr Hn]|(i & Hi & Hr & Hp & Hn)].
  - left. split; [done|]. intros k Hk Hocc.
    pose proof (occursAt_range _ _ _ Hocc) as [Hk0 _].
    rewrite <- (Z2Nat.id k) in Hocc by done.
    apply occursAt_drop in Hocc as [Hlen Hp].
    apply (Hn (Z.to_nat k - Z.to_nat start)%nat).
    + rewrite length_drop. lia.
    + rewrite drop_drop. by replace (Z.to_nat start + (Z.to_nat k - Z.to_nat start))%nat
        with (Z.to_nat k) by lia.
  - right. rewrite length_drop in Hi. rewrite drop_drop in Hp. rewrite Hr.
    split; [lia|]. split.
    + replace (start + Z.of_nat i) with (Z.of_nat (Z.to_nat start + i)) by lia.
      apply occursAt_drop. split; [lia|done].
    + intros k Hk Hocc. rewrite <- (Z2Nat.id k) in Hocc by lia.
      apply occursAt_drop in Hocc as [Hlen Hp'].
      apply (Hn (Z.to_nat k - Z.to_nat start)%nat); [lia|].
      rewrite drop_drop. by replace (Z.to_nat start + (Z.to_nat k - Z.to_nat start))%nat
        with (Z.to_nat k) by lia.
Qed.

Lemma clamp_0 (n : Z) : 0 <= n -> JS.clamp n 0 = 0.
Proof. unfold JS.clamp. lia. Qed.

Lemma indexOf_0_none (s q : jsstring) :
  JS.indexOf s q 0 = -1 <-> ~ contains s q.
Proof.
  destruct (indexOf_spec s q 0) as [[Hr Hn]|(Hle & Hocc & Hn)];
    rewrite clamp_0 in * by apply length_nonneg.
  - split; [|done]. intros _ [k Hk]. apply (Hn k); [|done].
    by apply occursAt_range in Hk as [? _].
  - split; [lia|]. intros Hc. destruct Hc. by eexists.
Qed.

Lemma indexOf_0_first (s q : jsstring) :
  contains s q -> firstOccurrence s q (JS.indexOf s q 0).
Proof.
  intros Hc.
  destruct (indexOf_spec s q 0) as [[Hr Hn]|(Hle & Hocc & Hn)];
    rewrite clamp_0 in * by apply length_nonneg.
  - by apply indexOf_0_none in Hr.
  - split; [done|]. intros j Hj Hocc'. apply (Hn j); [|done].
    apply occursAt_range in Hocc' as [? _]. lia.
Qed.

Lemma indexOf_0_nonneg (s q : jsstring) :
  contains s q -> 0 <= JS.indexOf s q 0.
Proof.
  intros Hc. by destruct (indexOf_0_first s q Hc) as [[? _]%occursAt_range _].
Qed.

Lemma includes_contains (s q : jsstring) :
  JS.includes s q = true <-> contains s q.
Proof.
  unfold JS.includes. rewrite negb_true_iff, Z.eqb_neq. split.
  - intros Hne. destruct (indexOf_spec s q 0) as [[Hr _]|(_ & Hocc & _)]; [done|].
    by eexists.
  - intros Hc Hr. by apply indexOf_0_none in Hr.
Qed.

Lemma includes_false (s q : jsstring) :
  JS.includes s q = false <-> ~ contains s q.
Proof.
  rewrite <- includes_contains. destruct (JS.includes s q); split; congruence.
Qed.

(** ** The rank classifier *)

Section ClassifierFacts.

Variable toLowerCase : jsstring -> jsstring.

Lemma calculateRank_editDist filename query caseSensitive :
  Rank.editDist (_calculateRank toLowerCase filename query caseSensitive)
  = _editDistance (_getBasename (normalize toLowerCase caseSensitive filename))
      (normalize toLowerCase caseSensitive query).
Proof.
  unfold _calculateRank.
  repeat (match goal with |- context [if ?b then _ else _] => destruct b end);
    reflexivity.
Qed.

Lemma calculateRank_length filename query caseSensitive :
  Rank.length (_calculateRank toLowerCase filename query caseSensitive)
  = JS.length filename.
Proof.
  unfold _calculateRank.
  repeat (match goal with |- context [if ?b then _ else _] => destruct b end);
    reflexivity.
Qed.

(** The tier and the position obey the rule of the tiers. *)
Lemma calculateRank_tierRule filename query caseSensitive :
  let fn := normalize toLowerCase caseSensitive filename in
  let q := normalize toLowerCase caseSensitive query in
  let rank := _calculateRank toLowerCase filename query caseSensitive in
  tierRule fn q (_getBasename fn) (_getBasename q)
    (Rank.tier rank) (Rank.position rank).
Proof.
  intros fn q rank. unfold rank, _calculateRank. fold fn q.
  set (basename := _getBasename fn). set (queryBasename := _getBasename q).
  destruct (bool_decide (fn = q)) eqn:E0.
  { apply bool_decide_eq_true in E0. simpl. by apply tier_exact. }
  apply bool_decide_eq_false in E0.
  destruct (bool_decide (basename = queryBasename) || bool_decide (basename = q)) eqn:E1.
  { simpl. apply tier_basename; [done|].
    apply orb_true_iff in E1 as [E1|E1]; apply bool_decide_eq_true in E1; tauto. }
  apply orb_false_iff in E1 as [E1a E1b].
  apply bool_decide_eq_false in E1a. apply bool_decide_eq_false in E1b.
  assert (E1 : ~ (basename = queryBasename \/ basename = q)) by tauto.
  destruct (JS.startsWith basename q) eqn:E2.
  { simpl. apply startsWith_prefix in E2. by apply tier_prefix. }
  apply startsWith_false in E2.
  destruct (JS.includes basename q) eqn:E3.
  { apply includes_contains in E3. simpl.
    pose proof (indexOf_0_nonneg _ _ E3) as Hk.
    destruct (JS.indexOf basename q 0 >=? 0) eqn:Eg; [|lia].
    apply tier_in_basename; [done..|]. by apply indexOf_0_first. }
  apply includes_false in E3.
  destruct (JS.includes fn q) eqn:E4.
  { apply includes_contains in E4. simpl.
    pose proof (indexOf_0_nonneg _ _ E4) as Hk.
    destruct (JS.indexOf fn q 0 >=? 0) eqn:Eg; [|lia].
    apply tier_in_name; [done..|]. by apply indexOf_0_first. }
  apply includes_false in E4. simpl. by apply tier_none.
Qed.

(** With tier 5 the position is absent. *)
Lemma calculateRank_tier5 filename query caseSensitive :
  Rank.tier (_calculateRank toLowerCase filename query caseSensitive) = 5 ->
  Rank.position (_calculateRank toLowerCase filename query caseSensitive)
  = JS.Infinity.
Proof.
  unfold _calculateRank.
  set (fn := normalize toLowerCase caseSensitive filename).
  set (q := normalize toLowerCase caseSensitive query).
  destruct (bool_decide (fn = q)); [done|].
  destruct (_ || _); [done|].
  destruct (JS.startsWith _ q); [done|].
  destruct (JS.includes (_getBasename fn) q); [done|].
  destruct (JS.includes fn q) eqn:E4; [done|].
  intros _. simpl. apply includes_false, indexOf_0_none in E4. by rewrite E4.
Qed.

(** With another tier it is an index. *)
Lemma calculateRank_position filename query caseSensitive :
  let rank := _calculateRank toLowerCase filename query caseSensitive in
  isPosition (Rank.position rank) /\
  (Rank.position rank = JS.Infinity <-> Rank.tier rank = 5) /\
  0 <= Rank.tier rank <= 5.
Proof.
  intros rank.
  pose proof (calculateRank_tierRule filename query caseSensitive) as H.
  pose proof (calculateRank_tier5 filename query caseSensitive) as H5.
  fold rank in H5. cbv zeta in H. fold rank in H.
  inversion H as [| | |k ? ? ? [Hk _]|k ? ? ? ? [Hk _]|p]; subst;
    try apply occursAt_range in Hk as [Hk _];
    repeat match goal with E : _ = Rank.tier rank |- _ => rewrite <- E in * end;
    repeat match goal with E : _ = Rank.position rank |- _ => rewrite <- E in * end;
    try rewrite H5 by done;
    simpl; repeat split; try done; try lia.
Qed.

End ClassifierFacts.

(** ** The comparator *)

Lemma isNegative_Num (z : Z) : isNegative (JS.Num z) = true <-> z < 0.
Proof.
  unfold isNegative. simpl. destruct (Z.compare_spec z 0); split; (done || lia).
Qed.

Lemma compare_opp (x y : Z) :
  Z.sgn x = - Z.sgn y -> (x ?= 0) = CompOpp (y ?= 0).
Proof.
  intros H. destruct (Z.compare_spec x 0), (Z.compare_spec y 0); simpl; (done || lia).
Qed.

(** A negative answer of the comparator is the order of the sort key. *)
Lemma compareRanks_negative (rankA rankB : Rank.t) (alphabetical : Z) :
  isPosition (Rank.position rankA) -> isPosition (Rank.position rankB) ->
  isNegative (compareRanks rankA rankB alphabetical) = true
  <-> sortsBefore rankA rankB alphabetical.
Proof.
  destruct rankA as [tA eA lA pA], rankB as [tB eB lB pB].
  unfold compareRanks, sortsBefore. simpl. intros HA HB.
  destruct (Z.eqb_spec tA tB) as [->|Ht]; simpl;
    [|rewrite isNegative_Num; lia].
  destruct (Z.eqb_spec eA eB) as [->|He]; simpl;
    [|rewrite isNegative_Num; lia].
  destruct (Z.eqb_spec lA lB) as [->|Hl]; simpl;
    [|rewrite isNegative_Num; lia].
  destruct pA as [x| | |], pB as [y| | |]; try done; simpl.
  - destruct (Z.eqb_spec x y) as [->|Hp]; simpl; rewrite isNegative_Num.
    + split; [intros; do 3 (right; split; [done|]); right; by split|].
      intros [?|[_ [?|[_ [?|[_ [?|[_ ?]]]]]]]]; lia.
    + split; [intros; do 3 (right; split; [done|]); left; lia|].
      intros [?|[_ [?|[_ [?|[_ [?|[E ?]]]]]]]]; try lia. congruence.
  - split; [intros _; do 3 (right; split; [done|]); by left|done].
  - split; [done|]. intros [?|[_ [?|[_ [?|[_ [?|[E ?]]]]]]]]; try lia; done.
  - rewrite isNegative_Num.
    split; [intros; do 3 (right; split; [done|]); right; by split|].
    intros [?|[_ [?|[_ [?|[_ [?|[_ ?]]]]]]]]; try lia; done.
Qed.

(** Whenever the tiers differ, the tier decides. *)
Lemma compareRanks_tier (rankA rankB : Rank.t) (alphabetical : Z) :
  Rank.tier rankA < Rank.tier rankB ->
  isNegative (compareRanks rankA rankB alphabetical) = true.
Proof.
  intros Ht. unfold compareRanks.
  destruct (Z.eqb_spec (Rank.tier rankA) (Rank.tier rankB)) as [E|_]; [lia|].
  simpl. apply isNegative_Num. lia.
Qed.

Lemma compareRanks_not_negative (rankA rankB : Rank.t) (alphabetical : Z) :
  isNegative (compareRanks rankA rankB alphabetical) = false ->
  Rank.tier rankB <= Rank.tier rankA.
Proof.
  intros Hn. destruct (Z.le_gt_cases (Rank.tier rankB) (Rank.tier rankA)) as [|Hlt]; [done|].
  by rewrite (compareRanks_tier _ _ alphabetical) in Hn by lia.
Qed.

Lemma compareRanks_negative_tier (rankA rankB : Rank.t) (alphabetical : Z) :
  isNegative (compareRanks rankA rankB alphabetical) = true ->
  Rank.tier rankA <= Rank.tier rankB.
Proof.
  unfold compareRanks.
  destruct (Z.eqb_spec (Rank.tier rankA) (Rank.tier rankB)) as [E|Hne]; [lia|].
  simpl. rewrite isNegative_Num. lia.
Qed.


(** Swapping the arguments swaps the sign. *)
Lemma compareRanks_swap (rankA rankB : Rank.t) (a b : Z) :
  isPosition (Rank.position rankA) -> isPosition (Rank.position rankB) ->
  Z.sgn a = - Z.sgn b ->
  JS.sign (compareRanks rankA rankB a)
  = CompOpp <$> JS.sign (compareRanks rankB rankA b).
Proof.
  destruct rankA as [tA eA lA pA], rankB as [tB eB lB pB].
  unfold compareRanks. simpl. intros HA HB Hab.
  rewrite (Z.eqb_sym tB tA), (Z.eqb_sym eB eA), (Z.eqb_sym lB lA).
  destruct (Z.eqb_spec tA tB) as [->|Ht]; simpl; [|f_equal; apply compare_opp; lia].
  destruct (Z.eqb_spec eA eB) as [->|He]; simpl; [|f_equal; apply compare_opp; lia].
  destruct (Z.eqb_spec lA lB) as [->|Hl]; simpl; [|f_equal; apply compare_opp; lia].
  destruct pA as [x| | |], pB as [y| | |]; try done; simpl.
  - rewrite (Z.eqb_sym y x).
    destruct (Z.eqb_spec x y) as [->|Hp]; simpl; f_equal; apply compare_opp; lia.
  - f_equal. by apply compare_opp.
Qed.

(** The comparator answers zero exactly on equal ranks that the
    collation does not tell apart. *)
Lemma compareRanks_zero (rankA rankB : Rank.t) (alphabetical : Z) :
  isPosition (Rank.position rankA) -> isPosition (Rank.position rankB) ->
  JS.sign (compareRanks rankA rankB alphabetical) = Some Eq
  <-> rankA = rankB /\ alphabetical = 0.
Proof.
  destruct rankA as [tA eA lA pA], rankB as [tB eB lB pB].
  unfold compareRanks. simpl. intros HA HB.
  assert (Hz : forall z, Some (z ?= 0) = Some Eq <-> z = 0).
  { intros z. destruct (Z.compare_spec z 0); split; (done || lia || congruence). }
  destruct (Z.eqb_spec tA tB) as [->|Ht]; simpl;
    [|rewrite Hz; split; [lia|intros [[= ] _]; lia]].
  destruct (Z.eqb_spec eA eB) as [->|He]; simpl;
    [|rewrite Hz; split; [lia|intros [[= ] _]; lia]].
  destruct (Z.eqb_spec lA lB) as [->|Hl]; simpl;
    [|rewrite Hz; split; [lia|intros [[= ] _]; lia]].
  destruct pA as [x| | |], pB as [y| | |]; try done; simpl.
  - destruct (Z.eqb_spec x y) as [->|Hp]; simpl; rewrite Hz.
    + split; [by intros ->|by intros [_ ->]].
    + split; [lia|intros [[= ] _]; lia].
  - split; [done|by intros [[= ] _]].
  - split; [done|by intros [[= ] _]].
  - rewrite Hz. split; [by intros ->|by intros [_ ->]].
Qed.

(** The comparator never answers [NaN]. *)
Lemma compareRanks_sign (rankA rankB : Rank.t) (alphabetical : Z) :
  isPosition (Rank.position rankA) -> isPosition (Rank.position rankB) ->
  exists c, JS.sign (compareRanks rankA rankB alphabetical) = Some c.
Proof.
  destruct rankA as [tA eA lA pA], rankB as [tB eB lB pB].
  unfold compareRanks. simpl. intros HA HB.
  destruct (tA =? tB); simpl; [|by eexists].
  destruct (eA =? eB); simpl; [|by eexists].
  destruct (lA =? lB); simpl; [|by eexists].
  destruct pA as [x| | |], pB as [y| | |]; try done; simpl; try by eexists.
  destruct (x =? y); simpl; by eexists.
Qed.

(** On equal ranks the collation decides. *)
Lemma compareRanks_tie (rank : Rank.t) (alphabetical : Z) :
  isPosition (Rank.position rank) ->
  compareRanks rank rank alphabetical = JS.Num alphabetical.
Proof.
  destruct rank as [t e l p]. unfold compareRanks. simpl. intros Hp.
  rewrite !Z.eqb_refl. simpl. destruct p as [x| | |]; try done; simpl.
  by rewrite Z.eqb_refl.
Qed.

Section ComparatorFacts.

Variable toLowerCase : jsstring -> jsstring.
Variable localeCompare : jsstring -> jsstring -> Z.

Lemma calculateRank_isPosition filename query caseSensitive :
  isPosition (Rank.position (_calculateRank toLowerCase filename query caseSensitive)).
Proof.
  by destruct (calculateRank_position toLowerCase filename query caseSensitive).
Qed.

Lemma compareFiles_negative filenameA filenameB query caseSensitive :
  isNegative
    (_compareFilesByRelevance toLowerCase localeCompare filenameA filenameB query
       caseSensitive) = true
  <-> sortsBefore (_calculateRank toLowerCase filenameA query caseSensitive)
        (_calculateRank toLowerCase filenameB query caseSensitive)
        (localeCompare filenameA filenameB).
Proof.
  unfold _compareFilesByRelevance.
  apply compareRanks_negative; apply calculateRank_isPosition.
Qed.

End ComparatorFacts.

(** ** The sort *)

Section SortFacts.

Context {A : Type}.
Variable cmp : A -> A -> JS.number.

(** A key that the comparator respects: a negative answer never goes
    against the key, another answer never with it. *)
Variable key : A -> Z.
Hypothesis cmp_negative : forall x y, isNegative (cmp x y) = true -> key x <= key y.
Hypothesis cmp_other : forall x y, isNegative (cmp x y) = false -> key y <= key x.

Lemma insertSorted_elem_of x l z : z ∈ insertSorted cmp x l <-> z = x \/ z ∈ l.
Proof.
  induction l as [|y l IH]; simpl.
  - rewrite list_elem_of_singleton. rewrite elem_of_nil. tauto.
  - destruct (isNegative (cmp y x)); rewrite !elem_of_cons; [rewrite IH|]; tauto.
Qed.

Lemma insertSorted_sorted x l :
  StronglySorted (fun a b => key a <= key b) l ->
  StronglySorted (fun a b => key a <= key b) (insertSorted cmp x l).
Proof.
  induction 1 as [|y l Hs IH Hy]; simpl.
  - repeat constructor.
  - destruct (isNegative (cmp y x)) eqn:E.
    + constructor; [done|]. apply Forall_forall. intros z Hz.
      apply insertSorted_elem_of in Hz as [->|Hz].
      * by apply cmp_negative.
      * rewrite Forall_forall in Hy. by apply Hy.
    + constructor; [by constructor|]. apply cmp_other in E.
      constructor; [done|]. eapply Forall_impl; [exact Hy|]. simpl. intros; lia.
Qed.

Lemma sort_sorted l : StronglySorted (fun a b => key a <= key b) (sort cmp l).
Proof.
  induction l as [|x l IH]; simpl; [constructor|]. by apply insertSorted_sorted.
Qed.

Lemma insertSorted_Permutation x l : insertSorted cmp x l ≡ₚ x :: l.
Proof.
  induction l as [|y l IH]; simpl; [done|].
  destruct (isNegative (cmp y x)); [|done]. rewrite IH. apply Permutation_swap.
Qed.

Lemma sort_Permutation l : sort cmp l ≡ₚ l.
Proof.
  induction l as [|x l IH]; simpl; [done|].
  by rewrite insertSorted_Permutation, IH.
Qed.

(** In the sorted list a smaller key stands before a larger one. *)
Lemma sort_key_order l i j a b :
  sort cmp l !! i = Some a -> sort cmp l !! j = Some b ->
  key a < key b -> (i < j)%nat.
Proof.
  intros Hi Hj Hab. pose proof (sort_sorted l) as Hs.
  destruct (Nat.lt_trichotomy i j) as [?|[->|Hlt]]; [done| |exfalso].
  { rewrite Hi in Hj. injection Hj as ->. lia. }
  revert Hs i j Hi Hj Hlt. generalize (sort cmp l). clear l.
  induction 1 as [|y l Hs IH Hy]; intros i j Hi Hj Hlt; [done|].
  destruct j as [|j]; destruct i as [|i]; try lia; simpl in *.
  - injection Hj as ->. rewrite Forall_forall in Hy.
    apply list_elem_of_lookup_2, Hy in Hi. lia.
  - apply (IH i j); (done || lia).
Qed.

End SortFacts.

(** ** The collation by code units *)

Lemma compareCodeUnits_refl (a : jsstring) : compareCodeUnits a a = 0.
Proof. induction a as [|x a IH]; simpl; [done|]. by rewrite N.compare_refl. Qed.

Lemma compareCodeUnits_swap (a b : jsstring) :
  Z.sgn (compareCodeUnits a b) = - Z.sgn (compareCodeUnits b a).
Proof.
  revert b. induction a as [|x a IH]; intros [|y b]; simpl; try done.
  rewrite (N.compare_antisym x y). destruct (x ?= y)%N; simpl; [apply IH|done..].
Qed.

(** The distance is one number, and the rule of the tiers gives one
    tier. *)
Lemma LevenshteinDistance_unique (s t : jsstring) (d d' : Z) :
  LevenshteinDistance s t d -> LevenshteinDistance s t d' -> d = d'.
Proof.
  intros (n & -> & He & Hmin) (n' & -> & He' & Hmin').
  specialize (Hmin n' He'). specialize (Hmin' n He). lia.
Qed.

Lemma firstOccurrence_unique (s q : jsstring) (k k' : Z) :
  firstOccurrence s q k -> firstOccurrence s q k' -> k = k'.
Proof.
  intros [Hk Hfirst] [Hk' Hfirst'].
  destruct (Z.lt_trichotomy k k') as [Hlt|[->|Hgt]]; [|done|].
  - by destruct (Hfirst' k Hlt).
  - by destruct (Hfirst k' Hgt).
Qed.

Lemma tierRule_unique (fn q basename queryBasename : jsstring) t p t' p' :
  tierRule fn q basename queryBasename t p ->
  tierRule fn q basename queryBasename t' p' ->
  t = t' /\ (t <> 5 -> p = p').
Proof.
  intros H H'.
  assert (Hc : forall s k, firstOccurrence s q k -> contains s q).
  { intros s k [Hk _]. by exists k. }
  assert (Hp : q `prefix_of` basename -> contains basename q).
  { intros [r ->]. exists 0, [], r. done. }
  inversion H; subst; inversion H'; subst; try done;
    try (exfalso; eauto; fail);
    split; try done; intros _; f_equal; by eapply firstOccurrence_unique.
Qed.

(** ** The claims on the classifier and the comparator *)

(** C1: the comparator puts A before B (a negative answer) exactly when
    the sort key of A (tier, edit distance, length of the name, match
    position, alphabetical order) comes before the one of B, a later key
    counting only when the earlier ones are equal; a smaller tier
    decides alone, and in the sorted results an entry of a smaller tier
    stands before every entry of a larger one. *)
Theorem sorter_follows_sort_key :
  (forall toLowerCase localeCompare filenameA filenameB query caseSensitive,
     isNegative
       (_compareFilesByRelevance toLowerCase localeCompare filenameA filenameB
          query caseSensitive) = true
     <-> sortsBefore (_calculateRank toLowerCase filenameA query caseSensitive)
           (_calculateRank toLowerCase filenameB query caseSensitive)
           (localeCompare filenameA filenameB)) /\
  (forall toLowerCase localeCompare filenameA filenameB query caseSensitive,
     Rank.tier (_calculateRank toLowerCase filenameA query caseSensitive)
     < Rank.tier (_calculateRank toLowerCase filenameB query caseSensitive) ->
     isNegative
       (_compareFilesByRelevance toLowerCase localeCompare filenameA filenameB
          query caseSensitive) = true) /\
  (forall toLowerCase localeCompare (File : Type) query caseSensitive
          (results : list (SearchResult File)) i j a b,
     let sorted :=
       sort (fun x y =>
               _compareFilesByRelevance toLowerCase localeCompare
                 (label x) (label y) query caseSensitive) results in
     sorted !! i = Some a -> sorted !! j = Some b ->
     Rank.tier (_calculateRank toLowerCase (label a) query caseSensitive)
     < Rank.tier (_calculateRank toLowerCase (label b) query caseSensitive) ->
     (i < j)%nat).
Proof.
  split; [|split].
  - intros. apply compareFiles_negative.
  - intros. by apply compareRanks_tier.
  - intros toLowerCase localeCompare File query caseSensitive results i j a b
      sorted Hi Hj Hab.
    eapply (sort_key_order _
              (fun x => Rank.tier (_calculateRank toLowerCase (label x) query caseSensitive)));
      [| |exact Hi|exact Hj|exact Hab].
    + intros x y. apply compareRanks_negative_tier.
    + intros x y. apply compareRanks_not_negative.
Qed.

Lemma sorter_follows_sort_key_witness :
  isNegative
    (_compareFilesByRelevance toLowerCaseLatin compareCodeUnits
       (js "file") (js "file.txt") (js "file") false) = true.
Proof.
  apply (proj1 (proj2 sorter_follows_sort_key)). vm_compute. reflexivity.
Defined.

(** C2, as the code has it: the edit distance of the rank is the
    Levenshtein distance (the least number of insertions, deletions
    and substitutions of single code units) between the normalized
    basename of the file name and the whole normalized query. *)
Theorem editDist_is_levenshtein toLowerCase filename query caseSensitive :
  LevenshteinDistance
    (_getBasename (normalize toLowerCase caseSensitive filename))
    (normalize toLowerCase caseSensitive query)
    (Rank.editDist (_calculateRank toLowerCase filename query caseSensitive)).
Proof.
  rewrite calculateRank_editDist, editDistance_lev.
  eexists. split; [done|]. split; [apply edits_lev|].
  intros n'. apply lev_le_edits.
Qed.

(** C2, as stated, fails: for the name and the query [file.txt] the
    basenames are equal, at distance 0, and the rank says 4. *)
Lemma editDist_not_of_query_basename :
  ~ LevenshteinDistance
      (_getBasename (normalize toLowerCaseLatin true (js "file.txt")))
      (_getBasename (normalize toLowerCaseLatin true (js "file.txt")))
      (Rank.editDist (_calculateRank toLowerCaseLatin (js "file.txt") (js "file.txt") true)).
Proof.
  intros (n & Hn & _ & Hmin).
  change (Rank.editDist _) with 4 in Hn.
  specialize (Hmin 0%nat (edits_done _)). lia.
Qed.

(** C3: the tier and the match position follow the rule of the tiers,
    the first rule that applies deciding; the query [file] gives the
    name [file.txt] tier 1. *)
Theorem tier_by_first_rule :
  (forall toLowerCase filename query caseSensitive,
     let fn := normalize toLowerCase caseSensitive filename in
     let q := normalize toLowerCase caseSensitive query in
     let rank := _calculateRank toLowerCase filename query caseSensitive in
     tierRule fn q (_getBasename fn) (_getBasename q)
       (Rank.tier rank) (Rank.position rank)) /\
  (forall caseSensitive,
     Rank.tier (_calculateRank toLowerCaseLatin (js "file.txt") (js "file") caseSensitive)
     = 1).
Proof.
  split.
  - apply calculateRank_tierRule.
  - by intros [].
Qed.



(** C9: the comparator is a function of its arguments (as every
    definition here is: the same input gives the same output); with a
    collation that answers 0 on equal strings and swaps its sign with
    its arguments, compare(A, A) is 0 and the sign of compare(A, B) is
    the opposite of the sign of compare(B, A); on equal ranks the
    answer is the one of the collation, the last key, and the answer
    is 0 only when the ranks are equal and the collation answers 0. *)
Theorem comparator_consistent toLowerCase localeCompare
  (localeCompare_refl : forall a, localeCompare a a = 0)
  (localeCompare_swap :
     forall a b, Z.sgn (localeCompare a b) = - Z.sgn (localeCompare b a))
  filenameA filenameB query caseSensitive :
  let compare := fun a b =>
    _compareFilesByRelevance toLowerCase localeCompare a b query caseSensitive in
  let rankA := _calculateRank toLowerCase filenameA query caseSensitive in
  let rankB := _calculateRank toLowerCase filenameB query caseSensitive in
  compare filenameA filenameA = JS.Num 0 /\
  (exists c, JS.sign (compare filenameA filenameB) = Some c /\
             JS.sign (compare filenameB filenameA) = Some (CompOpp c)) /\
  (rankA = rankB ->
   compare filenameA filenameB = JS.Num (localeCompare filenameA filenameB)) /\
  (JS.sign (compare filenameA filenameB) = Some Eq
   <-> rankA = rankB /\ localeCompare filenameA filenameB = 0).
Proof.
  intros compare rankA rankB. unfold compare, _compareFilesByRelevance.
  fold rankA rankB.
  pose proof (calculateRank_isPosition toLowerCase filenameA query caseSensitive) as HA.
  pose proof (calculateRank_isPosition toLowerCase filenameB query caseSensitive) as HB.
  fold rankA in HA. fold rankB in HB.
  split; [|split; [|split]].
  - by rewrite compareRanks_tie, localeCompare_refl.
  - pose proof (compareRanks_swap _ _ _ _ HB HA (localeCompare_swap filenameB filenameA))
      as Hs.
    destruct (compareRanks_sign _ _ (localeCompare filenameA filenameB) HA HB) as [c Hc].
    exists c. split; [done|]. rewrite Hs, Hc. by simpl.
  - intros <-. by apply compareRanks_tie.
  - by apply compareRanks_zero.
Qed.

Lemma comparator_consistent_witness :
  _compareFilesByRelevance toLowerCaseLatin compareCodeUnits
    (js "file.c") (js "file.c") (js "file") false = JS.Num 0 /\
  exists c,
    JS.sign (_compareFilesByRelevance toLowerCaseLatin compareCodeUnits
               (js "file.c") (js "file.h") (js "file") false) = Some c /\
    JS.sign (_compareFilesByRelevance toLowerCaseLatin compareCodeUnits
               (js "file.h") (js "file.c") (js "file") false) = Some (CompOpp c).
Proof.
  destruct (comparator_consistent toLowerCaseLatin compareCodeUnits
              compareCodeUnits_refl compareCodeUnits_swap
              (js "file.c") (js "file.h") (js "file") false) as (H0 & Hswap & _).
  split; [exact H0|exact Hswap].
Defined.

(** ** The highlighter: the occurrences *)

Section Occurrences.

Variables fn q : jsstring.
Variable queryLength : Z.

Lemma occursAt_empty_anywhere k k' :
  occursAt fn q k -> JS.length fn <= k -> 0 <= k' <= JS.length fn -> occursAt fn q k'.
Proof.
  intros Hk Hlen Hk'. pose proof (occursAt_range _ _ _ Hk) as [_ Hr].
  assert (q = []) as ->.
  { destruct q; [done|]. unfold JS.length in *. simpl in *. lia. }
  rewrite <- (Z2Nat.id k') by lia. apply occursAt_drop.
  split; [unfold JS.length in *; lia|apply prefix_nil].
Qed.

(** What one round of the loop finds. *)
Lemma indexOf_round searchPos :
  0 <= searchPos < JS.length fn ->
  (JS.indexOf fn q searchPos = -1 /\
   forall k, searchPos <= k -> ~ occursAt fn q k) \/
  (searchPos <= JS.indexOf fn q searchPos < JS.length fn /\
   occursAt fn q (JS.indexOf fn q searchPos) /\
   forall k, searchPos <= k < JS.indexOf fn q searchPos -> ~ occursAt fn q k).
Proof.
  intros Hsp. pose proof (indexOf_spec fn q searchPos) as H. cbv zeta in H.
  replace (JS.clamp (JS.length fn) searchPos) with searchPos in H
    by (unfold JS.clamp; lia).
  destruct H as [H|(Hle & Hocc & Hn)]; [by left|right].
  split; [|done]. split; [done|].
  destruct (Z.lt_ge_cases (JS.indexOf fn q searchPos) (JS.length fn)) as [|Hge]; [done|].
  exfalso. apply (Hn searchPos); [lia|].
  apply (occursAt_empty_anywhere _ _ Hocc); lia.
Qed.

(** The loop finds the occurrences from [searchPos] on, all of them,
    in their order. *)
Lemma findPositions_spec : forall fuel searchPos,
  0 <= searchPos -> JS.length fn - searchPos <= Z.of_nat fuel ->
  let raw := findPositions fn q queryLength searchPos fuel in
  (forall r, r ∈ raw ->
     searchPos <= Span.start r < JS.length fn /\ occursAt fn q (Span.start r) /\
     Span.stop r = Span.start r + queryLength) /\
  (forall k, searchPos <= k < JS.length fn -> occursAt fn q k ->
     Span.mk k (k + queryLength) ∈ raw) /\
  StronglySorted (fun a b => Span.start a < Span.start b) raw.
Proof.
  induction fuel as [|fuel IH]; intros searchPos Hsp Hfuel; cbn [findPositions].
  - split; [intros r Hr; by apply elem_of_nil in Hr|].
    split; [intros k Hk; lia|constructor].
  - destruct (Z.ltb_spec searchPos (JS.length fn)) as [Hlt|Hge]; cycle 1.
    { split; [intros r Hr; by apply elem_of_nil in Hr|].
      split; [intros k Hk; lia|constructor]. }
    destruct (indexOf_round searchPos) as [[Hr Hn]|(Hle & Hocc & Hn)]; [lia| |].
    + rewrite Hr. simpl.
      split; [intros r Hr'; by apply elem_of_nil in Hr'|].
      split; [|constructor]. intros k Hk Hocc. destruct (Hn k); [lia|done].
    + set (index := JS.indexOf fn q searchPos) in *.
      destruct (Z.eqb_spec index (-1)) as [E|_]; [lia|].
      destruct (IH (index + 1)) as (Hin & Hall & Hsorted); [lia|lia|].
      split; [|split].
      * intros r [->|Hr]%elem_of_cons; [simpl; repeat split; (done || lia)|].
        destruct (Hin r Hr) as (? & ? & ?). repeat split; (done || lia).
      * intros k Hk Hocc'. destruct (Z.lt_trichotomy k index) as [Hlt'|[->|Hgt]].
        -- destruct (Hn k); [lia|done].
        -- apply list_elem_of_here.
        -- apply list_elem_of_further, Hall; [lia|done].
      * constructor; [done|]. apply Forall_forall. intros r Hr. simpl.
        destruct (Hin r Hr) as (? & _). lia.
Qed.

(** More fuel than the length of [fn] less [searchPos] changes
    nothing: the loop has ended by itself. *)
Lemma findPositions_fuel : forall fuel fuel' searchPos,
  0 <= searchPos ->
  JS.length fn - searchPos <= Z.of_nat fuel ->
  JS.length fn - searchPos <= Z.of_nat fuel' ->
  findPositions fn q queryLength searchPos fuel
  = findPositions fn q queryLength searchPos fuel'.
Proof.
  induction fuel as [|fuel IH]; intros fuel' searchPos Hsp Hf Hf'.
  - destruct fuel' as [|fuel']; [done|]. cbn [findPositions].
    destruct (Z.ltb_spec searchPos (JS.length fn)); [lia|done].
  - destruct fuel' as [|fuel']; cbn [findPositions].
    + destruct (Z.ltb_spec searchPos (JS.length fn)); [lia|done].
    + destruct (Z.ltb_spec searchPos (JS.length fn)) as [Hlt|Hge]; [|done].
      destruct (indexOf_round searchPos) as [[Hr Hn]|(Hle & Hocc & Hn)]; [lia| |].
      * by rewrite Hr.
      * destruct (_ =? -1); [done|]. f_equal. apply IH; lia.
Qed.

(** The loop, unfolded once: the [while] of the source. *)
Lemma findPositions_unfold searchPos :
  0 <= searchPos ->
  findPositions fn q queryLength searchPos (Z.to_nat (JS.length fn - searchPos))
  = if searchPos <? JS.length fn then
      let index := JS.indexOf fn q searchPos in
      if index =? -1 then []
      else Span.mk index (index + queryLength)
             :: findPositions fn q queryLength (index + 1)
                  (Z.to_nat (JS.length fn - (index + 1)))
    else [].
Proof.
  intros Hsp. destruct (Z.ltb_spec searchPos (JS.length fn)) as [Hlt|Hge].
  - destruct (Z.to_nat (JS.length fn - searchPos)) as [|fuel] eqn:E; [lia|].
    cbn [findPositions]. destruct (Z.ltb_spec searchPos (JS.length fn)); [|lia].
    destruct (indexOf_round searchPos) as [[Hr Hn]|(Hle & Hocc & Hn)]; [lia| |].
    + by rewrite Hr.
    + cbv zeta. destruct (_ =? -1); [done|]. f_equal. apply findPositions_fuel; lia.
  - destruct (Z.to_nat (JS.length fn - searchPos)) as [|fuel] eqn:E; [done|lia].
Qed.

End Occurrences.

(** ** The highlighter: the merging loop *)

Lemma mergeStep_nil pos : mergeStep [] pos = [pos].
Proof. reflexivity. Qed.

Lemma mergeStep_snoc init top pos :
  mergeStep (init ++ [top]) pos =
    if Span.start pos >? Span.stop top then init ++ [top; pos]
    else init ++ [Span.mk (Span.start top) (Z.max (Span.stop top) (Span.stop pos))].
Proof.
  unfold mergeStep. rewrite last_snoc.
  destruct (Span.start pos >? Span.stop top); [by rewrite <- app_assoc|].
  rewrite List.length_app. simpl.
  replace (List.length init + 1 - 1)%nat with (List.length init + 0)%nat by lia.
  by rewrite insert_app_r.
Qed.

Lemma merges_nil : merges [] [].
Proof.
  split; try constructor; intros ? ?; try intros ?;
    match goal with H : _ ∈ [] |- _ => by apply elem_of_nil in H end.
Qed.

Lemma merges_step processed merged pos :
  merges processed merged ->
  (forall r, r ∈ processed -> Span.start r < Span.start pos) ->
  Span.start pos <= Span.stop pos ->
  merges (processed ++ [pos]) (mergeStep merged pos).
Proof.
  intros [Hapart Hproper Hall Hstart Hcov] Hlast Hpos.
  destruct merged as [|top init _] using rev_ind.
  - assert (processed = []) as ->.
    { apply elem_of_nil_inv. intros r Hr. destruct (Hall r Hr) as (m & Hm & _).
      by apply elem_of_nil in Hm. }
    rewrite mergeStep_nil. simpl. split.
    + repeat constructor.
    + by repeat constructor.
    + intros r ->%list_elem_of_singleton. exists pos.
      split; [apply list_elem_of_here|]. unfold within. lia.
    + intros m ->%list_elem_of_singleton. exists pos. split; [apply list_elem_of_here|done].
    + intros m p ->%list_elem_of_singleton Hp. exists pos.
      split; [apply list_elem_of_here|]. split; [unfold within; lia|done].
  - apply StronglySorted_app in Hapart as (Hbefore & Hinit & _).
    assert (Htop : Span.start top <= Span.stop top).
    { rewrite Forall_forall in Hproper. apply Hproper, elem_of_app. right.
      apply list_elem_of_here. }
    assert (Htop' : Span.start top < Span.start pos).
    { destruct (Hstart top) as (r & Hr & <-); [|by apply Hlast].
      apply elem_of_app. right. apply list_elem_of_here. }
    assert (Hbefore' : forall a, a ∈ init -> before a top).
    { intros a Ha. apply Hbefore; [done|apply list_elem_of_here]. }
    rewrite mergeStep_snoc. destruct (Z.gtb_spec (Span.start pos) (Span.stop top)) as [Hgt|Hle].
    + replace (init ++ [top; pos]) with ((init ++ [top]) ++ [pos])
        by (by rewrite <- app_assoc).
      split.
      * apply StronglySorted_app_2; [| |repeat constructor].
        -- intros a b [Ha| ->%list_elem_of_singleton]%elem_of_app ->%list_elem_of_singleton.
           ++ specialize (Hbefore' a Ha). unfold before in *. lia.
           ++ unfold before. lia.
        -- apply StronglySorted_app_2; [done|done|repeat constructor].
      * apply Forall_app. split; [done|]. by repeat constructor.
      * intros r [Hr| ->%list_elem_of_singleton]%elem_of_app.
        -- destruct (Hall r Hr) as (m & Hm & Hw). exists m. split; [|done].
           apply elem_of_app. by left.
        -- exists pos. split; [apply elem_of_app; right; apply list_elem_of_here|].
           unfold within. lia.
      * intros m [Hm| ->%list_elem_of_singleton]%elem_of_app.
        -- destruct (Hstart m Hm) as (r & Hr & E). exists r. split; [|done].
           apply elem_of_app. by left.
        -- exists pos. split; [apply elem_of_app; right; apply list_elem_of_here|done].
      * intros m p [Hm| ->%list_elem_of_singleton]%elem_of_app Hp.
        -- destruct (Hcov m p Hm Hp) as (r & Hr & Hw & Hc). exists r.
           split; [apply elem_of_app; by left|done].
        -- exists pos. split; [apply elem_of_app; right; apply list_elem_of_here|].
           split; [unfold within; lia|done].
    + set (top' := Span.mk (Span.start top) (Z.max (Span.stop top) (Span.stop pos))).
      assert (Hin : forall m, m ∈ init ++ [top'] -> m ∈ init \/ m = top').
      { intros m [?| ->%list_elem_of_singleton]%elem_of_app; tauto. }
      assert (Htop_in : top ∈ init ++ [top]).
      { apply elem_of_app. right. apply list_elem_of_here. }
      assert (Htop'_in : top' ∈ init ++ [top']).
      { apply elem_of_app. right. apply list_elem_of_here. }
      split.
      * apply StronglySorted_app_2; [|done|repeat constructor].
        intros a b Ha ->%list_elem_of_singleton. by apply Hbefore'.
      * apply Forall_app in Hproper as [Hproper _].
        apply Forall_app. split; [done|]. repeat constructor. simpl. lia.
      * intros r [Hr| ->%list_elem_of_singleton]%elem_of_app.
        -- destruct (Hall r Hr) as (m & [Hm| ->%list_elem_of_singleton]%elem_of_app & Hw).
           ++ exists m. split; [apply elem_of_app; by left|done].
           ++ exists top'. split; [done|]. unfold within in *. simpl. lia.
        -- exists top'. split; [done|]. unfold within. simpl. lia.
      * intros m [Hm| ->]%Hin.
        -- destruct (Hstart m) as (r & Hr & E); [apply elem_of_app; by left|].
           exists r. split; [apply elem_of_app; by left|done].
        -- destruct (Hstart top Htop_in) as (r & Hr & E).
           exists r. split; [apply elem_of_app; by left|done].
      * intros m p [Hm| ->]%Hin Hp.
        -- destruct (Hcov m p) as (r & Hr & Hw & Hc); [apply elem_of_app; by left|done|].
           exists r. split; [apply elem_of_app; by left|done].
        -- unfold covers in Hp. simpl in Hp.
           destruct (Z.lt_ge_cases p (Span.stop top)) as [Hlt|Hge].
           ++ destruct (Hcov top p Htop_in) as (r & Hr & Hw & Hc); [unfold covers; lia|].
              exists r. split; [apply elem_of_app; by left|].
              split; [unfold within in *; simpl; lia|done].
           ++ exists pos. split; [apply elem_of_app; right; apply list_elem_of_here|].
              split; [unfold within; simpl; lia|unfold covers; lia].
Qed.

(** The merging loop on occurrences in the order of their starts. *)
Lemma mergePositions_merges positions :
  StronglySorted (fun a b => Span.start a < Span.start b) positions ->
  Forall (fun r => Span.start r <= Span.stop r) positions ->
  merges positions (mergePositions positions).
Proof.
  unfold mergePositions.
  induction positions as [|pos positions IH] using rev_ind; intros Hsorted Hproper.
  - apply merges_nil.
  - rewrite foldl_snoc.
    apply StronglySorted_app in Hsorted as (Hlast & Hsorted & _).
    apply Forall_app in Hproper as [Hproper Hpos].
    apply merges_step.
    + by apply IH.
    + intros r Hr. apply Hlast; [done|apply list_elem_of_here].
    + by inversion Hpos.
Qed.

Lemma mergePositions_nil_inv positions :
  mergePositions positions = [] -> positions = [].
Proof.
  unfold mergePositions.
  destruct positions as [|pos positions _] using rev_ind; [done|].
  rewrite foldl_snoc. generalize (foldl mergeStep [] positions). intros merged.
  destruct merged as [|top init _] using rev_ind.
  - by rewrite mergeStep_nil.
  - rewrite mergeStep_snoc. destruct (_ >? _); intros H; by apply app_nil in H as [_ ?].
Qed.

(** ** The highlighter: the building loop *)

Lemma clamp_mono (n a b : Z) : a <= b -> JS.clamp n a <= JS.clamp n b.
Proof. unfold JS.clamp. lia. Qed.

Lemma substring_drop_take (s : jsstring) (a b : Z) :
  a <= b ->
  JS.substring s a b
  = drop (Z.to_nat (JS.clamp (JS.length s) a))
      (take (Z.to_nat (JS.clamp (JS.length s) b)) s).
Proof.
  intros Hab. unfold JS.substring.
  pose proof (clamp_mono (JS.length s) a b Hab) as Hc.
  pose proof (clamp_range (JS.length s) a (length_nonneg s)) as Ha.
  rewrite Z.min_l, Z.max_r by lia. rewrite take_drop_commute. do 2 f_equal. lia.
Qed.

Lemma substring_app (s : jsstring) (a b c : Z) :
  a <= b -> b <= c ->
  JS.substring s a b ++ JS.substring s b c = JS.substring s a c.
Proof.
  intros Hab Hbc. rewrite !substring_drop_take by lia.
  pose proof (clamp_mono (JS.length s) a b Hab) as Hc1.
  pose proof (clamp_mono (JS.length s) b c Hbc) as Hc2.
  pose proof (clamp_range (JS.length s) a (length_nonneg s)) as Ha.
  set (a' := Z.to_nat (JS.clamp (JS.length s) a)).
  set (b' := Z.to_nat (JS.clamp (JS.length s) b)).
  set (c' := Z.to_nat (JS.clamp (JS.length s) c)).
  replace (take b' s) with (take b' (take c' s))
    by (rewrite take_take; f_equal; lia).
  apply drop_take_drop. lia.
Qed.

Lemma substring_same (s : jsstring) (a : Z) : JS.substring s a a = [].
Proof.
  unfold JS.substring.
  match goal with |- take ?n _ = _ => replace n with 0%nat by lia end. done.
Qed.

Lemma substring_all (s : jsstring) : JS.substring s 0 (JS.length s) = s.
Proof.
  rewrite substring_drop_take by apply length_nonneg.
  unfold JS.clamp, JS.length. rewrite Z.max_l, Z.min_l by lia. simpl.
  rewrite Z.max_l, Z.min_r, Nat2Z.id by lia. by rewrite firstn_all.
Qed.

Lemma substringFrom_all (s : jsstring) (a : Z) :
  0 <= a -> JS.substring s 0 a ++ JS.substringFrom s a = s.
Proof.
  intros Ha. unfold JS.substringFrom.
  destruct (Z.le_gt_cases a (JS.length s)) as [Hle|Hgt].
  - rewrite substring_app by lia. apply substring_all.
  - replace (JS.substring s a (JS.length s)) with (@nil N).
    + rewrite app_nil_r, substring_drop_take by lia.
      unfold JS.clamp, JS.length in *. rewrite Z.max_l, Z.min_l by lia. simpl.
      rewrite Z.max_l, Z.min_r, Nat2Z.id by lia. by rewrite firstn_all.
    + unfold JS.substring.
      match goal with |- _ = take ?n _ => replace n with 0%nat end; [done|].
      unfold JS.clamp, JS.length in *. lia.
Qed.

Section Building.

Variable filename : jsstring.

Lemma segments_concat : forall merged segments lastEnd,
  0 <= lastEnd ->
  StronglySorted before merged ->
  Forall (fun m => Span.start m <= Span.stop m) merged ->
  Forall (fun m => lastEnd <= Span.start m) merged ->
  concat (map segmentText segments) = JS.substring filename 0 lastEnd ->
  let final := foldl (segmentStep filename) (segments, lastEnd) merged in
  concat (map segmentText final.1) = JS.substring filename 0 final.2 /\
  0 <= final.2.
Proof.
  induction merged as [|m merged IH]; intros segments lastEnd Hl Hs Hp Hf Hc; simpl.
  - done.
  - apply StronglySorted_cons in Hs as [Hm Hs].
    inversion Hp as [|? ? Hpm Hp']; subst. inversion Hf as [|? ? Hfm Hf']; subst.
    apply IH; [lia|done|done| |].
    + eapply Forall_impl; [exact Hm|]. unfold before. simpl. intros; lia.
    + rewrite map_app, concat_app, Hc. simpl. rewrite app_nil_r, app_assoc.
      rewrite substring_app by lia. by rewrite substring_app by lia.
Qed.

Lemma build_render : forall merged result segments lastEnd,
  result = concat (map render segments) ->
  let built := foldl (buildStep filename) (result, lastEnd) merged in
  let final := foldl (segmentStep filename) (segments, lastEnd) merged in
  built.1 = concat (map render final.1) /\ built.2 = final.2.
Proof.
  induction merged as [|m merged IH]; intros result segments lastEnd Hr; simpl.
  - done.
  - apply IH. rewrite map_app, concat_app, <- Hr. simpl.
    by rewrite app_nil_r, <- !app_assoc.
Qed.

End Building.

Section HighlighterFacts.

Variable toLowerCase : jsstring -> jsstring.

Lemma rawSpans_spec filename query caseSensitive :
  let fn := normalize toLowerCase caseSensitive filename in
  let q := normalize toLowerCase caseSensitive query in
  let raw := rawSpans toLowerCase filename query caseSensitive in
  (forall r, r ∈ raw ->
     0 <= Span.start r < JS.length fn /\ occursAt fn q (Span.start r) /\
     Span.stop r = Span.start r + JS.length query) /\
  (query <> [] -> forall k, 0 <= k < JS.length fn -> occursAt fn q k ->
     Span.mk k (k + JS.length query) ∈ raw) /\
  StronglySorted (fun a b => Span.start a < Span.start b) raw.
Proof.
  intros fn q raw. unfold raw, rawSpans. destruct query as [|c query'].
  - split; [intros r Hr; by apply elem_of_nil in Hr|]. split; [done|constructor].
  - fold fn q.
    destruct (findPositions_spec fn q (JS.length (c :: query')) (List.length fn) 0)
      as (Hin & Hall & Hsorted); [lia|unfold JS.length; lia|].
    split; [done|]. split; [|done]. intros _. apply Hall.
Qed.

Lemma rawSpans_proper filename query caseSensitive :
  Forall (fun r => Span.start r <= Span.stop r)
    (rawSpans toLowerCase filename query caseSensitive).
Proof.
  apply Forall_forall. intros r Hr.
  destruct (rawSpans_spec filename query caseSensitive) as (Hin & _).
  destruct (Hin r Hr) as (_ & _ & ->). pose proof (length_nonneg query). lia.
Qed.

Lemma mergedSpans_merges filename query caseSensitive :
  merges (rawSpans toLowerCase filename query caseSensitive)
    (mergedSpans toLowerCase filename query caseSensitive).
Proof.
  apply mergePositions_merges; [|apply rawSpans_proper].
  by destruct (rawSpans_spec filename query caseSensitive) as (_ & _ & ?).
Qed.

(** The result, from the spans. *)
Lemma highlight_spans filename query caseSensitive :
  highlight toLowerCase filename query caseSensitive =
    match rawSpans toLowerCase filename query caseSensitive with
    | [] => [Literal filename]
    | _ :: _ =>
        let final :=
          foldl (segmentStep filename) ([], 0)
            (mergedSpans toLowerCase filename query caseSensitive) in
        final.1 ++ [Literal (JS.substringFrom filename final.2)]
    end.
Proof.
  unfold highlight, mergedSpans, rawSpans. destruct query as [|c query']; [done|].
  destruct (findPositions _ _ _ _ _); [done|]. cbv zeta. by destruct (foldl _ _ _).
Qed.

(** Joined, the pieces are the result string. *)
Lemma boldMatchingText_segments filename query caseSensitive :
  _boldMatchingText toLowerCase filename query caseSensitive
  = concat (map render (highlight toLowerCase filename query caseSensitive)).
Proof.
  unfold _boldMatchingText, highlight. destruct query as [|c query'].
  { simpl. by rewrite app_nil_r. }
  destruct (findPositions _ _ _ _ _) as [|pos positions].
  { simpl. by rewrite app_nil_r. }
  destruct (build_render filename (mergePositions (pos :: positions)) [] [] 0 eq_refl)
    as [H1 H2].
  destruct (foldl (buildStep filename) _ _) as [result lastEnd].
  destruct (foldl (segmentStep filename) _ _) as [segments lastEnd'].
  simpl in *. subst. rewrite map_app, concat_app. simpl. by rewrite app_nil_r.
Qed.

(** The pieces, put together again, are the name as it was. *)
Lemma highlight_concat filename query caseSensitive :
  concat (map segmentText (highlight toLowerCase filename query caseSensitive))
  = filename.
Proof.
  rewrite highlight_spans.
  destruct (rawSpans toLowerCase filename query caseSensitive) eqn:E.
  { simpl. by rewrite app_nil_r. }
  pose proof (mergedSpans_merges filename query caseSensitive) as [Hapart Hproper _ Hstart _].
  destruct (segments_concat filename
              (mergedSpans toLowerCase filename query caseSensitive) [] 0)
    as [Hc Hl]; [done|done|done| |by rewrite substring_same|].
  - apply Forall_forall. intros m Hm. destruct (Hstart m Hm) as (r & Hr & <-).
    destruct (rawSpans_spec filename query caseSensitive) as (Hin & _).
    destruct (Hin r Hr) as ([? _] & _). done.
  - cbv zeta. rewrite map_app, concat_app, Hc. simpl. rewrite app_nil_r.
    by apply substringFrom_all.
Qed.

(** Without an occurrence the name comes back as it is. *)
Lemma rawSpans_none filename query caseSensitive :
  ~ contains (normalize toLowerCase caseSensitive filename)
      (normalize toLowerCase caseSensitive query) ->
  rawSpans toLowerCase filename query caseSensitive = [].
Proof.
  intros Hnone.
  destruct (rawSpans toLowerCase filename query caseSensitive) as [|r raw] eqn:E; [done|].
  destruct (rawSpans_spec filename query caseSensitive) as (Hin & _).
  destruct (Hin r) as (_ & Hocc & _); [rewrite E; apply list_elem_of_here|].
  destruct Hnone. by eexists.
Qed.

Lemma highlight_none filename query caseSensitive :
  ~ contains (normalize toLowerCase caseSensitive filename)
      (normalize toLowerCase caseSensitive query) ->
  highlight toLowerCase filename query caseSensitive = [Literal filename] /\
  _boldMatchingText toLowerCase filename query caseSensitive = filename.
Proof.
  intros Hnone. rewrite boldMatchingText_segments, highlight_spans.
  rewrite (rawSpans_none _ _ _ Hnone). simpl. by rewrite app_nil_r.
Qed.

End HighlighterFacts.

(** ** The basename *)

Lemma startsWith_dot (s : jsstring) :
  JS.startsWith s dot = match s with c :: _ => (46 =? c)%N | [] => false end.
Proof. destruct s as [|c s]; [done|]. simpl. destruct s; apply andb_true_r. Qed.

Lemma lastIndexOfFrom_no_dot : forall (s : jsstring) (k found : Z),
  46%N ∉ s -> JS.lastIndexOfFrom s dot k found = found.
Proof.
  induction s as [|c s IH]; intros k found Hs; cbn [JS.lastIndexOfFrom];
    rewrite startsWith_dot; [done|].
  apply not_elem_of_cons in Hs as [Hc Hs].
  destruct (N.eqb_spec 46 c) as [E|_]; [done|]. by apply IH.
Qed.

Lemma lastIndexOfFrom_last_dot (r : jsstring) : forall (l : jsstring) (k found : Z),
  46%N ∉ r ->
  JS.lastIndexOfFrom (l ++ 46%N :: r) dot k found = k + JS.length l.
Proof.
  intros l k found Hr. revert k found.
  induction l as [|c l IH]; intros k found; cbn [app JS.lastIndexOfFrom];
    rewrite startsWith_dot.
  - simpl. rewrite lastIndexOfFrom_no_dot by done. unfold JS.length. simpl. lia.
  - rewrite IH. unfold JS.length. simpl. lia.
Qed.

(** The basename is the name before its last dot, unless that dot is
    the first code unit or there is none: then it is the whole name. *)
Lemma getBasename_spec (filename : jsstring) :
  (forall l r, filename = l ++ 46%N :: r -> 46%N ∉ r -> l <> [] ->
     _getBasename filename = l) /\
  (forall r, filename = 46%N :: r -> 46%N ∉ r -> _getBasename filename = filename) /\
  (46%N ∉ filename -> _getBasename filename = filename).
Proof.
  unfold _getBasename, JS.lastIndexOf. split; [|split].
  - intros l r -> Hr Hl. rewrite lastIndexOfFrom_last_dot by done.
    assert (0 < JS.length l) by (destruct l; [done|unfold JS.length; simpl; lia]).
    destruct (Z.gtb_spec (0 + JS.length l) 0); [|lia].
    rewrite substring_drop_take by lia. unfold JS.clamp.
    rewrite length_app, (Z.max_l 0), (Z.min_l 0), Z.max_l, Z.min_l
      by (pose proof (length_nonneg (46%N :: r)); lia).
    replace (Z.to_nat (0 + JS.length l)) with (List.length l)
      by (unfold JS.length; lia).
    simpl. by rewrite take_app_length.
  - intros r -> Hr. rewrite (lastIndexOfFrom_last_dot r []) by done. done.
  - intros Hs. by rewrite lastIndexOfFrom_no_dot.
Qed.

(** ** Lowercasing in Latin-1 *)

Lemma toLowerCaseLatin_units (s : jsstring) :
  304%N ∉ s -> toLowerCaseLatin s = map lowerLatin s.
Proof.
  induction s as [|c s IH]; intros Hs; [done|].
  apply not_elem_of_cons in Hs as [Hc Hs].
  unfold toLowerCaseLatin in *. simpl. rewrite IH by done.
  unfold lowerLatin, lowerUnit.
  destruct (_ && _)%N; [done|]. destruct (_ && _)%N; [done|].
  destruct (N.eqb_spec c 304); [congruence|done].
Qed.

(** ** The matched pieces, where lowercasing goes code unit by code unit *)

Lemma occursAt_substring (s q : jsstring) (a b k : Z) :
  0 <= a <= k -> k + JS.length q <= b -> occursAt s q k ->
  occursAt (JS.substring s a b) q (k - a).
Proof.
  intros Ha Hb (l & r & -> & Hl).
  pose proof (length_nonneg q) as Hq. pose proof (length_nonneg r) as Hr.
  rewrite substring_drop_take by lia.
  rewrite !length_app. unfold JS.clamp.
  rewrite (Z.max_l a), (Z.min_l a), (Z.max_l b) by lia.
  set (e := Z.min b (JS.length l + (JS.length q + JS.length r))).
  assert (He : k + JS.length q <= e) by lia.
  exists (drop (Z.to_nat a) l), (take (Z.to_nat e - List.length l - List.length q) r).
  unfold JS.length in *. split.
  - rewrite take_app_ge by lia. rewrite take_app_ge by lia.
    rewrite drop_app_le by lia. done.
  - rewrite length_drop. lia.
Qed.

Lemma length_substring (s : jsstring) (a b : Z) :
  0 <= a <= b ->
  JS.length (JS.substring s a b)
  = Z.min b (JS.length s) - Z.min a (JS.length s).
Proof.
  intros Hab. rewrite substring_drop_take by lia.
  unfold JS.length, JS.clamp. rewrite length_drop, length_take. lia.
Qed.

Lemma segments_matched (filename : jsstring) : forall merged segments lastEnd g,
  g ∈ (foldl (segmentStep filename) (segments, lastEnd) merged).1 ->
  isMatched g = true ->
  g ∈ segments \/
  exists m, m ∈ merged /\
    g = Matched (JS.substring filename (Span.start m) (Span.stop m)).
Proof.
  induction merged as [|m merged IH]; intros segments lastEnd g Hg Hm; simpl in Hg.
  - by left.
  - destruct (IH _ _ _ Hg Hm) as [Hin|(m' & Hm' & ->)].
    + apply elem_of_app in Hin as [Hin|Hin]; [by left|].
      apply elem_of_cons in Hin as [->|Hin]; [done|].
      apply list_elem_of_singleton in Hin as ->.
      right. exists m. split; [apply list_elem_of_here|done].
    + right. exists m'. split; [by apply list_elem_of_further|done].
Qed.

Section UnitwiseFolding.

Variable toLowerCase : jsstring -> jsstring.
Variable caseSensitive : bool.
Variable f : N -> N.

(** Normalizing maps code unit to code unit: as it does when the
    search is case-sensitive, and as lowercasing does on names and
    queries in Basic Latin. *)
Hypothesis normalize_units :
  forall s, normalize toLowerCase caseSensitive s = map f s.

Lemma normalize_length s :
  JS.length (normalize toLowerCase caseSensitive s) = JS.length s.
Proof. rewrite normalize_units. unfold JS.length. by rewrite length_map. Qed.

Lemma normalize_substring s a b :
  normalize toLowerCase caseSensitive (JS.substring s a b)
  = JS.substring (normalize toLowerCase caseSensitive s) a b.
Proof.
  rewrite !normalize_units. unfold JS.substring, JS.length.
  rewrite length_map. by rewrite skipn_map, firstn_map.
Qed.

(** Each matched piece, normalized, is made of occurrences of the
    normalized query. *)
Lemma matched_segments_occurrences filename query g :
  g ∈ highlight toLowerCase filename query caseSensitive ->
  isMatched g = true ->
  madeOfOccurrences (normalize toLowerCase caseSensitive (segmentText g))
    (normalize toLowerCase caseSensitive query).
Proof.
  intros Hg Hm. rewrite highlight_spans in Hg.
  destruct (rawSpans toLowerCase filename query caseSensitive) as [|r0 raw0] eqn:E.
  { apply list_elem_of_singleton in Hg as ->. done. }
  cbv zeta in Hg. apply elem_of_app in Hg as [Hg|Hg]; cycle 1.
  { apply list_elem_of_singleton in Hg as ->. done. }
  destruct (segments_matched _ _ _ _ _ Hg Hm) as [Hnil|(m & Hmerged & ->)].
  { by apply elem_of_nil in Hnil. }
  pose proof (mergedSpans_merges toLowerCase filename query caseSensitive)
    as [_ Hproper _ Hstart Hcov].
  destruct (rawSpans_spec toLowerCase filename query caseSensitive) as (Hin & _).
  simpl. rewrite normalize_substring.
  set (fn := normalize toLowerCase caseSensitive filename) in *.
  set (q := normalize toLowerCase caseSensitive query) in *.
  assert (Hs : 0 <= Span.start m).
  { destruct (Hstart m Hmerged) as (r & Hr & <-). by destruct (Hin r Hr) as ([? _] & _). }
  assert (Hp : Span.start m <= Span.stop m).
  { rewrite Forall_forall in Hproper. by apply Hproper. }
  intros p Hrange. rewrite length_substring in Hrange by lia.
  destruct (Hcov m (Span.start m + p)) as (r & Hr & [Hw1 Hw2] & [Hc1 Hc2]);
    [done|unfold covers; lia|].
  destruct (Hin r Hr) as (_ & Hocc & Hstop).
  assert (Hq : JS.length q = JS.length query) by apply normalize_length.
  exists (Span.start r - Span.start m). split.
  - apply occursAt_substring; [lia|lia|done].
  - lia.
Qed.

End UnitwiseFolding.

(** In a case-sensitive search nothing is lowercased, and every matched
    piece is made of occurrences of the query. *)
Lemma matched_segments_caseSensitive toLowerCase filename query g :
  g ∈ highlight toLowerCase filename query true ->
  isMatched g = true ->
  madeOfOccurrences (segmentText g) query.
Proof.
  intros Hg Hm.
  apply (matched_segments_occurrences toLowerCase true (fun c => c)
           (fun s => eq_sym (map_id s)) filename query g Hg Hm).
Qed.

(** ** The claims on the highlighter *)

Lemma StronglySorted_lookup {A : Type} (R : A -> A -> Prop) (l : list A) :
  StronglySorted R l ->
  forall i j a b, (i < j)%nat -> l !! i = Some a -> l !! j = Some b -> R a b.
Proof.
  induction 1 as [|x l Hs IH Hx]; intros i j a b Hij Hi Hj; [done|].
  destruct j as [|j]; [lia|]. destruct i as [|i]; simpl in *.
  - injection Hi as ->. rewrite Forall_forall in Hx.
    by apply Hx, list_elem_of_lookup_2 with j.
  - apply (IH i j); (done || lia).
Qed.

(** C4, at the input that tells: the name U+0130 a b (capital I with
    dot above, then "ab"), the query "a", case-insensitive. The
    lowercase name has four code units, "a" at index 2; the offsets 2
    and 3 are then taken in the name itself, of three code units, where
    they hold "b": the piece marked as matched is "b", which is not
    made of occurrences of the query. The pieces still join to the
    name, as they do for every input ([highlight_concat]); and where
    lowercasing goes code unit by code unit, the matched pieces are
    made of occurrences ([matched_segments_occurrences]). *)
Theorem highlight_offsets_of_lowercase_name :
  let filename := [304; 97; 98]%N in
  let query := js "a" in
  toLowerCaseLatin filename = [105; 775; 97; 98]%N /\
  rawSpans toLowerCaseLatin filename query false = [Span.mk 2 3] /\
  highlight toLowerCaseLatin filename query false
  = [Literal [304; 97]%N; Matched (js "b"); Literal []] /\
  _boldMatchingText toLowerCaseLatin filename query false
  = [304; 97]%N ++ js "**b**" /\
  exists g, g ∈ highlight toLowerCaseLatin filename query false /\
    isMatched g = true /\
    ~ madeOfOccurrences (normalize toLowerCaseLatin false (segmentText g))
        (normalize toLowerCaseLatin false query).
Proof.
  intros filename query. do 4 (split; [reflexivity|]).
  exists (Matched (js "b")). split; [|split; [reflexivity|]].
  - apply list_elem_of_further, list_elem_of_here.
  - intros Hmade. destruct (Hmade 0) as (k & Hk & _); [by vm_compute|].
    assert (Hc : contains (toLowerCaseLatin (js "b")) (toLowerCaseLatin (js "a")))
      by (by exists k).
    by apply includes_contains in Hc.
Qed.

(** On their offsets, which are offsets of the normalized name, the
    merged spans are apart (each starts after the end of every span
    before it, never at it), every span found lies within a merged
    span, and a merged span is covered by the spans found within it.
    The spans found start at the occurrences of the normalized query in
    the normalized name, all of them, and are as long as the query as
    given. For the name [aaa] and the query [aa], case-insensitive,
    the spans found at 0 and 1 merge into the one span from 0 to 3. *)
Lemma mergedSpans_apart_and_covering :
  (forall toLowerCase filename query caseSensitive,
     let fn := normalize toLowerCase caseSensitive filename in
     let q := normalize toLowerCase caseSensitive query in
     let raw := rawSpans toLowerCase filename query caseSensitive in
     let merged := mergedSpans toLowerCase filename query caseSensitive in
     (forall i j a b, (i < j)%nat -> merged !! i = Some a -> merged !! j = Some b ->
        Span.stop a < Span.start b) /\
     (forall r, r ∈ raw -> exists m, m ∈ merged /\ within r m) /\
     (forall m p, m ∈ merged -> covers m p ->
        exists r, r ∈ raw /\ within r m /\ covers r p) /\
     (forall r, r ∈ raw ->
        occursAt fn q (Span.start r) /\
        Span.stop r = Span.start r + JS.length query) /\
     (forall k, query <> [] -> 0 <= k < JS.length fn -> occursAt fn q k ->
        Span.mk k (k + JS.length query) ∈ raw)) /\
  rawSpans toLowerCaseLatin (js "aaa") (js "aa") false = [Span.mk 0 2; Span.mk 1 3] /\
  mergedSpans toLowerCaseLatin (js "aaa") (js "aa") false = [Span.mk 0 3] /\
  highlight toLowerCaseLatin (js "aaa") (js "aa") false
  = [Literal []; Matched (js "aaa"); Literal []].
Proof.
  split; [|by repeat split].
  intros toLowerCase filename query caseSensitive fn q raw merged.
  pose proof (mergedSpans_merges toLowerCase filename query caseSensitive)
    as [Hapart _ Hall _ Hcov].
  destruct (rawSpans_spec toLowerCase filename query caseSensitive)
    as (Hin & Hfound & _).
  split; [|split; [done|split; [done|split]]].
  - intros i j a b Hij Hi Hj. by apply (StronglySorted_lookup _ _ Hapart i j).
  - intros r Hr. by destruct (Hin r Hr) as (_ & ? & ?).
  - intros k Hq. by apply Hfound.
Qed.

(** C5, at the inputs that tell, both case-insensitive and both let
    through by the filter of the search.

    The name of three U+0130 (capital I with dot above) then "aXa",
    the query "a": the lowercase name has nine code units, "a" at 6
    and at 8, and the two spans from 6 to 7 and from 8 to 9 are apart
    there. Taken in the name itself, of six code units, both are
    empty and so is the text between them: the highlighter emits the
    whole name, then two empty matched spans with nothing between.

    The name "x" then twice U+0069 U+0307, the query U+0130: the
    lowercase query has two code units and occurs at 1 and at 3, two
    occurrences that touch (from 1 to 3, from 3 to 5). The spans get
    the length of the query as given, 1, so they are from 1 to 2 and
    from 3 to 4 and stay two: the occurrences that touch are not
    merged into one span.

    On the offsets of the normalized name the merged spans are apart
    for every input ([mergedSpans_apart_and_covering]), and so are
    the "aaa" and "aa" of the example. *)
Theorem matched_spans_touch_in_name :
  (let filename := [304; 304; 304; 97; 88; 97]%N in
   let query := js "a" in
   let pieces := highlight toLowerCaseLatin filename query false in
   toLowerCaseLatin filename = [105; 775; 105; 775; 105; 775; 97; 120; 97]%N /\
   accepts toLowerCaseLatin jsstring unit plainRegExp plainTest jsstring
     (fun file => file) (Message.mk query false false) filename = Normal true /\
   mergedSpans toLowerCaseLatin filename query false = [Span.mk 6 7; Span.mk 8 9] /\
   pieces = [Literal filename; Matched []; Literal []; Matched []; Literal []] /\
   _boldMatchingText toLowerCaseLatin filename query false
   = filename ++ js "********" /\
   exists i a b,
     pieces !! i = Some (Matched a) /\
     pieces !! S i = Some (Literal []) /\
     pieces !! S (S i) = Some (Matched b)) /\
  (let filename := [120; 105; 775; 105; 775]%N in
   let query := [304]%N in
   let fn := normalize toLowerCaseLatin false filename in
   let q := normalize toLowerCaseLatin false query in
   fn = filename /\ q = [105; 775]%N /\
   accepts toLowerCaseLatin jsstring unit plainRegExp plainTest jsstring
     (fun file => file) (Message.mk query false false) filename = Normal true /\
   occursAt fn q 1 /\ occursAt fn q 3 /\ 1 + JS.length q = 3 /\
   rawSpans toLowerCaseLatin filename query false = [Span.mk 1 2; Span.mk 3 4] /\
   mergedSpans toLowerCaseLatin filename query false = [Span.mk 1 2; Span.mk 3 4] /\
   highlight toLowerCaseLatin filename query false
   = [Literal [120]%N; Matched [105]%N; Literal [775]%N; Matched [105]%N;
      Literal [775]%N] /\
   _boldMatchingText toLowerCaseLatin filename query false
   = [120]%N ++ js "**i**" ++ [775]%N ++ js "**i**" ++ [775]%N).
Proof.
  split.
  - intros filename query pieces. do 5 (split; [reflexivity|]).
    exists 1%nat, [], []. by repeat split.
  - intros filename query fn q. do 3 (split; [reflexivity|]).
    split; [|split].
    + exists [120]%N, [105; 775]%N. by split.
    + exists [120; 105; 775]%N, []. by split.
    + by repeat split.
Qed.

(** ** The claims on the filter of the search *)

Lemma filterC_total {E A : Type} (f : A -> completion E bool) (g : A -> bool) l :
  (forall x, f x = Normal (g x)) -> filterC f l = Normal (List.filter g l).
Proof.
  intros Hf. induction l as [|x l IH]; simpl; [done|].
  rewrite Hf, IH. by destruct (g x).
Qed.

Section SearchFacts.

Variable toLowerCase : jsstring -> jsstring.
Variable localeCompare : jsstring -> jsstring -> Z.
Variable RegExp : Type.
Variable Error : Type.
Variable newRegExp : jsstring -> jsstring -> completion Error RegExp.
Variable test : RegExp -> jsstring -> bool.
Variable File : Type.
Variable basename : File -> jsstring.

Local Abbreviation accepts_ := (accepts toLowerCase RegExp Error newRegExp test File basename).
Local Abbreviation search_ :=
  (search toLowerCase localeCompare RegExp Error newRegExp test File basename).

Lemma accepts_plain data file :
  Message.useRegex data = false ->
  accepts_ data file
  = Normal (JS.includes
              (normalize toLowerCase (Message.caseSensitive data) (basename file))
              (normalize toLowerCase (Message.caseSensitive data) (Message.value data))).
Proof.
  intros Hr. unfold accepts. rewrite Hr.
  by destruct (Message.caseSensitive data).
Qed.

Lemma accepts_invalid data file e :
  Message.useRegex data = true ->
  newRegExp (Message.value data)
    (if Message.caseSensitive data then js "" else js "i") = Throw e ->
  accepts_ data file = Normal false.
Proof. intros Hr He. unfold accepts. by rewrite Hr, He. Qed.


Lemma search_plain data allFiles :
  Message.useRegex data = false -> Message.value data <> [] ->
  exists results,
    search_ data allFiles = Normal results /\
    forall file, file ∈ map uri results <->
      file ∈ allFiles /\
      contains (normalize toLowerCase (Message.caseSensitive data) (basename file))
        (normalize toLowerCase (Message.caseSensitive data) (Message.value data)).
Proof.
  intros Hr Hv. unfold search. destruct (Message.value data) eqn:Ev; [done|].
  rewrite (filterC_total _ _ _ (fun file => accepts_plain data file Hr)).
  eexists. split; [done|]. intros file.
  rewrite sort_Permutation, map_map. simpl. rewrite map_id.
  rewrite list_elem_of_In, filter_In, <- list_elem_of_In, includes_contains, Ev. tauto.
Qed.

End SearchFacts.

(** C7: in regex mode, when the host refuses the query as a regular
    expression, the search posts no results and ends normally: the
    [catch] of the filter answers [false] for every file, and nothing
    is thrown. *)
Theorem invalid_regex_no_results
  toLowerCase localeCompare (RegExp Error : Type)
  (newRegExp : jsstring -> jsstring -> completion Error RegExp) test
  (File : Type) (basename : File -> jsstring) data allFiles e :
  Message.useRegex data = true ->
  newRegExp (Message.value data)
    (if Message.caseSensitive data then js "" else js "i") = Throw e ->
  search toLowerCase localeCompare RegExp Error newRegExp test File basename
    data allFiles = Normal [].
Proof.
  intros Hregex Hthrow. unfold search.
  destruct (Message.value data) eqn:Hvalue; [done|].
  rewrite (filterC_total _ (fun _ => false)).
  - replace (List.filter (fun _ => false) allFiles) with (@nil File); [done|].
    induction allFiles; simpl; done.
  - intros file. apply (accepts_invalid _ _ _ newRegExp _ _ _ data file e Hregex).
    by rewrite Hvalue.
Qed.

Lemma invalid_regex_no_results_witness :
  search toLowerCaseLatin compareCodeUnits jsstring unit plainRegExp plainTest
    jsstring (fun file => file)
    (Message.mk (js "(") false true) [js "a(b).txt"; js "main.c"]
  = Normal [].
Proof.
  apply (invalid_regex_no_results toLowerCaseLatin compareCodeUnits jsstring unit
           plainRegExp plainTest jsstring (fun file => file)
           (Message.mk (js "(") false true) [js "a(b).txt"; js "main.c"] tt);
    reflexivity.
Defined.

(** C8: without regex, the filter lets a file through exactly when its
    name, lowercased unless the search is case-sensitive, contains the
    query, treated alike; the results of a search with a query are the
    files that pass; and when the query occurs nowhere in the name, the
    highlighter gives the name back as one literal piece, unchanged. *)
Theorem plain_filter_and_no_match :
  (forall toLowerCase (RegExp Error : Type)
          (newRegExp : jsstring -> jsstring -> completion Error RegExp) test
          (File : Type) (basename : File -> jsstring) data file,
     Message.useRegex data = false ->
     exists passes,
       accepts toLowerCase RegExp Error newRegExp test File basename data file
       = Normal passes /\
       (passes = true <->
        contains (normalize toLowerCase (Message.caseSensitive data) (basename file))
          (normalize toLowerCase (Message.caseSensitive data) (Message.value data)))) /\
  (forall toLowerCase localeCompare (RegExp Error : Type)
          (newRegExp : jsstring -> jsstring -> completion Error RegExp) test
          (File : Type) (basename : File -> jsstring) data allFiles,
     Message.useRegex data = false -> Message.value data <> [] ->
     exists results,
       search toLowerCase localeCompare RegExp Error newRegExp test File basename
         data allFiles = Normal results /\
       forall file, file ∈ map uri results <->
         file ∈ allFiles /\
         contains (normalize toLowerCase (Message.caseSensitive data) (basename file))
           (normalize toLowerCase (Message.caseSensitive data) (Message.value data))) /\
  (forall toLowerCase filename query caseSensitive,
     ~ contains (normalize toLowerCase caseSensitive filename)
         (normalize toLowerCase caseSensitive query) ->
     highlight toLowerCase filename query caseSensitive = [Literal filename] /\
     _boldMatchingText toLowerCase filename query caseSensitive = filename).
Proof.
  split; [|split].
  - intros. eexists. split; [by apply accepts_plain|]. apply includes_contains.
  - intros. by apply search_plain.
  - intros. by apply highlight_none.
Qed.

Lemma plain_filter_and_no_match_witness :
  (exists passes,
     accepts toLowerCaseLatin jsstring unit plainRegExp plainTest jsstring
       (fun file => file) (Message.mk (js "File") true false) (js "file.txt")
     = Normal passes /\
     (passes = true <->
      contains (normalize toLowerCaseLatin true (js "file.txt"))
        (normalize toLowerCaseLatin true (js "File")))) /\
  (highlight toLowerCaseLatin (js "file.txt") (js "File") true
   = [Literal (js "file.txt")] /\
   _boldMatchingText toLowerCaseLatin (js "file.txt") (js "File") true = js "file.txt").
Proof.
  split.
  - apply (proj1 plain_filter_and_no_match). reflexivity.
  - apply (proj2 (proj2 plain_filter_and_no_match)). apply includes_false. reflexivity.
Defined.

(** ** The webview's extension filter *)

Lemma endsWith_suffix (s q : jsstring) :
  JS.endsWith s q = true <-> q `suffix_of` s.
Proof.
  unfold JS.endsWith, JS.length.
  destruct (Z.ltb_spec (Z.of_nat (List.length s)) (Z.of_nat (List.length q))) as [Hlt|Hge].
  - split; [done|]. intros [k ->]. rewrite List.length_app in Hlt. lia.
  - rewrite startsWith_prefix.
    replace (Z.to_nat (Z.of_nat (List.length s) - Z.of_nat (List.length q)))
      with (List.length s - List.length q)%nat by lia.
    split.
    + intros [r Hr]. exists (take (List.length s - List.length q) s).
      assert (r = []) as ->.
      { apply (f_equal List.length) in Hr.
        rewrite length_drop, List.length_app in Hr. destruct r; [done|]. simpl in Hr. lia. }
      rewrite app_nil_r in Hr.
      transitivity (take (List.length s - List.length q) s
                    ++ drop (List.length s - List.length q) s);
        [symmetry; apply take_drop|by rewrite Hr].
    + intros [k ->]. rewrite List.length_app.
      replace (List.length k + List.length q - List.length q)%nat
        with (List.length k) by lia.
      by rewrite drop_app_length.
Qed.

Lemma split_cons (c : N) (s : jsstring) :
  split (c :: s) =
    if (c =? comma)%N then [] :: split s
    else match split s with
         | piece :: pieces => (c :: piece) :: pieces
         | [] => [[c]]
         end.
Proof. reflexivity. Qed.

Lemma split_nonempty (s : jsstring) : split s <> [].
Proof.
  induction s as [|c s IH]; [done|]. rewrite split_cons.
  destruct (c =? comma)%N; [done|]. by destruct (split s).
Qed.

Lemma joinCommas_cons (piece : jsstring) (pieces : list jsstring) :
  pieces <> [] -> joinCommas (piece :: pieces) = piece ++ comma :: joinCommas pieces.
Proof. by destruct pieces. Qed.

Lemma joinCommas_cons_cons (c : N) (piece : jsstring) (pieces : list jsstring) :
  joinCommas ((c :: piece) :: pieces) = c :: joinCommas (piece :: pieces).
Proof. by destruct pieces. Qed.

(** [split] cuts at the commas: the pieces have none, and joined with
    commas they are the text. *)
Lemma split_joinCommas (s : jsstring) :
  joinCommas (split s) = s /\ Forall (fun piece => comma ∉ piece) (split s).
Proof.
  induction s as [|c s [IHj IHf]].
  - split; [done|]. repeat constructor. by intros ?%elem_of_nil.
  - rewrite split_cons. pose proof (split_nonempty s) as Hne.
    destruct (N.eqb_spec c comma) as [->|Hc].
    + split; [|constructor; [by intros ?%elem_of_nil|done]].
      by rewrite joinCommas_cons, IHj.
    + destruct (split s) as [|piece pieces]; [done|].
      apply Forall_cons in IHf as [Hp Hps]. split.
      * by rewrite joinCommas_cons_cons, IHj.
      * constructor; [|done]. intros [?|?]%elem_of_cons; done.
Qed.

Section ApplyFilterFacts.

Variable toLowerCase : jsstring -> jsstring.
Variable Result : Type.
Variable label : Result -> jsstring.

Lemma parseSuffixes_elem_of filterValue suffix :
  suffix ∈ parseSuffixes toLowerCase filterValue <->
  suffix <> [] /\
  exists piece, piece ∈ split filterValue /\ suffix = toLowerCase (trim piece).
Proof.
  unfold parseSuffixes.
  rewrite list_elem_of_In, filter_In, in_map_iff. split.
  - intros [(piece & <- & Hp) Ht]. split; [by destruct (toLowerCase _)|].
    exists piece. by rewrite list_elem_of_In.
  - intros [Hne (piece & Hp & ->)]. split.
    + exists piece. by rewrite <- list_elem_of_In.
    + by destruct (toLowerCase _).
Qed.

Lemma normalizeSuffix_dot suffix :
  normalizeSuffix suffix = suffix /\ dot `prefix_of` suffix \/
  normalizeSuffix suffix = dot ++ suffix /\ ~ dot `prefix_of` suffix.
Proof.
  unfold normalizeSuffix. destruct (JS.startsWith suffix dot) eqn:E.
  - left. by apply startsWith_prefix in E.
  - right. by apply startsWith_false in E.
Qed.

Lemma hasSuffix_true suffixes file :
  hasSuffix toLowerCase Result label suffixes file = true <->
  exists suffix, suffix ∈ suffixes /\
    normalizeSuffix suffix `suffix_of` toLowerCase (label file).
Proof.
  unfold hasSuffix. rewrite existsb_exists. split.
  - intros (suffix & Hin & He). exists suffix.
    by rewrite list_elem_of_In, <- endsWith_suffix.
  - intros (suffix & Hin & He). exists suffix.
    by rewrite <- list_elem_of_In, endsWith_suffix.
Qed.

End ApplyFilterFacts.

(** C10: the extension filter keeps a result exactly when its label,
    lowercased, ends with one of the suffixes of the filter text: the
    pieces between the commas, each trimmed and lowercased, the empty
    ones left out, a dot put in front of those that do not start with
    one. The results kept stay in their order. When the filter text is
    blank, or has no suffix that is not empty, all results are kept as
    they are. *)
Theorem applyFilter_keeps_by_suffix
  toLowerCase (Result : Type) (label : Result -> jsstring) filterInput allResults :
  let filterValue := trim filterInput in
  let suffixes := parseSuffixes toLowerCase filterValue in
  let results := applyFilter toLowerCase Result label filterInput allResults in
  (forall suffix, suffix ∈ suffixes <->
     suffix <> [] /\
     exists piece, piece ∈ split filterValue /\ suffix = toLowerCase (trim piece)) /\
  (filterValue = [] \/ suffixes = [] -> results = allResults) /\
  (filterValue <> [] -> suffixes <> [] ->
     sublist results allResults /\
     forall file, file ∈ results <->
       file ∈ allResults /\
       exists suffix, suffix ∈ suffixes /\
         (if JS.startsWith suffix dot then suffix else dot ++ suffix)
           `suffix_of` toLowerCase (label file)).
Proof.
  intros filterValue suffixes results. split; [|split].
  - apply parseSuffixes_elem_of.
  - unfold results, applyFilter. fold filterValue. fold suffixes.
    intros [-> | Hs]; [done|]. destruct filterValue; [done|]. by rewrite Hs.
  - intros Hv Hs. unfold results, applyFilter. fold filterValue. fold suffixes.
    destruct filterValue; [done|]. destruct suffixes as [|s0 ss] eqn:E; [done|].
    split.
    + generalize (hasSuffix toLowerCase Result label (s0 :: ss)). intros keep.
      induction allResults as [|x l IH]; simpl; [done|].
      destruct (keep x); [by apply sublist_skip|by apply sublist_cons].
    + intros file. rewrite list_elem_of_In, filter_In, <- list_elem_of_In.
      rewrite hasSuffix_true. unfold normalizeSuffix. tauto.
Qed.

Lemma applyFilter_keeps_by_suffix_witness :
  applyFilter toLowerCaseLatin jsstring (fun file => file) (js " , ")
    [js "a.ts"; js "b.js"]
  = [js "a.ts"; js "b.js"] /\
  (js "README.MD" ∈
     applyFilter toLowerCaseLatin jsstring (fun file => file) (js " TS, .md ,")
       [js "a.ts"; js "b.js"; js "README.MD"; js "ts"]
   <-> js "README.MD" ∈ [js "a.ts"; js "b.js"; js "README.MD"; js "ts"] /\
       exists suffix,
         suffix ∈ parseSuffixes toLowerCaseLatin (trim (js " TS, .md ,")) /\
         (if JS.startsWith suffix dot then suffix else dot ++ suffix)
           `suffix_of` toLowerCaseLatin (js "README.MD")).
Proof.
  split.
  - apply (proj1 (proj2 (applyFilter_keeps_by_suffix toLowerCaseLatin jsstring
                           (fun file => file) (js " , ") [js "a.ts"; js "b.js"]))).
    right. reflexivity.
  - apply (proj2 (proj2 (applyFilter_keeps_by_suffix toLowerCaseLatin jsstring
                           (fun file => file) (js " TS, .md ,")
                           [js "a.ts"; js "b.js"; js "README.MD"; js "ts"])));
      by vm_compute.
Defined.

(* ================================================================= *)
(** * Further properties of the code *)

(** ** [_editDistance] is a metric *)

Lemma align_swap s t n : align s t n -> align t s n.
Proof. induction 1; by constructor. Qed.

Lemma lev_sym (s t : jsstring) : lev s t = lev t s.
Proof.
  apply Nat.le_antisymm; apply lev_le_align, align_swap, align_lev.
Qed.

Lemma edits_app n m s t u : edits n s t -> edits m t u -> edits (n + m) s u.
Proof.
  induction 1 as [|n s t' t H1 _ IH]; intros Hm; [done|].
  simpl. eapply edits_step; [exact H1|]. by apply IH.
Qed.

Lemma lev_triangle (s t u : jsstring) : (lev s u <= lev s t + lev t u)%nat.
Proof. apply lev_le_edits. eapply edits_app; apply edits_lev. Qed.

Lemma lev_zero (s t : jsstring) : lev s t = 0%nat <-> s = t.
Proof.
  split.
  - intros H. pose proof (edits_lev s t) as He. rewrite H in He. by inversion He.
  - intros ->. apply Nat.le_0_r. apply lev_le_align, align_refl.
Qed.

Lemma edit1_length s t :
  edit1 s t -> (List.length s <= S (List.length t) /\ List.length t <= S (List.length s))%nat.
Proof. destruct 1; rewrite !List.length_app; simpl; lia. Qed.

Lemma edits_length n s t :
  edits n s t ->
  (List.length s <= List.length t + n /\ List.length t <= List.length s + n)%nat.
Proof.
  induction 1 as [|n s t u H1 _ IH]; [lia|]. apply edit1_length in H1. lia.
Qed.

Lemma lev_le_max (s : jsstring) : forall t : jsstring,
  (lev s t <= Nat.max (List.length s) (List.length t))%nat.
Proof.
  induction s as [|a s IH]; intros t; [simpl; lia|].
  destruct t as [|b t]; [rewrite lev_nil_r; lia|].
  rewrite lev_cons_cons. specialize (IH t). simpl. case_decide; lia.
Qed.

(** X1: [_editDistance] is a metric on strings: never negative, zero
    exactly on equal strings, the same in both directions, and never
    more from [s1] to [s3] than by way of [s2]. *)
Theorem editDistance_metric (s1 s2 s3 : jsstring) :
  0 <= _editDistance s1 s2 /\
  (_editDistance s1 s2 = 0 <-> s1 = s2) /\
  _editDistance s1 s2 = _editDistance s2 s1 /\
  _editDistance s1 s3 <= _editDistance s1 s2 + _editDistance s2 s3.
Proof.
  rewrite !editDistance_lev. split; [lia|]. split; [|split].
  - rewrite <- lev_zero. lia.
  - by rewrite lev_sym.
  - pose proof (lev_triangle s1 s2 s3). lia.
Qed.

(** X2: the distance lies between the difference of the two lengths
    and the longer of them; from or to the empty string it is the
    length of the other. *)
Theorem editDistance_bounds (s1 s2 : jsstring) :
  Z.abs (JS.length s1 - JS.length s2) <= _editDistance s1 s2
  /\ _editDistance s1 s2 <= Z.max (JS.length s1) (JS.length s2)
  /\ _editDistance s1 [] = JS.length s1
  /\ _editDistance [] s2 = JS.length s2.
Proof.
  rewrite !editDistance_lev. unfold JS.length.
  pose proof (edits_length _ _ _ (edits_lev s1 s2)).
  pose proof (lev_le_max s1 s2).
  rewrite lev_nil_r. simpl. lia.
Qed.

(** A decidable statement without variables, settled by computing its
    decision. *)
Ltac decide_by_computing :=
  match goal with
  | |- ?P => apply (bool_decide_unpack P); vm_compute; exact I
  end.

(** ** [_getBasename] and [_calculateRank] *)

Lemma getBasename_cases (filename : jsstring) :
  _getBasename filename = filename \/
  exists l r, filename = l ++ 46%N :: r /\ (46%N ∉ r) /\ l <> [] /\
              _getBasename filename = l.
Proof.
  destruct (getBasename_spec filename) as (Hcut & Hhidden & Hnone).
  destruct (decide (46%N ∈ filename)) as [Hin|Hout]; [|left; by apply Hnone].
  apply list_elem_of_split_r in Hin as (l & r & -> & Hr).
  destruct l as [|c l]; [left; by apply (Hhidden r)|].
  right. exists (c :: l), r. split; [done|]. split; [done|]. split; [done|].
  by apply (Hcut (c :: l) r).
Qed.

Lemma getBasename_prefix (filename : jsstring) :
  _getBasename filename `prefix_of` filename.
Proof.
  destruct (getBasename_cases filename) as [->|(l & r & -> & _ & _ & ->)]; [done|].
  by eexists.
Qed.

(** X3: the basename is the name up to its last dot; a name without a
    dot, or whose only dot comes first (a hidden file), is its own
    basename. The basename is always a prefix of the name, and empty
    only for the empty name. *)
Theorem basename_cuts_last_extension (filename : jsstring) :
  (46%N ∉ filename -> _getBasename filename = filename) /\
  (forall r, filename = 46%N :: r -> 46%N ∉ r -> _getBasename filename = filename) /\
  (forall l r, filename = l ++ 46%N :: r -> 46%N ∉ r -> l <> [] ->
     _getBasename filename = l) /\
  _getBasename filename `prefix_of` filename /\
  (filename <> [] -> _getBasename filename <> []).
Proof.
  destruct (getBasename_spec filename) as (Hcut & Hhidden & Hnone).
  split; [done|]. split; [done|]. split; [done|].
  split; [apply getBasename_prefix|].
  intros Hne. by destruct (getBasename_cases filename) as [->|(l & r & _ & _ & Hl & ->)].
Qed.

Lemma basename_cuts_last_extension_witness :
  _getBasename (js "a.tar.gz") = js "a.tar" /\
  _getBasename (js ".gitignore") = js ".gitignore" /\
  _getBasename (js "Makefile") = js "Makefile".
Proof.
  split; [|split].
  - apply (proj1 (proj2 (proj2 (basename_cuts_last_extension (js "a.tar.gz"))))
             (js "a.tar") (js "gz")); [reflexivity|decide_by_computing|done].
  - apply (proj1 (proj2 (basename_cuts_last_extension (js ".gitignore")))
             (js "gitignore")); [reflexivity|decide_by_computing].
  - apply (proj1 (basename_cuts_last_extension (js "Makefile"))). decide_by_computing.
Defined.

Lemma contains_self (s : jsstring) : contains s s.
Proof. exists 0, [], []. split; [by rewrite app_nil_r|done]. Qed.

Lemma occursAt_prefix_of (s s' q : jsstring) (k : Z) :
  s `prefix_of` s' -> occursAt s q k -> occursAt s' q k.
Proof.
  intros [ext ->] (l & r & -> & Hl). exists l, (r ++ ext).
  split; [by rewrite <- !app_assoc|done].
Qed.

Lemma prefix_occursAt (s q : jsstring) : q `prefix_of` s -> occursAt s q 0.
Proof. intros [r ->]. by exists [], r. Qed.

(** X4: the rank is well formed. The tier is one of 0 to 5, the edit
    distance is not negative, the length is the one of the name as
    given. The match position is absent exactly in tier 5; in the
    tiers 2, 3 and 4 it is an index at which the normalized query
    occurs in the normalized name. Tier 0 is the tier of the names
    equal to the query, only theirs; a name that does not contain the
    query is of tier 1 or 5. *)
Theorem rank_well_formed toLowerCase filename query caseSensitive :
  let fn := normalize toLowerCase caseSensitive filename in
  let q := normalize toLowerCase caseSensitive query in
  let rank := _calculateRank toLowerCase filename query caseSensitive in
  0 <= Rank.tier rank <= 5 /\
  0 <= Rank.editDist rank /\
  Rank.length rank = JS.length filename /\
  (Rank.position rank = JS.Infinity <-> Rank.tier rank = 5) /\
  (Rank.tier rank = 0 <-> fn = q) /\
  (2 <= Rank.tier rank <= 4 ->
     exists k, Rank.position rank = JS.Num k /\ occursAt fn q k) /\
  (~ contains fn q -> Rank.tier rank = 1 \/ Rank.tier rank = 5).
Proof.
  intros fn q rank.
  destruct (calculateRank_position toLowerCase filename query caseSensitive)
    as (_ & Habsent & Hrange).
  pose proof (calculateRank_tierRule toLowerCase filename query caseSensitive) as Hrule.
  cbv zeta in Hrule. fold fn q rank in Hrule, Habsent, Hrange.
  pose proof (getBasename_prefix fn) as Hbase.
  split; [done|]. split.
  { unfold rank. rewrite calculateRank_editDist, editDistance_lev. lia. }
  split; [apply calculateRank_length|]. split; [done|].
  inversion Hrule as [E|E1 E2|E1 E2 E3|k E1 E2 E3 [Hk _]|k E1 E2 E3 E4 [Hk _]|p E1 E2 E3 E4 E5];
    subst; repeat split; try done; try lia; try (intros; exfalso; lia).
  - intros Hnone. destruct Hnone. rewrite E. apply contains_self.
  - intros _. exists 0. split; [done|].
    eapply occursAt_prefix_of; [exact Hbase|]. by apply prefix_occursAt.
  - intros Hnone. destruct Hnone. exists 0.
    eapply occursAt_prefix_of; [exact Hbase|]. by apply prefix_occursAt.
  - intros _. exists k. split; [done|]. by eapply occursAt_prefix_of.
  - intros Hnone. destruct Hnone. exists k. by eapply occursAt_prefix_of.
  - intros _. by exists k.
  - intros Hnone. destruct Hnone. by exists k.
Qed.

Lemma rank_well_formed_witness :
  exists k,
    Rank.position (_calculateRank toLowerCaseLatin (js "MyFile.txt") (js "file") false)
    = JS.Num k /\
    occursAt (normalize toLowerCaseLatin false (js "MyFile.txt"))
      (normalize toLowerCaseLatin false (js "file")) k.
Proof.
  apply (proj1 (proj2 (proj2 (proj2 (proj2 (proj2
           (rank_well_formed toLowerCaseLatin (js "MyFile.txt") (js "file") false))))))).
  by vm_compute.
Defined.

(** ** The comparator as an order, and the sorted results *)

Lemma isNegative_false_iff (rankA rankB : Rank.t) (alphabetical : Z) :
  isPosition (Rank.position rankA) -> isPosition (Rank.position rankB) ->
  isNegative (compareRanks rankA rankB alphabetical) = false
  <-> ~ sortsBefore rankA rankB alphabetical.
Proof.
  intros HA HB. rewrite <- (compareRanks_negative _ _ _ HA HB).
  destruct (isNegative _); split; (done || congruence).
Qed.

Lemma Num_eq_iff (x y : Z) : JS.Num x = JS.Num y <-> x = y.
Proof. split; [by intros [= ]|by intros ->]. Qed.

Lemma Num_Infinity_iff (x : Z) : JS.Num x = JS.Infinity <-> False.
Proof. done. Qed.

Lemma Infinity_Num_iff (x : Z) : JS.Infinity = JS.Num x <-> False.
Proof. done. Qed.

Lemma Infinity_eq_iff : JS.Infinity = JS.Infinity <-> True.
Proof. done. Qed.

(** When neither [Y] comes before [X] nor [Z] before [Y], [Z] does not
    come before [X]: [yx], [zy] and [zx] are the answers of the
    collation for the three pairs. *)
Lemma compareRanks_chain (rankX rankY rankZ : Rank.t) (yx zy zx : Z) :
  isPosition (Rank.position rankX) ->
  isPosition (Rank.position rankY) ->
  isPosition (Rank.position rankZ) ->
  (0 <= yx -> 0 <= zy -> 0 <= zx) ->
  isNegative (compareRanks rankY rankX yx) = false ->
  isNegative (compareRanks rankZ rankY zy) = false ->
  isNegative (compareRanks rankZ rankX zx) = false.
Proof.
  intros HX HY HZ Hlc. rewrite !isNegative_false_iff by done.
  destruct rankX as [tX eX lX pX], rankY as [tY eY lY pY], rankZ as [tZ eZ lZ pZ].
  unfold sortsBefore. simpl in *.
  destruct pX as [x| | |], pY as [y| | |], pZ as [z| | |]; try done; simpl;
    rewrite ?Num_eq_iff, ?Num_Infinity_iff, ?Infinity_Num_iff, ?Infinity_eq_iff;
    lia.
Qed.

Section SortOrdered.

Context {A : Type}.
Variable cmp : A -> A -> JS.number.

(** [y] is not put before [x]. *)
Let notBefore (x y : A) : Prop := isNegative (cmp y x) = false.

Hypothesis notBefore_trans :
  forall x y z, notBefore x y -> notBefore y z -> notBefore x z.
Hypothesis negative_notBefore :
  forall x y, isNegative (cmp x y) = true -> notBefore x y.

Lemma insertSorted_ordered x l :
  StronglySorted notBefore l -> StronglySorted notBefore (insertSorted cmp x l).
Proof.
  induction 1 as [|y l Hs IH Hy]; simpl.
  - repeat constructor.
  - destruct (isNegative (cmp y x)) eqn:E.
    + constructor; [done|]. apply Forall_forall. intros z Hz.
      apply insertSorted_elem_of in Hz as [->|Hz].
      * by apply negative_notBefore.
      * rewrite Forall_forall in Hy. by apply Hy.
    + constructor; [by constructor|]. constructor; [done|].
      eapply Forall_impl; [exact Hy|]. intros z Hz. by eapply notBefore_trans.
Qed.

Lemma sort_ordered l : StronglySorted notBefore (sort cmp l).
Proof.
  induction l as [|x l IH]; simpl; [constructor|]. by apply insertSorted_ordered.
Qed.

End SortOrdered.

Lemma compareCodeUnits_trans (a b c : jsstring) :
  compareCodeUnits a b <= 0 -> compareCodeUnits b c <= 0 ->
  compareCodeUnits a c <= 0.
Proof.
  revert b c. induction a as [|x a IH]; intros [|y b] [|z c]; simpl; try lia.
  destruct (N.compare_spec x y), (N.compare_spec y z), (N.compare_spec x z);
    try lia; subst; try lia. apply IH.
Qed.

Section Collation.

Variable toLowerCase : jsstring -> jsstring.
Variable localeCompare : jsstring -> jsstring -> Z.

(** The collation is an order: 0 on equal strings, its sign swapped
    with its arguments, and transitive. *)
Hypothesis localeCompare_refl : forall a, localeCompare a a = 0.
Hypothesis localeCompare_swap :
  forall a b, Z.sgn (localeCompare a b) = - Z.sgn (localeCompare b a).
Hypothesis localeCompare_trans :
  forall a b c, localeCompare a b <= 0 -> localeCompare b c <= 0 ->
                localeCompare a c <= 0.

Variable query : jsstring.
Variable caseSensitive : bool.

Local Abbreviation compare_ :=
  (fun a b => _compareFilesByRelevance toLowerCase localeCompare a b query caseSensitive).

Lemma compareFiles_chain x y z :
  isNegative (compare_ y x) = false -> isNegative (compare_ z y) = false ->
  isNegative (compare_ z x) = false.
Proof.
  unfold _compareFilesByRelevance.
  apply compareRanks_chain; try apply calculateRank_isPosition.
  intros Hyx Hzy.
  pose proof (localeCompare_swap x y). pose proof (localeCompare_swap y z).
  pose proof (localeCompare_swap x z).
  assert (localeCompare x z <= 0) by (apply (localeCompare_trans x y z); lia).
  lia.
Qed.

Lemma compareFiles_negative_swap x y :
  isNegative (compare_ x y) = true -> isNegative (compare_ y x) = false.
Proof.
  unfold _compareFilesByRelevance, isNegative.
  rewrite (compareRanks_swap _ _ (localeCompare y x) (localeCompare x y));
    [|apply calculateRank_isPosition..|apply localeCompare_swap].
  by destruct (JS.sign _) as [[]|].
Qed.

Lemma compareFiles_total x y :
  isNegative (compare_ y x) = false \/ isNegative (compare_ x y) = false.
Proof.
  destruct (isNegative (compare_ y x)) eqn:E; [right|by left].
  by apply compareFiles_negative_swap.
Qed.

End Collation.

(** X5: with a collation that is an order (0 on equal strings, sign
    swapped with the arguments, transitive), the comparator is one
    too: of two names one is not put before the other, and when [y] is
    not put before [x] and [z] not before [y], [z] is not put before
    [x]. So the order of the results does not depend on how the sort
    goes about it. *)
Theorem comparator_total_preorder toLowerCase localeCompare
  (localeCompare_swap :
     forall a b, Z.sgn (localeCompare a b) = - Z.sgn (localeCompare b a))
  (localeCompare_trans :
     forall a b c, localeCompare a b <= 0 -> localeCompare b c <= 0 ->
                   localeCompare a c <= 0)
  query caseSensitive :
  let notBefore := fun x y =>
    isNegative
      (_compareFilesByRelevance toLowerCase localeCompare y x query caseSensitive)
    = false in
  (forall x y, notBefore x y \/ notBefore y x) /\
  (forall x y z, notBefore x y -> notBefore y z -> notBefore x z).
Proof.
  intros notBefore. split.
  - intros x y. by apply compareFiles_total.
  - intros x y z. by apply compareFiles_chain.
Qed.

Lemma comparator_total_preorder_witness :
  isNegative
    (_compareFilesByRelevance toLowerCaseLatin compareCodeUnits
       (js "notes.md") (js "file.c") (js "file") false) = false.
Proof.
  apply (proj2 (comparator_total_preorder toLowerCaseLatin compareCodeUnits
                  compareCodeUnits_swap compareCodeUnits_trans (js "file") false)
           (js "file.c") (js "myfile.c") (js "notes.md")); reflexivity.
Defined.

(** ** The results of a search *)

Lemma filterC_normal {E A : Type} (f : A -> completion E bool) (l : list A) :
  (forall x, exists b, f x = Normal b) ->
  exists kept, filterC f l = Normal kept /\ sublist kept l /\
    forall x, x ∈ kept <-> x ∈ l /\ f x = Normal true.
Proof.
  intros Hf. induction l as [|x l (kept & Hk & Hsub & Hin)]; simpl.
  - exists []. split; [done|]. split; [done|]. intros x. rewrite elem_of_nil. tauto.
  - destruct (Hf x) as [b Hb]. rewrite Hb, Hk. destruct b.
    + exists (x :: kept). split; [done|]. split; [by apply sublist_skip|].
      intros y. rewrite !elem_of_cons, Hin. split.
      * intros [->|[? ?]]; [by split; [left|]|]. split; [by right|done].
      * intros [[->|?] ?]; [by left|]. right. by split.
    + exists kept. split; [done|]. split; [by apply sublist_cons|].
      intros y. rewrite elem_of_cons, Hin. split.
      * intros [? ?]. split; [by right|done].
      * intros [[->|?] Hy]; [congruence|by split].
Qed.

Section SearchResults.

Variable toLowerCase : jsstring -> jsstring.
Variable localeCompare : jsstring -> jsstring -> Z.
Variable RegExp : Type.
Variable Error : Type.
Variable newRegExp : jsstring -> jsstring -> completion Error RegExp.
Variable test : RegExp -> jsstring -> bool.
Variable File : Type.
Variable basename : File -> jsstring.

Lemma accepts_normal data file :
  exists passes,
    accepts toLowerCase RegExp Error newRegExp test File basename data file
    = Normal passes.
Proof.
  unfold accepts. destruct (Message.useRegex data).
  - destruct (newRegExp _ _); by eexists.
  - destruct (Message.caseSensitive data); by eexists.
Qed.

(** The search ends normally, with the files the filter lets through,
    decorated, in some order. *)
Lemma search_normal data allFiles :
  exists files results,
    search toLowerCase localeCompare RegExp Error newRegExp test File basename
      data allFiles = Normal results /\
    sublist files allFiles /\
    (forall file, file ∈ files ->
       accepts toLowerCase RegExp Error newRegExp test File basename data file
       = Normal true) /\
    results =
      sort (fun a b =>
              _compareFilesByRelevance toLowerCase localeCompare
                (label a) (label b) (Message.value data)
                (Message.caseSensitive data))
        (map (decorate toLowerCase File basename data) files).
Proof.
  unfold search. destruct (Message.value data) eqn:Ev.
  - exists [], []. split; [done|]. split; [apply sublist_nil_l|]. split; [|done].
    intros file []%elem_of_nil.
  - destruct (filterC_normal
                (accepts toLowerCase RegExp Error newRegExp test File basename data)
                allFiles (accepts_normal data)) as (files & Hf & Hsub & Hin).
    rewrite Hf. exists files. eexists. split; [done|]. split; [done|].
    split; [|done]. intros file Hfile. by apply Hin.
Qed.

End SearchResults.

(** X6: a search always ends normally, in both modes. Its results are
    files of the list given, none more often than there, in some
    order, each with the base name as label and the highlighted base
    name beside it; and with a collation that is an order they are
    sorted: no result is put before one that stands earlier in the
    list. *)
Theorem search_results_sorted toLowerCase localeCompare
  (localeCompare_swap :
     forall a b, Z.sgn (localeCompare a b) = - Z.sgn (localeCompare b a))
  (localeCompare_trans :
     forall a b c, localeCompare a b <= 0 -> localeCompare b c <= 0 ->
                   localeCompare a c <= 0)
  (RegExp Error : Type)
  (newRegExp : jsstring -> jsstring -> completion Error RegExp) test
  (File : Type) (basename : File -> jsstring) data allFiles :
  exists files results,
    search toLowerCase localeCompare RegExp Error newRegExp test File basename
      data allFiles = Normal results /\
    sublist files allFiles /\
    map uri results ≡ₚ files /\
    (forall r, r ∈ results ->
       label r = basename (uri r) /\
       boldedLabel r
       = _boldMatchingText toLowerCase (label r) (Message.value data)
           (Message.caseSensitive data)) /\
    (forall i j a b, (i < j)%nat ->
       results !! i = Some a -> results !! j = Some b ->
       isNegative
         (_compareFilesByRelevance toLowerCase localeCompare (label b) (label a)
            (Message.value data) (Message.caseSensitive data)) = false).
Proof.
  destruct (search_normal toLowerCase localeCompare RegExp Error newRegExp test
              File basename data allFiles) as (files & results & Hs & Hsub & _ & ->).
  exists files. eexists. split; [exact Hs|]. split; [done|]. split; [|split].
  - rewrite sort_Permutation, map_map. simpl. by rewrite map_id.
  - intros r Hr. rewrite sort_Permutation in Hr.
    apply list_elem_of_In, in_map_iff in Hr as (file & <- & _). done.
  - intros i j a b Hij Hi Hj.
    eapply (StronglySorted_lookup
              (fun x y =>
                 isNegative
                   (_compareFilesByRelevance toLowerCase localeCompare
                      (label y) (label x) (Message.value data)
                      (Message.caseSensitive data)) = false));
      [|exact Hij|exact Hi|exact Hj].
    apply (sort_ordered
             (fun x y =>
                _compareFilesByRelevance toLowerCase localeCompare
                  (label x) (label y) (Message.value data)
                  (Message.caseSensitive data))).
    + intros x y z. by apply compareFiles_chain.
    + intros x y. by apply compareFiles_negative_swap.
Qed.

Lemma search_results_sorted_witness :
  exists files results,
    search toLowerCaseLatin compareCodeUnits jsstring unit plainRegExp plainTest
      jsstring (fun file => file) (Message.mk (js "file") false false)
      [js "myfile.c"; js "notes.md"; js "file.txt"; js "File"] = Normal results /\
    map uri results ≡ₚ files.
Proof.
  destruct (search_results_sorted toLowerCaseLatin compareCodeUnits
              compareCodeUnits_swap compareCodeUnits_trans jsstring unit
              plainRegExp plainTest jsstring (fun file => file)
              (Message.mk (js "file") false false)
              [js "myfile.c"; js "notes.md"; js "file.txt"; js "File"])
    as (files & results & Hs & _ & Hp & _).
  exists files, results. by split.
Defined.

(** ** The shape of the highlighted name *)

Lemma segments_shape (filename : jsstring) : forall merged segments lastEnd,
  let final := foldl (segmentStep filename) (segments, lastEnd) merged in
  map isMatched final.1
  = map isMatched segments ++ flat_map (fun _ => [false; true]) merged /\
  map segmentText (List.filter isMatched final.1)
  = map segmentText (List.filter isMatched segments)
    ++ map (fun m => JS.substring filename (Span.start m) (Span.stop m)) merged.
Proof.
  induction merged as [|m merged IH]; intros segments lastEnd; simpl.
  - by rewrite !app_nil_r.
  - destruct (IH (segments ++ [Literal (JS.substring filename lastEnd (Span.start m));
                               Matched (JS.substring filename (Span.start m) (Span.stop m))])
                (Span.stop m)) as [H1 H2].
    cbv zeta in H1, H2. rewrite H1, H2. rewrite map_app, List.filter_app, map_app. simpl.
    by rewrite <- !app_assoc.
Qed.

Lemma render_length (segments : list segment) :
  List.length (concat (map render segments))
  = (List.length (concat (map segmentText segments))
     + 4 * List.length (List.filter isMatched segments))%nat.
Proof.
  induction segments as [|g segments IH]; [done|].
  destruct g as [t|t]; simpl; rewrite !List.length_app, IH; simpl;
    rewrite ?List.length_app; simpl; lia.
Qed.

Section HighlightShape.

Variable toLowerCase : jsstring -> jsstring.
Variables filename query : jsstring.
Variable caseSensitive : bool.

Lemma highlight_shape :
  map isMatched (highlight toLowerCase filename query caseSensitive)
  = flat_map (fun _ => [false; true])
      (mergedSpans toLowerCase filename query caseSensitive) ++ [false] /\
  map segmentText
    (List.filter isMatched (highlight toLowerCase filename query caseSensitive))
  = map (fun m => JS.substring filename (Span.start m) (Span.stop m))
      (mergedSpans toLowerCase filename query caseSensitive).
Proof.
  rewrite highlight_spans. unfold mergedSpans.
  destruct (rawSpans toLowerCase filename query caseSensitive) as [|r raw]; [done|].
  destruct (segments_shape filename (mergePositions (r :: raw)) [] 0) as [H1 H2].
  cbv zeta in *. rewrite map_app, List.filter_app, map_app, H1, H2. simpl.
  by rewrite app_nil_r.
Qed.

Lemma matched_count :
  List.length
    (List.filter isMatched (highlight toLowerCase filename query caseSensitive))
  = List.length (mergedSpans toLowerCase filename query caseSensitive).
Proof.
  rewrite <- (length_map segmentText). destruct highlight_shape as [_ ->].
  by rewrite length_map.
Qed.

Lemma boldMatchingText_length :
  JS.length (_boldMatchingText toLowerCase filename query caseSensitive)
  = JS.length filename
    + 4 * Z.of_nat
            (List.length (mergedSpans toLowerCase filename query caseSensitive)).
Proof.
  unfold JS.length.
  rewrite boldMatchingText_segments, render_length, highlight_concat, matched_count.
  lia.
Qed.

Lemma mergedSpans_nil_raw :
  mergedSpans toLowerCase filename query caseSensitive = [] ->
  rawSpans toLowerCase filename query caseSensitive = [].
Proof. apply mergePositions_nil_inv. Qed.

End HighlightShape.

(** X7: the highlighted name has the shape literal, matched, literal,
    ..., literal: one matched piece for each merged span, in their
    order, each the text of the name between the offsets of its span,
    with a literal piece (which may be empty) before, between and
    after. Without the markers the pieces are the name; the result is
    four code units longer for each span, and is the name itself
    exactly when there is no span. *)
Theorem highlight_structure toLowerCase filename query caseSensitive :
  let pieces := highlight toLowerCase filename query caseSensitive in
  let merged := mergedSpans toLowerCase filename query caseSensitive in
  let result := _boldMatchingText toLowerCase filename query caseSensitive in
  result = concat (map render pieces) /\
  concat (map segmentText pieces) = filename /\
  map isMatched pieces = flat_map (fun _ => [false; true]) merged ++ [false] /\
  map segmentText (List.filter isMatched pieces)
  = map (fun m => JS.substring filename (Span.start m) (Span.stop m)) merged /\
  JS.length result = JS.length filename + 4 * Z.of_nat (List.length merged) /\
  (result = filename <-> merged = []).
Proof.
  intros pieces merged result.
  pose proof (boldMatchingText_length toLowerCase filename query caseSensitive) as Hlen.
  destruct (highlight_shape toLowerCase filename query caseSensitive) as [Hshape Htext].
  split; [apply boldMatchingText_segments|]. split; [apply highlight_concat|].
  split; [done|]. split; [done|]. split; [done|].
  fold result merged in Hlen. split.
  - intros E. rewrite E in Hlen. destruct merged; [done|]. simpl in Hlen. lia.
  - intros E. unfold result. rewrite boldMatchingText_segments, highlight_spans.
    rewrite (mergedSpans_nil_raw _ _ _ _ E). simpl. by rewrite app_nil_r.
Qed.

(** ** The results of a plain search are hits *)

Lemma calculateRank_contains toLowerCase filename query caseSensitive :
  contains (normalize toLowerCase caseSensitive filename)
    (normalize toLowerCase caseSensitive query) ->
  let rank := _calculateRank toLowerCase filename query caseSensitive in
  Rank.tier rank <= 4 /\ exists k, Rank.position rank = JS.Num k /\ 0 <= k.
Proof.
  intros Hc rank.
  destruct (calculateRank_position toLowerCase filename query caseSensitive)
    as (Hpos & Habsent & Hrange).
  pose proof (calculateRank_tierRule toLowerCase filename query caseSensitive) as Hrule.
  cbv zeta in Hrule. fold rank in Hrule, Hpos, Habsent, Hrange.
  assert (Ht : Rank.tier rank <> 5).
  { intros E. rewrite E in Hrule. by inversion Hrule. }
  split; [lia|]. destruct (Rank.position rank) as [k| | |] eqn:E; try done.
  - by exists k.
  - by destruct Ht; apply Habsent.
Qed.

Lemma mergedSpans_nonempty toLowerCase filename query caseSensitive :
  query <> [] ->
  normalize toLowerCase caseSensitive query <> [] ->
  contains (normalize toLowerCase caseSensitive filename)
    (normalize toLowerCase caseSensitive query) ->
  mergedSpans toLowerCase filename query caseSensitive <> [].
Proof.
  intros Hquery Hq [k Hk] Hnil. apply mergedSpans_nil_raw in Hnil.
  destruct (rawSpans_spec toLowerCase filename query caseSensitive) as (_ & Hall & _).
  pose proof (occursAt_range _ _ _ Hk) as [Hk0 Hk1].
  assert (0 < JS.length (normalize toLowerCase caseSensitive query)).
  { destruct (normalize toLowerCase caseSensitive query); [done|].
    unfold JS.length. simpl. lia. }
  specialize (Hall Hquery k ltac:(lia) Hk). rewrite Hnil in Hall.
  by apply elem_of_nil in Hall.
Qed.

Lemma search_results_value
  toLowerCase localeCompare (RegExp Error : Type)
  (newRegExp : jsstring -> jsstring -> completion Error RegExp) test
  (File : Type) (basename : File -> jsstring) data allFiles results r :
  search toLowerCase localeCompare RegExp Error newRegExp test File basename
    data allFiles = Normal results ->
  r ∈ results -> Message.value data <> [].
Proof.
  unfold search. intros Hs Hr E. rewrite E in Hs. injection Hs as <-.
  by apply elem_of_nil in Hr.
Qed.

(** X8: in a search without regex every result is a hit. Its
    normalized name contains the normalized query, so its tier is at
    most 4 and its match position is an index; and (the lowercased
    query not being empty) the highlighter marks at least one span in
    it, so the highlighted label differs from the label. *)
Theorem plain_results_are_hits
  toLowerCase localeCompare (RegExp Error : Type)
  (newRegExp : jsstring -> jsstring -> completion Error RegExp) test
  (File : Type) (basename : File -> jsstring) data allFiles results r :
  Message.useRegex data = false ->
  search toLowerCase localeCompare RegExp Error newRegExp test File basename
    data allFiles = Normal results ->
  r ∈ results ->
  let value := Message.value data in
  let caseSensitive := Message.caseSensitive data in
  let rank := _calculateRank toLowerCase (label r) value caseSensitive in
  contains (normalize toLowerCase caseSensitive (label r))
    (normalize toLowerCase caseSensitive value) /\
  Rank.tier rank <= 4 /\
  (exists k, Rank.position rank = JS.Num k /\ 0 <= k) /\
  (normalize toLowerCase caseSensitive value <> [] ->
   mergedSpans toLowerCase (label r) value caseSensitive <> [] /\
   boldedLabel r <> label r).
Proof.
  intros Hplain Hsearch Hr value caseSensitive rank.
  pose proof (search_results_value _ _ _ _ _ _ _ _ _ _ _ _ Hsearch Hr) as Hvalue.
  destruct (search_normal toLowerCase localeCompare RegExp Error newRegExp test
              File basename data allFiles)
    as (files & results' & Hs & _ & Hacc & ->).
  rewrite Hs in Hsearch. injection Hsearch as <-.
  rewrite sort_Permutation in Hr.
  apply list_elem_of_In, in_map_iff in Hr as (file & <- & Hfile).
  apply list_elem_of_In, Hacc in Hfile. rewrite accepts_plain in Hfile by done.
  injection Hfile as Hfile. apply includes_contains in Hfile.
  simpl in *. fold value caseSensitive in Hfile.
  destruct (calculateRank_contains toLowerCase (basename file) value caseSensitive Hfile)
    as [Htier Hpos].
  split; [done|]. split; [done|]. split; [done|].
  intros Hq.
  pose proof (mergedSpans_nonempty toLowerCase (basename file) value caseSensitive
                Hvalue Hq Hfile) as Hspans.
  split; [done|]. intros E.
  pose proof (boldMatchingText_length toLowerCase (basename file) value caseSensitive)
    as Hlen.
  fold value caseSensitive in E. rewrite E in Hlen.
  destruct (mergedSpans toLowerCase (basename file) value caseSensitive); [done|].
  simpl in Hlen. lia.
Qed.

Lemma plain_results_are_hits_witness :
  Rank.tier (_calculateRank toLowerCaseLatin (js "MyFile.c") (js "file") false) <= 4.
Proof.
  destruct (plain_results_are_hits toLowerCaseLatin compareCodeUnits jsstring unit
              plainRegExp plainTest jsstring (fun file => file)
              (Message.mk (js "file") false false)
              [js "notes.md"; js "MyFile.c"]
              [mkResult jsstring (js "MyFile.c") (js "MyFile.c") (js "My**File**.c")]
              (mkResult jsstring (js "MyFile.c") (js "MyFile.c") (js "My**File**.c"))
              eq_refl eq_refl (list_elem_of_here _ _)) as (_ & Htier & _).
  exact Htier.
Defined.

(** ** The loop over the occurrences ends *)

Lemma findPositions_count (fn q : jsstring) (queryLength : Z) :
  forall fuel searchPos, 0 <= searchPos ->
    Z.of_nat (List.length (findPositions fn q queryLength searchPos fuel))
    <= Z.max 0 (JS.length fn - searchPos).
Proof.
  induction fuel as [|fuel IH]; intros searchPos Hsp; cbn [findPositions].
  - simpl. lia.
  - destruct (Z.ltb_spec searchPos (JS.length fn)) as [Hlt|Hge]; [|simpl; lia].
    destruct (indexOf_round fn q searchPos) as [[Hr Hn]|(Hle & Hocc & Hn)]; [lia| |].
    + rewrite Hr. simpl. lia.
    + destruct (_ =? -1); [simpl; lia|].
      specialize (IH (JS.indexOf fn q searchPos + 1) ltac:(lia)).
      cbn [List.length]. lia.
Qed.

(** X9: the loop that looks for the occurrences ends by itself. It
    moves on by at least one code unit a round, so it finds at most as
    many occurrences as the name is long, and any number of rounds
    from the length of the name on gives the same list: the rounds
    the model allows do not cut it short. *)
Theorem occurrence_loop_ends (fn q : jsstring) (queryLength : Z) (fuel : nat) :
  (List.length fn <= fuel)%nat ->
  findPositions fn q queryLength 0 fuel
  = findPositions fn q queryLength 0 (List.length fn) /\
  (List.length (findPositions fn q queryLength 0 fuel) <= List.length fn)%nat.
Proof.
  intros Hfuel.
  assert (E : findPositions fn q queryLength 0 fuel
              = findPositions fn q queryLength 0 (List.length fn)).
  { apply findPositions_fuel; unfold JS.length; lia. }
  split; [done|]. rewrite E.
  pose proof (findPositions_count fn q queryLength (List.length fn) 0 ltac:(lia)).
  unfold JS.length in *. lia.
Qed.

Lemma occurrence_loop_ends_witness :
  findPositions (js "aaa") (js "aa") 2 0 10 = findPositions (js "aaa") (js "aa") 2 0 3 /\
  (List.length (findPositions (js "aaa") (js "aa") 2 0 10) <= 3)%nat.
Proof.
  apply (occurrence_loop_ends (js "aaa") (js "aa") 2 10). simpl. lia.
Defined.

(** ** The pieces, where lowercasing keeps the offsets *)

Lemma fold_pieces (filename : jsstring) : forall merged segments lastEnd,
  let final := foldl (segmentStep filename) (segments, lastEnd) merged in
  final.1 ++ [Literal (JS.substringFrom filename final.2)]
  = segments ++ piecesFrom filename lastEnd merged.
Proof.
  induction merged as [|m merged IH]; intros segments lastEnd; simpl; [done|].
  specialize (IH (segments ++ [Literal (JS.substring filename lastEnd (Span.start m));
                               Matched (JS.substring filename (Span.start m) (Span.stop m))])
                (Span.stop m)).
  cbv zeta in IH. rewrite IH. by rewrite <- app_assoc.
Qed.

Lemma highlight_pieces toLowerCase filename query caseSensitive :
  highlight toLowerCase filename query caseSensitive
  = piecesFrom filename 0 (mergedSpans toLowerCase filename query caseSensitive).
Proof.
  rewrite highlight_spans. unfold mergedSpans.
  destruct (rawSpans toLowerCase filename query caseSensitive) as [|r raw].
  - simpl. unfold JS.substringFrom. by rewrite substring_all.
  - cbv zeta. by rewrite fold_pieces.
Qed.

Lemma StronglySorted_elem_of {A : Type} (R : A -> A -> Prop) (l : list A) x y :
  StronglySorted R l -> x ∈ l -> y ∈ l -> x = y \/ R x y \/ R y x.
Proof.
  intros Hs [i Hi]%list_elem_of_lookup [j Hj]%list_elem_of_lookup.
  destruct (Nat.lt_trichotomy i j) as [Hlt|[->|Hgt]].
  - right. left. by apply (StronglySorted_lookup R l Hs i j).
  - left. congruence.
  - right. right. by apply (StronglySorted_lookup R l Hs j i).
Qed.

Lemma substring_nonempty (s : jsstring) (a b : Z) :
  0 <= a -> a < b -> a < JS.length s -> JS.substring s a b <> [].
Proof.
  intros Ha Hab Hlen E. apply (f_equal JS.length) in E.
  rewrite length_substring in E by lia. unfold JS.length in E at 3. simpl in E. lia.
Qed.

Lemma piecesFrom_between (filename : jsstring) : forall merged lastEnd,
  StronglySorted before merged ->
  Forall (fun m => 0 <= Span.start m <= Span.stop m /\
                   Span.start m < JS.length filename) merged ->
  forall i a b,
    piecesFrom filename lastEnd merged !! i = Some (Matched a) ->
    piecesFrom filename lastEnd merged !! S (S i) = Some (Matched b) ->
    exists t, piecesFrom filename lastEnd merged !! S i = Some (Literal t) /\ t <> [].
Proof.
  induction merged as [|m merged IH]; intros lastEnd Hs Hf i a b Ha Hb.
  - destruct i; simpl in *; done.
  - apply StronglySorted_cons in Hs as [Hm Hs].
    apply Forall_cons in Hf as [(Hm0 & Hm1) Hf].
    destruct i as [|[|i]]; simpl in Ha, Hb |- *; [done| |by eapply IH].
    destruct merged as [|m2 merged]; [done|]. simpl.
    eexists. split; [done|].
    apply Forall_cons in Hm as [Hbefore _]. apply Forall_cons in Hf as [(_ & Hm2) _].
    unfold before in Hbefore. apply substring_nonempty; lia.
Qed.

Section UnitwiseOn.

Variable toLowerCase : jsstring -> jsstring.
Variable caseSensitive : bool.
Variable filename query : jsstring.

(** Normalizing keeps the offsets of the name and the length of the
    query. *)
Hypothesis normalize_name :
  forall a b,
    normalize toLowerCase caseSensitive (JS.substring filename a b)
    = JS.substring (normalize toLowerCase caseSensitive filename) a b.
Hypothesis normalize_query :
  JS.length (normalize toLowerCase caseSensitive query) = JS.length query.

Lemma matched_pieces_occurrences g :
  g ∈ highlight toLowerCase filename query caseSensitive ->
  isMatched g = true ->
  madeOfOccurrences (normalize toLowerCase caseSensitive (segmentText g))
    (normalize toLowerCase caseSensitive query).
Proof.
  intros Hg Hm. rewrite highlight_spans in Hg.
  destruct (rawSpans toLowerCase filename query caseSensitive) as [|r0 raw0] eqn:E.
  { apply list_elem_of_singleton in Hg as ->. done. }
  cbv zeta in Hg. apply elem_of_app in Hg as [Hg|Hg]; cycle 1.
  { apply list_elem_of_singleton in Hg as ->. done. }
  destruct (segments_matched _ _ _ _ _ Hg Hm) as [Hnil|(m & Hmerged & ->)].
  { by apply elem_of_nil in Hnil. }
  pose proof (mergedSpans_merges toLowerCase filename query caseSensitive)
    as [_ Hproper _ Hstart Hcov].
  destruct (rawSpans_spec toLowerCase filename query caseSensitive) as (Hin & _).
  simpl. rewrite normalize_name.
  assert (Hs : 0 <= Span.start m).
  { destruct (Hstart m Hmerged) as (r & Hr & <-). by destruct (Hin r Hr) as ([? _] & _). }
  assert (Hp : Span.start m <= Span.stop m).
  { rewrite Forall_forall in Hproper. by apply Hproper. }
  intros p Hrange. rewrite length_substring in Hrange by lia.
  destruct (Hcov m (Span.start m + p)) as (r & Hr & [Hw1 Hw2] & [Hc1 Hc2]);
    [done|unfold covers; lia|].
  destruct (Hin r Hr) as (_ & Hocc & Hstop).
  exists (Span.start r - Span.start m). split.
  - apply occursAt_substring; [lia|lia|done].
  - lia.
Qed.

End UnitwiseOn.

(** Where normalizing goes code unit by code unit on the strings of
    the code units [P], it keeps the offsets of a name of such code
    units. *)
Lemma normalize_substring_on toLowerCase caseSensitive (f : N -> N) (P : N -> Prop) :
  (forall s, Forall P s -> normalize toLowerCase caseSensitive s = map f s) ->
  forall s a b, Forall P s ->
    normalize toLowerCase caseSensitive (JS.substring s a b)
    = JS.substring (normalize toLowerCase caseSensitive s) a b.
Proof.
  intros Hunits s a b Hs. rewrite (Hunits s Hs).
  assert (Forall P (JS.substring s a b)) as Hsub.
  { unfold JS.substring. by apply Forall_take, Forall_drop. }
  rewrite (Hunits _ Hsub). unfold JS.substring, JS.length.
  rewrite length_map. by rewrite skipn_map, firstn_map.
Qed.

(** X10: take code units [P] on whose strings normalizing goes code
    unit by code unit: all of them in a case-sensitive search, those of
    Basic Latin in a case-insensitive one. For a name and a query of
    such code units the offsets of the normalized name are right in
    the name: every matched piece is not empty and, normalized, is
    made of occurrences of the normalized query, and two matched
    pieces always have a literal piece that is not empty between
    them. *)
Theorem pieces_with_unitwise_normalizing
  toLowerCase (caseSensitive : bool) (f : N -> N) (P : N -> Prop)
  (normalize_units :
     forall s, Forall P s -> normalize toLowerCase caseSensitive s = map f s)
  filename query :
  Forall P filename -> Forall P query ->
  let pieces := highlight toLowerCase filename query caseSensitive in
  (forall g, g ∈ pieces -> isMatched g = true ->
     segmentText g <> [] /\
     madeOfOccurrences (normalize toLowerCase caseSensitive (segmentText g))
       (normalize toLowerCase caseSensitive query)) /\
  (forall i a b,
     pieces !! i = Some (Matched a) -> pieces !! S (S i) = Some (Matched b) ->
     exists t, pieces !! S i = Some (Literal t) /\ t <> []).
Proof.
  intros Hname Hquery pieces.
  pose proof (mergedSpans_merges toLowerCase filename query caseSensitive)
    as [Hapart Hproper Hall Hstart _].
  destruct (rawSpans_spec toLowerCase filename query caseSensitive) as (Hin & _).
  assert (Hsub : forall a b,
            normalize toLowerCase caseSensitive (JS.substring filename a b)
            = JS.substring (normalize toLowerCase caseSensitive filename) a b).
  { intros a b.
    by apply (normalize_substring_on toLowerCase caseSensitive f P normalize_units). }
  assert (Hq : JS.length (normalize toLowerCase caseSensitive query) = JS.length query).
  { rewrite (normalize_units query Hquery). unfold JS.length. by rewrite length_map. }
  assert (Hlen : JS.length (normalize toLowerCase caseSensitive filename)
                 = JS.length filename).
  { rewrite (normalize_units filename Hname). unfold JS.length. by rewrite length_map. }
  assert (Hspans : Forall (fun m => 0 <= Span.start m <= Span.stop m /\
                                    Span.start m < JS.length filename)
                     (mergedSpans toLowerCase filename query caseSensitive)).
  { apply Forall_forall. intros m Hm. rewrite Forall_forall in Hproper.
    destruct (Hstart m Hm) as (r & Hr & E). destruct (Hin r Hr) as ([? ?] & _).
    specialize (Hproper m Hm). simpl in Hproper. split; lia. }
  split.
  - intros g Hg Hmatched. split.
    + unfold pieces in Hg. rewrite highlight_spans in Hg.
      destruct (rawSpans toLowerCase filename query caseSensitive) as [|r0 raw0] eqn:E.
      { apply list_elem_of_singleton in Hg as ->. done. }
      cbv zeta in Hg. apply elem_of_app in Hg as [Hg|Hg]; cycle 1.
      { apply list_elem_of_singleton in Hg as ->. done. }
      destruct (segments_matched _ _ _ _ _ Hg Hmatched) as [Hnil|(m & Hm & ->)].
      { by apply elem_of_nil in Hnil. }
      rewrite Forall_forall in Hspans. destruct (Hspans m Hm) as ([Hm0 Hm1] & Hm2).
      destruct (Hstart m Hm) as (r & Hr & Hrm).
      destruct (Hall r Hr) as (m' & Hm' & [Hw1 Hw2]).
      destruct (Hin r Hr) as (_ & _ & Hstop).
      destruct (Hspans m' Hm') as ([Hm'0 Hm'1] & _).
      assert (0 < JS.length query).
      { destruct query; [done|]. unfold JS.length. simpl. lia. }
      simpl. apply substring_nonempty; [lia| |lia].
      destruct (StronglySorted_elem_of before _ m m' Hapart Hm Hm')
        as [->|[Hb|Hb]]; unfold before in *; lia.
    + by apply (matched_pieces_occurrences toLowerCase caseSensitive filename query
                  Hsub Hq).
  - unfold pieces. rewrite highlight_pieces. by apply piecesFrom_between.
Qed.

Lemma pieces_with_unitwise_normalizing_witness :
  (forall g, g ∈ highlight toLowerCaseLatin (js "ReadMe-readme.MD") (js "ME") false ->
     isMatched g = true ->
     segmentText g <> [] /\
     madeOfOccurrences (normalize toLowerCaseLatin false (segmentText g))
       (normalize toLowerCaseLatin false (js "ME"))) /\
  (forall i a b,
     highlight toLowerCaseLatin (js "ReadMe-readme.MD") (js "ME") false !! i
     = Some (Matched a) ->
     highlight toLowerCaseLatin (js "ReadMe-readme.MD") (js "ME") false !! S (S i)
     = Some (Matched b) ->
     exists t,
       highlight toLowerCaseLatin (js "ReadMe-readme.MD") (js "ME") false !! S i
       = Some (Literal t) /\ t <> []).
Proof.
  apply (pieces_with_unitwise_normalizing toLowerCaseLatin false lowerLatin
           (fun c => (c < 128)%N)).
  - intros s Hs. simpl. apply toLowerCaseLatin_units.
    intros Hin. rewrite Forall_forall in Hs. specialize (Hs _ Hin). lia.
  - decide_by_computing.
  - decide_by_computing.
Defined.

(** ** The extension filter, result by result *)

Section ApplyFilterMore.

Variable toLowerCase : jsstring -> jsstring.
Variable Result : Type.
Variable label : Result -> jsstring.

Local Abbreviation applyFilter_ := (applyFilter toLowerCase Result label).

(** What [applyFilter] keeps, as a test on one result. *)
Lemma applyFilter_filter filterInput :
  exists keep : Result -> bool,
    forall allResults, applyFilter_ filterInput allResults = List.filter keep allResults.
Proof.
  unfold applyFilter. destruct (trim filterInput) as [|c v].
  - exists (fun _ => true). intros l. induction l; simpl; congruence.
  - destruct (parseSuffixes toLowerCase _) as [|s0 ss].
    + exists (fun _ => true). intros l. induction l; simpl; congruence.
    + by eexists.
Qed.

Lemma filter_filter_same (keep : Result -> bool) (l : list Result) :
  List.filter keep (List.filter keep l) = List.filter keep l.
Proof.
  induction l as [|x l IH]; simpl; [done|].
  destruct (keep x) eqn:E; simpl; [|done]. by rewrite E, IH.
Qed.

Lemma hasSuffix_normalized suffixes file :
  hasSuffix toLowerCase Result label suffixes file = true <->
  exists suffix, suffix ∈ map normalizeSuffix suffixes /\
    suffix `suffix_of` toLowerCase (label file).
Proof.
  rewrite hasSuffix_true. split.
  - intros (s & Hs & He). exists (normalizeSuffix s). split; [|done].
    apply list_elem_of_In, in_map. by apply list_elem_of_In.
  - intros (s' & Hs' & He). apply list_elem_of_In, in_map_iff in Hs' as (s & <- & Hs).
    exists s. split; [by apply list_elem_of_In|done].
Qed.

End ApplyFilterMore.

(** X11: the filter judges each result by itself: whether a result is
    kept depends on the filter text and on that result only. So
    filtering a list in two parts gives the two filtered parts,
    filtering what was filtered changes nothing, and the filtered list
    is never longer than the list. *)
Theorem applyFilter_result_by_result
  toLowerCase (Result : Type) (label : Result -> jsstring) filterInput :
  let filtered := applyFilter toLowerCase Result label filterInput in
  (forall l1 l2, filtered (l1 ++ l2) = filtered l1 ++ filtered l2) /\
  (forall l, filtered (filtered l) = filtered l) /\
  (forall l, (List.length (filtered l) <= List.length l)%nat).
Proof.
  intros filtered.
  destruct (applyFilter_filter toLowerCase Result label filterInput) as [keep Hkeep].
  unfold filtered. split; [|split].
  - intros l1 l2. rewrite !Hkeep. apply List.filter_app.
  - intros l. rewrite !Hkeep. apply filter_filter_same.
  - intros l. rewrite Hkeep. apply List.filter_length_le.
Qed.

(** X12: only the set of the suffixes counts, each taken with its dot:
    two filter texts that are not blank and give the same suffixes, in
    whatever order, however often, with or without the dot, in
    whatever case, keep the same results. *)
Theorem applyFilter_by_suffix_set
  toLowerCase (Result : Type) (label : Result -> jsstring)
  filterInput1 filterInput2 allResults :
  trim filterInput1 <> [] -> trim filterInput2 <> [] ->
  (forall suffix,
     suffix ∈ map normalizeSuffix (parseSuffixes toLowerCase (trim filterInput1))
     <-> suffix ∈ map normalizeSuffix (parseSuffixes toLowerCase (trim filterInput2))) ->
  applyFilter toLowerCase Result label filterInput1 allResults
  = applyFilter toLowerCase Result label filterInput2 allResults.
Proof.
  intros H1 H2 Hset. unfold applyFilter.
  destruct (trim filterInput1) as [|c1 v1] eqn:E1; [done|].
  destruct (trim filterInput2) as [|c2 v2] eqn:E2; [done|].
  revert Hset.
  generalize (parseSuffixes toLowerCase (c1 :: v1))
             (parseSuffixes toLowerCase (c2 :: v2)).
  intros s1 s2 Hset.
  assert (Hkeep : forall file,
            hasSuffix toLowerCase Result label s1 file
            = hasSuffix toLowerCase Result label s2 file).
  { intros file. apply Bool.eq_iff_eq_true.
    rewrite !hasSuffix_normalized. split; intros (s & Hs & He); exists s;
      (split; [by apply Hset|done]). }
  destruct s1 as [|a1 s1], s2 as [|a2 s2].
  - done.
  - specialize (Hset (normalizeSuffix a2)). simpl in Hset.
    assert (Hn : normalizeSuffix a2 ∈ @nil (list N))
      by (apply Hset; apply list_elem_of_here).
    by apply elem_of_nil in Hn.
  - specialize (Hset (normalizeSuffix a1)). simpl in Hset.
    assert (Hn : normalizeSuffix a1 ∈ @nil (list N))
      by (apply Hset; apply list_elem_of_here).
    by apply elem_of_nil in Hn.
  - apply List.filter_ext. exact Hkeep.
Qed.

Lemma applyFilter_by_suffix_set_witness :
  applyFilter toLowerCaseLatin jsstring (fun file => file) (js "ts, .md")
    [js "a.ts"; js "b.js"; js "README.MD"]
  = applyFilter toLowerCaseLatin jsstring (fun file => file) (js " .MD,ts,.ts ")
      [js "a.ts"; js "b.js"; js "README.MD"].
Proof.
  apply applyFilter_by_suffix_set; [by vm_compute|by vm_compute|].
  intros suffix.
  change (map normalizeSuffix (parseSuffixes toLowerCaseLatin (trim (js "ts, .md"))))
    with [js ".ts"; js ".md"].
  change (map normalizeSuffix (parseSuffixes toLowerCaseLatin (trim (js " .MD,ts,.ts "))))
    with [js ".md"; js ".ts"; js ".ts"].
  rewrite !elem_of_cons, !elem_of_nil. tauto.
Defined.

(** ** The nonce *)

Lemma charAt_possible (i : Z) :
  0 <= i < 62 -> exists c, charAt possible i = [c] /\ c ∈ possible.
Proof.
  intros Hi. unfold charAt. destruct (Z.ltb_spec i 0); [lia|].
  destruct (lookup_lt_is_Some_2 possible (Z.to_nat i)) as [c Hc].
  { change (List.length possible) with 62%nat. lia. }
  rewrite Hc. exists c. split; [done|]. by eapply list_elem_of_lookup_2.
Qed.

Lemma nonce_loop (draw : nat -> Z) : forall count start text,
  (forall i, (start <= i < start + count)%nat -> 0 <= draw i < 62) ->
  let text' := foldl (fun text i => text ++ charAt possible (draw i)) text
                 (seq start count) in
  List.length text' = (List.length text + count)%nat /\
  (Forall (fun c => c ∈ possible) text -> Forall (fun c => c ∈ possible) text').
Proof.
  induction count as [|count IH]; intros start text Hdraw; simpl.
  - split; [lia|done].
  - destruct (charAt_possible (draw start)) as (c & Hc & Hin); [apply Hdraw; lia|].
    destruct (IH (S start) (text ++ charAt possible (draw start))) as [Hlen Hall].
    { intros i Hi. apply Hdraw. lia. }
    cbv zeta in Hlen, Hall. rewrite Hc in Hlen, Hall |- *.
    rewrite Hlen, List.length_app. simpl. split; [lia|].
    intros Htext. apply Hall. apply Forall_app. split; [done|].
    constructor; [done|constructor].
Qed.

(** X13: the nonce has 32 code units, each a letter of Basic Latin or
    a digit (one of the 62 of [possible]), whatever the draws are,
    every draw being an index from 0 to 61. *)
Theorem getNonce_alphanumeric (draw : nat -> Z) :
  (forall i, (i < 32)%nat -> 0 <= draw i < 62) ->
  List.length (getNonce draw) = 32%nat /\
  Forall (fun c => c ∈ possible) (getNonce draw) /\
  Forall (fun c => (48 <= c <= 57 \/ 65 <= c <= 90 \/ 97 <= c <= 122)%N) (getNonce draw).
Proof.
  intros Hdraw. unfold getNonce.
  destruct (nonce_loop draw 32 0 []) as [Hlen Hall].
  { intros i Hi. apply Hdraw. lia. }
  cbv zeta in Hlen, Hall. split; [done|].
  assert (Hnil : Forall (fun c => c ∈ possible) []) by constructor.
  specialize (Hall Hnil).
  split; [done|]. eapply Forall_impl; [exact Hall|]. intros c Hc.
  assert (Hp : Forall (fun c => (48 <= c <= 57 \/ 65 <= c <= 90 \/ 97 <= c <= 122)%N)
                 possible).
  { decide_by_computing. }
  rewrite Forall_forall in Hp. by apply Hp.
Qed.

Lemma getNonce_alphanumeric_witness :
  List.length (getNonce (fun i => Z.of_nat i * 7 mod 62)) = 32%nat.
Proof.
  apply (getNonce_alphanumeric (fun i => Z.of_nat i * 7 mod 62)).
  intros i _. apply Z.mod_pos_bound. lia.
Defined.

(** ** The webview *)

Section WebviewFacts.

Variable toLowerCase : jsstring -> jsstring.
Variable File : Type.

Local Abbreviation filtered_ :=
  (applyFilter toLowerCase (SearchResult File) label).
Local Abbreviation step_ := (step toLowerCase File).
Local Abbreviation run_ := (run toLowerCase File).
Local Abbreviation consistent := (consistentView toLowerCase File).

Lemma applyFilter_nil filterInput : filtered_ filterInput [] = [].
Proof.
  unfold applyFilter. destruct (trim filterInput); [done|].
  by destruct (parseSuffixes _ _).
Qed.

Lemma displayResults_fields resultsList (v : View.t File) :
  let v' := displayResults File resultsList v in
  View.results v' = resultsList /\
  View.allResults v' = View.allResults v /\
  View.filterInput v' = View.filterInput v /\
  View.searchInput v' = View.searchInput v /\
  View.isCaseSensitive v' = View.isCaseSensitive v /\
  View.useRegex v' = View.useRegex v /\
  View.messages v' = View.messages v /\
  View.searchTimeout v' = View.searchTimeout v /\
  View.selectedIndex v'
  = match resultsList with [] => -1 | _ :: _ => View.selectedIndex v end /\
  View.state v' = Some (snapshot File v').
Proof. destruct resultsList; simpl; repeat split; reflexivity. Qed.

Lemma applyFilterView_consistent (v : View.t File) :
  -1 <= View.selectedIndex v -> consistent (applyFilterView toLowerCase File v).
Proof.
  intros Hsel. unfold applyFilterView, consistentView.
  destruct (displayResults_fields (filtered_ (View.filterInput v) (View.allResults v)) v)
    as (Hr & Ha & Hf & _ & _ & _ & _ & _ & Hs & _).
  cbv zeta in *. rewrite Hr, Ha, Hf, Hs. split; [done|].
  destruct (filtered_ _ _); lia.
Qed.

Lemma step_consistent e (v v' : View.t File) :
  consistent v -> step_ e v = Normal v' -> consistent v'.
Proof.
  intros [Hres Hsel] Hstep. destruct e; simpl in Hstep.
  - injection Hstep as <-. by split.
  - injection Hstep as <-. by apply applyFilterView_consistent.
  - unfold keydown in Hstep. destruct (View.results v) eqn:Er.
    { injection Hstep as <-. split; [by rewrite Er|done]. }
    destruct k.
    + destruct (_ <? _); injection Hstep as <-; (split; simpl; [by rewrite Er|lia]).
    + destruct (Z.gtb_spec (View.selectedIndex v) 0); injection Hstep as <-;
        (split; simpl; [by rewrite Er|lia]).
    + destruct (_ >=? _).
      * destruct (_ !! _); [|done]. injection Hstep as <-. split; simpl; [by rewrite Er|done].
      * injection Hstep as <-. split; [by rewrite Er|done].
    + injection Hstep as <-. split; [by rewrite Er|done].
  - injection Hstep as <-. by split.
  - injection Hstep as <-. by split.
  - injection Hstep as <-. unfold clickItem. destruct (_ !! _); [|by split].
    split; simpl; [done|lia].
  - injection Hstep as <-. unfold timerFires. destruct (View.searchTimeout v); by split.
  - injection Hstep as <-. unfold onResults. by apply applyFilterView_consistent.
  - injection Hstep as <-. by split.
Qed.

Lemma run_consistent events : forall (v v' : View.t File),
  consistent v -> run_ events v = Normal v' -> consistent v'.
Proof.
  induction events as [|e events IH]; intros v v' Hv Hrun; simpl in Hrun.
  - by injection Hrun as <-.
  - destruct (step_ e v) as [v1|] eqn:E; [|done].
    apply (IH v1); [by eapply step_consistent|done].
Qed.

Lemma init_consistent previousState :
  match previousState with
  | Some p => -1 <= Saved.selectedIndex p
  | None => True
  end ->
  consistent (init toLowerCase File previousState).
Proof.
  destruct previousState as [p|]; simpl.
  - intros Hp.
    assert (-1 <= numberOr (Saved.selectedIndex p) (-1)).
    { unfold numberOr. destruct (_ =? _); lia. }
    destruct (Saved.allResults p) eqn:Ea.
    + split; simpl; [|done]. by rewrite applyFilter_nil.
    + by apply applyFilterView_consistent.
  - intros _. split; simpl; [by rewrite applyFilter_nil|lia].
Qed.

End WebviewFacts.

(** X14: whatever the events, from the start of the script on (with or
    without a state of before), the results shown are the results of
    the extension passed through the filter of the moment, and
    [selectedIndex] is never below [-1]. *)
Theorem webview_shows_filtered_results
  toLowerCase (File : Type) previousState events (v : View.t File) :
  match previousState with
  | Some p => -1 <= Saved.selectedIndex p
  | None => True
  end ->
  run toLowerCase File events (init toLowerCase File previousState) = Normal v ->
  View.results v
  = applyFilter toLowerCase (SearchResult File) label
      (View.filterInput v) (View.allResults v) /\
  -1 <= View.selectedIndex v.
Proof.
  intros Hprev Hrun.
  apply (run_consistent toLowerCase File events
           (init toLowerCase File previousState) v); [|done].
  by apply init_consistent.
Qed.

Lemma webview_shows_filtered_results_witness :
  exists v : View.t jsstring,
    run toLowerCaseLatin jsstring
      [ResultsMessage
         (Some [mkResult jsstring (js "/a.ts") (js "a.ts") (js "**a**.ts");
                mkResult jsstring (js "/a.md") (js "a.md") (js "**a**.md")]);
       FilterInput (js "md"); KeyDown ArrowDown]
      (init toLowerCaseLatin jsstring None) = Normal v /\
    View.results v
    = applyFilter toLowerCaseLatin (SearchResult jsstring) label
        (View.filterInput v) (View.allResults v) /\
    View.selectedIndex v = 0.
Proof.
  eexists. split; [reflexivity|]. split; [|reflexivity].
  eapply (proj1 (webview_shows_filtered_results toLowerCaseLatin jsstring None
                   [ResultsMessage
                      (Some [mkResult jsstring (js "/a.ts") (js "a.ts") (js "**a**.ts");
                             mkResult jsstring (js "/a.md") (js "a.md") (js "**a**.md")]);
                    FilterInput (js "md"); KeyDown ArrowDown] _ I eq_refl)).
Defined.

(** ** The keys *)

Section Keys.

Variable File : Type.

Local Abbreviation keydown_ := (keydown File).

(** The selection is the index of a result, or [-1]. *)
Local Abbreviation inRange :=
  (fun v : View.t File =>
     -1 <= View.selectedIndex v < Z.of_nat (List.length (View.results v))).

Lemma keydown_arrow (k : key) (v : View.t File) :
  inRange v -> k <> Enter ->
  exists v', keydown_ k v = Normal v' /\
    View.results v' = View.results v /\
    View.messages v' = View.messages v /\
    View.selectedIndex v'
    = match k with
      | ArrowDown =>
          Z.min (View.selectedIndex v + 1)
            (Z.of_nat (List.length (View.results v)) - 1)
      | ArrowUp =>
          if View.selectedIndex v <=? 0 then View.selectedIndex v
          else View.selectedIndex v - 1
      | _ => View.selectedIndex v
      end.
Proof.
  intros Hr Hk. simpl in Hr. unfold keydown.
  destruct (View.results v) as [|r rs] eqn:Er.
  { exists v. simpl in Hr |- *. repeat split; try done.
    destruct k; try done; [lia|].
    destruct (Z.leb_spec (View.selectedIndex v) 0); lia. }
  rewrite <- Er in *. destruct k; [| |done|].
  - destruct (Z.ltb_spec (View.selectedIndex v)
                (Z.of_nat (List.length (View.results v)) - 1)).
    + eexists. split; [done|]. simpl. repeat split; try done. lia.
    + exists v. repeat split; try done. lia.
  - destruct (Z.gtb_spec (View.selectedIndex v) 0).
    + eexists. split; [done|]. simpl. repeat split; try done.
      destruct (Z.leb_spec (View.selectedIndex v) 0); lia.
    + exists v. repeat split; try done.
      destruct (Z.leb_spec (View.selectedIndex v) 0); lia.
  - by exists v.
Qed.

Lemma keydown_enter (v : View.t File) :
  inRange v ->
  exists v', keydown_ Enter v = Normal v' /\
    View.results v' = View.results v /\
    View.selectedIndex v' = View.selectedIndex v /\
    (View.selectedIndex v = -1 -> v' = v) /\
    (0 <= View.selectedIndex v ->
     exists file,
       View.results v !! Z.to_nat (View.selectedIndex v) = Some file /\
       View.messages v' = View.messages v ++ [PostOpenFile (uri file)]).
Proof.
  intros Hr. simpl in Hr. unfold keydown.
  destruct (View.results v) as [|r rs] eqn:Er.
  { exists v. simpl in Hr. repeat split; try done. lia. }
  rewrite <- Er in *. destruct (Z.geb_spec (View.selectedIndex v) 0).
  - destruct (lookup_lt_is_Some_2 (View.results v) (Z.to_nat (View.selectedIndex v)))
      as [file Hfile]; [lia|].
    rewrite Hfile. eexists. split; [done|]. simpl. repeat split; try done; [lia|].
    intros _. by exists file.
  - exists v. repeat split; try done. lia.
Qed.

End Keys.

(** X15: while the selection is the index of a result or [-1], no key
    throws and none takes the selection out of that range. ArrowDown
    moves it down by one and stops at the last result, ArrowUp moves
    it up by one and stops at the first (it never goes back to no
    selection); neither posts anything. Enter posts the opening of the
    selected result, and nothing without a selection. *)
Theorem keys_keep_selection_in_range (File : Type) (k : key) (v : View.t File) :
  -1 <= View.selectedIndex v < Z.of_nat (List.length (View.results v)) ->
  exists v', keydown File k v = Normal v' /\
    View.results v' = View.results v /\
    -1 <= View.selectedIndex v' < Z.of_nat (List.length (View.results v')) /\
    match k with
    | ArrowDown =>
        View.selectedIndex v'
        = Z.min (View.selectedIndex v + 1)
            (Z.of_nat (List.length (View.results v)) - 1) /\
        View.messages v' = View.messages v
    | ArrowUp =>
        View.selectedIndex v'
        = (if View.selectedIndex v <=? 0 then View.selectedIndex v
           else View.selectedIndex v - 1) /\
        View.messages v' = View.messages v
    | Enter =>
        View.selectedIndex v' = View.selectedIndex v /\
        (View.selectedIndex v = -1 -> View.messages v' = View.messages v) /\
        (0 <= View.selectedIndex v ->
         exists file,
           View.results v !! Z.to_nat (View.selectedIndex v) = Some file /\
           View.messages v' = View.messages v ++ [PostOpenFile (uri file)])
    | OtherKey => v' = v
    end.
Proof.
  intros Hr.
  assert (k = Enter \/ k <> Enter) as [->|Hk]
    by (destruct k; (by left) || by right).
  - destruct (keydown_enter File v Hr) as (v' & Hk & Hres & Hsel & Hnone & Hopen).
    exists v'. split; [done|]. split; [done|]. rewrite Hres, Hsel.
    split; [done|]. split; [done|]. split; [|done]. intros E. by rewrite (Hnone E).
  - destruct (keydown_arrow File k v Hr Hk) as (v' & Hkd & Hres & Hmsg & Hsel).
    exists v'. split; [done|]. split; [done|]. rewrite Hres.
    destruct k; try done.
    + rewrite Hsel. split; [lia|done].
    + rewrite Hsel. split; [|done].
      destruct (Z.leb_spec (View.selectedIndex v) 0); lia.
    + unfold keydown in Hkd. split; [lia|].
      destruct (View.results v); by injection Hkd as <-.
Qed.

Lemma keys_keep_selection_in_range_witness :
  exists v' : View.t jsstring,
    keydown jsstring Enter
      (View.mk (js "a") [] false false
         [mkResult jsstring (js "/a.ts") (js "a.ts") (js "**a**.ts")]
         [mkResult jsstring (js "/a.ts") (js "a.ts") (js "**a**.ts")]
         0 false None []) = Normal v' /\
    View.messages v' = [PostOpenFile (js "/a.ts")].
Proof.
  destruct (keys_keep_selection_in_range jsstring Enter
              (View.mk (js "a") [] false false
                 [mkResult jsstring (js "/a.ts") (js "a.ts") (js "**a**.ts")]
                 [mkResult jsstring (js "/a.ts") (js "a.ts") (js "**a**.ts")]
                 0 false None []))
    as (v' & Hk & _ & _ & _ & _ & Hopen); [simpl; lia|].
  exists v'. split; [exact Hk|].
  destruct Hopen as (file & Hfile & Hmsg); [simpl; lia|].
  simpl in Hfile. injection Hfile as <-. exact Hmsg.
Defined.


(** ** Moving the selection *)

Lemma arrows_down (toLowerCase : jsstring -> jsstring) (File : Type) (n : nat) :
  forall v : View.t File,
  -1 <= View.selectedIndex v < Z.of_nat (List.length (View.results v)) ->
  exists v', run toLowerCase File (replicate n (KeyDown ArrowDown)) v = Normal v' /\
    View.results v' = View.results v /\
    View.selectedIndex v'
    = Z.min (View.selectedIndex v + Z.of_nat n)
        (Z.of_nat (List.length (View.results v)) - 1).
Proof.
  induction n as [|n IH]; intros v Hr.
  - exists v. repeat split; lia.
  - destruct (keydown_arrow File ArrowDown v Hr) as (v1 & Hk & Hres & _ & Hsel); [done|].
    destruct (IH v1) as (v' & Hrun & Hres' & Hsel'); [rewrite Hres, Hsel; lia|].
    exists v'. simpl. rewrite Hk. split; [done|]. split; [congruence|].
    rewrite Hsel', Hres, Hsel. lia.
Qed.

Lemma arrows_up (toLowerCase : jsstring -> jsstring) (File : Type) (n : nat) :
  forall v : View.t File,
  -1 <= View.selectedIndex v < Z.of_nat (List.length (View.results v)) ->
  exists v', run toLowerCase File (replicate n (KeyDown ArrowUp)) v = Normal v' /\
    View.results v' = View.results v /\
    View.selectedIndex v'
    = if View.selectedIndex v <=? 0 then View.selectedIndex v
      else Z.max (View.selectedIndex v - Z.of_nat n) 0.
Proof.
  induction n as [|n IH]; intros v Hr.
  - exists v. repeat split. destruct (Z.leb_spec (View.selectedIndex v) 0); lia.
  - destruct (keydown_arrow File ArrowUp v Hr) as (v1 & Hk & Hres & _ & Hsel); [done|].
    assert (-1 <= View.selectedIndex v1 < Z.of_nat (List.length (View.results v1))) as Hr1.
    { rewrite Hres, Hsel. destruct (Z.leb_spec (View.selectedIndex v) 0); lia. }
    destruct (IH v1 Hr1) as (v' & Hrun & Hres' & Hsel').
    exists v'. simpl. rewrite Hk. split; [done|]. split; [congruence|].
    rewrite Hsel', Hsel.
    destruct (Z.leb_spec (View.selectedIndex v) 0) as [H0|H0].
    + destruct (Z.leb_spec (View.selectedIndex v) 0); lia.
    + destruct (Z.leb_spec (View.selectedIndex v - 1) 0); lia.
Qed.

(** X16: with the selection the index of a result or [-1], pressing
    ArrowDown [n] times never throws and moves the selection [n]
    results down, stopping at the last one; pressing ArrowUp [n] times
    moves it [n] results up, stopping at the first, and leaves it
    where it is when nothing is selected. The results stay. *)
Theorem arrows_stop_at_the_ends
  (toLowerCase : jsstring -> jsstring) (File : Type) (n : nat) (v : View.t File) :
  -1 <= View.selectedIndex v < Z.of_nat (List.length (View.results v)) ->
  (exists v', run toLowerCase File (replicate n (KeyDown ArrowDown)) v = Normal v' /\
     View.results v' = View.results v /\
     View.selectedIndex v'
     = Z.min (View.selectedIndex v + Z.of_nat n)
         (Z.of_nat (List.length (View.results v)) - 1)) /\
  (exists v', run toLowerCase File (replicate n (KeyDown ArrowUp)) v = Normal v' /\
     View.results v' = View.results v /\
     View.selectedIndex v'
     = if View.selectedIndex v <=? 0 then View.selectedIndex v
       else Z.max (View.selectedIndex v - Z.of_nat n) 0).
Proof.
  intros Hr. split; [by apply arrows_down|by apply arrows_up].
Qed.

Lemma arrows_stop_at_the_ends_witness :
  exists v' : View.t jsstring,
    run toLowerCaseLatin jsstring (replicate 5 (KeyDown ArrowDown))
      (View.mk (js "a") [] false false
         [mkResult jsstring (js "/a.ts") (js "a.ts") (js "**a**.ts");
          mkResult jsstring (js "/a.md") (js "a.md") (js "**a**.md")]
         [mkResult jsstring (js "/a.ts") (js "a.ts") (js "**a**.ts");
          mkResult jsstring (js "/a.md") (js "a.md") (js "**a**.md")]
         (-1) false None []) = Normal v' /\
    View.selectedIndex v' = 1.
Proof.
  destruct (arrows_stop_at_the_ends toLowerCaseLatin jsstring 5
              (View.mk (js "a") [] false false
                 [mkResult jsstring (js "/a.ts") (js "a.ts") (js "**a**.ts");
                  mkResult jsstring (js "/a.md") (js "a.md") (js "**a**.md")]
                 [mkResult jsstring (js "/a.ts") (js "a.ts") (js "**a**.ts");
                  mkResult jsstring (js "/a.md") (js "a.md") (js "**a**.md")]
                 (-1) false None []))
    as [(v' & Hrun & _ & Hsel) _]; [simpl; lia|].
  exists v'. split; [exact Hrun|exact Hsel].
Defined.

(** ** The selection and the filter *)

(** X17: a change of the filter that leaves some result keeps
    [selectedIndex] as it was. Enter then opens the result at that
    index of the filtered results; with as many filtered results as
    the index or fewer, the listener reads [uri] of [undefined] and
    throws. *)
Theorem enter_after_filter_change
  (toLowerCase : jsstring -> jsstring) (File : Type) (text : jsstring)
  (v : View.t File) :
  let filtered :=
    applyFilter toLowerCase (SearchResult File) label text (View.allResults v) in
  filtered <> [] ->
  0 <= View.selectedIndex v ->
  (View.selectedIndex v < Z.of_nat (List.length filtered) ->
   exists v' file,
     run toLowerCase File [FilterInput text; KeyDown Enter] v = Normal v' /\
     filtered !! Z.to_nat (View.selectedIndex v) = Some file /\
     View.selectedIndex v' = View.selectedIndex v /\
     View.messages v' = View.messages v ++ [PostOpenFile (uri file)]) /\
  (Z.of_nat (List.length filtered) <= View.selectedIndex v ->
   run toLowerCase File [FilterInput text; KeyDown Enter] v = Throw TypeError).
Proof.
  intros filtered Hne Hsel. subst filtered. simpl.
  unfold applyFilterView. simpl.
  destruct (applyFilter toLowerCase (SearchResult File) label text (View.allResults v))
    as [|r rs] eqn:Ef; [done|].
  unfold keydown. simpl.
  destruct (Z.geb_spec (View.selectedIndex v) 0); [|lia].
  split.
  - intros Hlt.
    destruct (lookup_lt_is_Some_2 (r :: rs) (Z.to_nat (View.selectedIndex v)))
      as [file Hfile]; [simpl in *; lia|].
    rewrite Hfile. eexists _, file. by repeat split.
  - intros Hge.
    by rewrite (lookup_ge_None_2 (r :: rs) (Z.to_nat (View.selectedIndex v)))
      by (simpl in *; lia).
Qed.

Lemma enter_after_filter_change_witness :
  exists v : View.t jsstring,
    run toLowerCaseLatin jsstring
      [ResultsMessage
         (Some [mkResult jsstring (js "/a.ts") (js "a.ts") (js "**a**.ts");
                mkResult jsstring (js "/a.md") (js "a.md") (js "**a**.md")]);
       KeyDown ArrowDown; KeyDown ArrowDown]
      (init toLowerCaseLatin jsstring None) = Normal v /\
    run toLowerCaseLatin jsstring [FilterInput (js "md"); KeyDown Enter] v
    = Throw TypeError.
Proof.
  eexists. split; [reflexivity|].
  apply (enter_after_filter_change toLowerCaseLatin jsstring (js "md")).
  - vm_compute. discriminate.
  - vm_compute. discriminate.
  - vm_compute. discriminate.
Defined.

(** ** The state saved and restored *)

(** X18: take a view that shows the filtered results and has no
    selection when it shows none. A view loaded again from the state
    that [saveState] saved has the search text, the filter text, the
    two toggles, the results of the extension and the results shown of
    the view that saved it, no timer waiting, and nothing posted. Its selection is that of
    before, except that a selection of the first result is lost:
    [selectedIndex] 0 comes back as [-1]. *)
Theorem restored_view
  (toLowerCase : jsstring -> jsstring) (File : Type) (v : View.t File) :
  View.results v
  = applyFilter toLowerCase (SearchResult File) label
      (View.filterInput v) (View.allResults v) ->
  (View.results v = [] -> View.selectedIndex v = -1) ->
  let v' := init toLowerCase File (View.state (saveState File v)) in
  View.searchInput v' = View.searchInput v /\
  View.filterInput v' = View.filterInput v /\
  View.isCaseSensitive v' = View.isCaseSensitive v /\
  View.useRegex v' = View.useRegex v /\
  View.allResults v' = View.allResults v /\
  View.results v' = View.results v /\
  View.searchTimeout v' = false /\
  View.messages v' = [] /\
  View.selectedIndex v'
  = if View.selectedIndex v =? 0 then -1 else View.selectedIndex v.
Proof.
  intros Hres Hnone. simpl.
  assert (View.results v = [] ->
          -1 = if View.selectedIndex v =? 0 then -1 else View.selectedIndex v) as Hsel.
  { intros E. by rewrite (Hnone E). }
  destruct (View.allResults v) as [|a l] eqn:Ea.
  - rewrite applyFilter_nil in Hres. simpl. rewrite Hres.
    repeat split; try done; unfold numberOr; by rewrite (Hnone Hres).
  - unfold applyFilterView. simpl. rewrite <- Hres.
    destruct (View.results v) as [|r rs] eqn:Er; simpl.
    + repeat split; try done. by apply Hsel.
    + by repeat split.
Qed.

Lemma restored_view_witness :
  View.selectedIndex
    (init toLowerCaseLatin jsstring
       (View.state
          (saveState jsstring
             (View.mk (js "a") [] false false
                [mkResult jsstring (js "/a.ts") (js "a.ts") (js "**a**.ts")]
                [mkResult jsstring (js "/a.ts") (js "a.ts") (js "**a**.ts")]
                0 false None []))))
  = -1.
Proof.
  apply (restored_view toLowerCaseLatin jsstring
           (View.mk (js "a") [] false false
              [mkResult jsstring (js "/a.ts") (js "a.ts") (js "**a**.ts")]
              [mkResult jsstring (js "/a.ts") (js "a.ts") (js "**a**.ts")]
              0 false None [])).
  - reflexivity.
  - discriminate.
Defined.

(** ** One search for many changes *)

Section Debounce.

Variable toLowerCase : jsstring -> jsstring.
Variable File : Type.

Lemma run_app (es1 es2 : list (event File)) : forall v : View.t File,
  run toLowerCase File (es1 ++ es2) v
  = match run toLowerCase File es1 v with
    | Normal v1 => run toLowerCase File es2 v1
    | Throw err => Throw err
    end.
Proof.
  induction es1 as [|e es1 IH]; intros v; simpl; [done|].
  destruct (step toLowerCase File e v); [apply IH|done].
Qed.

Lemma run_searchEvents (es : list (event File)) : forall v : View.t File,
  Forall (fun e => searchEvent e = true) es ->
  exists v', run toLowerCase File es v = Normal v' /\
    View.searchInput v' = typed es (View.searchInput v) /\
    View.isCaseSensitive v' = toggled isClickCase es (View.isCaseSensitive v) /\
    View.useRegex v' = toggled isClickRegex es (View.useRegex v) /\
    View.filterInput v' = View.filterInput v /\
    View.results v' = View.results v /\
    View.allResults v' = View.allResults v /\
    View.selectedIndex v' = View.selectedIndex v /\
    View.messages v' = View.messages v /\
    View.state v' = View.state v /\
    (es <> [] -> View.searchTimeout v' = true).
Proof.
  induction es as [|e es IH]; intros v Hes.
  - exists v. by repeat split.
  - apply Forall_cons in Hes as [He Hes].
    destruct e; try discriminate He; simpl;
      match goal with
      | |- context [run _ _ es ?v1] =>
          destruct (IH v1 Hes)
            as (v' & Hrun & Hs & Hc & Hx & Hf & Hr & Ha & Hi & Hm & Hst & Ht)
      end;
      exists v'; (split; [done|]); simpl in *;
      rewrite Hs, Hc, Hx, Hf, Hr, Ha, Hi, Hm, Hst;
      (repeat split; try done);
      intros _; (destruct es as [|e' es']; [by injection Hrun as <-|by apply Ht]).
Qed.

End Debounce.

(** X19: any number of changes of the search text and clicks on the
    two toggles, at least one, followed by the timer running out, post
    one search message, with the text typed last and each toggle
    switched once for each of its clicks; the results and the
    selection stay; with no new change, there is no timer left to post
    a second one. *)
Theorem one_search_for_many_changes
  (toLowerCase : jsstring -> jsstring) (File : Type)
  (events : list (event File)) (v : View.t File) :
  Forall (fun e => searchEvent e = true) events ->
  events <> [] ->
  exists v',
    run toLowerCase File (events ++ [TimerFires]) v = Normal v' /\
    View.messages v'
    = View.messages v
      ++ [PostSearch (typed events (View.searchInput v))
            (toggled isClickCase events (View.isCaseSensitive v))
            (toggled isClickRegex events (View.useRegex v))] /\
    View.results v' = View.results v /\
    View.selectedIndex v' = View.selectedIndex v /\
    View.searchTimeout v' = false /\
    run toLowerCase File (events ++ [TimerFires; TimerFires]) v = Normal v'.
Proof.
  intros Hes Hne.
  destruct (run_searchEvents toLowerCase File events v Hes)
    as (v1 & Hrun & Hs & Hc & Hx & _ & Hr & _ & Hi & Hm & _ & Ht).
  specialize (Ht Hne).
  exists (timerFires File v1). rewrite !run_app, Hrun. simpl.
  unfold timerFires. rewrite Ht. simpl. rewrite Hs, Hc, Hx, Hr, Hi, Hm.
  by repeat split.
Qed.

Lemma one_search_for_many_changes_witness :
  exists v' : View.t jsstring,
    run toLowerCaseLatin jsstring
      ([SearchInput (js "a"); ClickCase; SearchInput (js "ab"); ClickCase; ClickRegex]
       ++ [TimerFires])
      (init toLowerCaseLatin jsstring None) = Normal v' /\
    View.messages v' = [PostSearch (js "ab") false true].
Proof.
  destruct (one_search_for_many_changes toLowerCaseLatin jsstring
              [SearchInput (js "a"); ClickCase; SearchInput (js "ab"); ClickCase; ClickRegex]
              (init toLowerCaseLatin jsstring None))
    as (v' & Hrun & Hmsg & _).
  - repeat constructor.
  - discriminate.
  - exists v'. split; [exact Hrun|exact Hmsg].
Defined.
